(** * Static timing budgeting and analysis of nextpnr ([common/timing.cc])

    A shallow embedding of [struct Timing] (the topological [walk_paths],
    [assign_budget]) and of the two entry points [assign_budget] and
    [timing_analysis], together with the properties of the engine.

    Conventions of the embedding.
    - [IdString] is the interned index of the source ([int index], the
      default-constructed [IdString()] being index [0]).
    - Pointers are handles: a [CellInfo*] is the key of the cell in
      [ctx->cells], a [NetInfo*] the key of the net in [ctx->nets], a
      [const PortInfo*] the pair (cell key, port key), a [const PortRef*]
      the pair (net key, position in [users]).  A null net pointer is [None].
    - [delay_t] is the architecture's [int]; signed overflow is undefined in
      the source and the embedding computes in [Z].  [unsigned] values are
      kept in [Z] with the reduction modulo 2^32 written out ([u32]).
    - [std::unordered_map] containers that the code iterates ([ctx->cells],
      [cell->ports]) are association lists in iteration order; those that it
      only searches and updates ([port_fanin], [net_data], [ctx->nets]) are
      finite maps. *)

From Stdlib Require Import ZArith Lia Sorted.
From stdpp Require Import base option list gmap fin_maps.

Local Open Scope Z_scope.

(** ** Outcomes *)

(** The ways a run can stop early: [NPNR_ASSERT] failing, [std::out_of_range]
    thrown by [unordered_map::at], the two undefined operations of the
    histogram code (integer division by zero, [vector::operator[]] past the
    end), and the bound of the work-queue loop of the embedding. *)
Inductive error : Type :=
  | AssertionFailure
  | OutOfRange
  | DivisionByZero
  | IndexOutOfBounds
  | OutOfFuel.

Inductive result (A : Type) : Type :=
  | Ok (a : A)
  | Err (e : error).
Arguments Ok {A} a.
Arguments Err {A} e.

#[global] Instance result_ret : MRet result := @Ok.
#[global] Instance result_bind : MBind result :=
  fun A B f m => match m with Ok a => f a | Err e => Err e end.

Fixpoint foldM {S B : Type} (f : S -> B -> result S) (l : list B) (s : S)
  : result S :=
  match l with
  | [] => Ok s
  | x :: l' => s' ← f s x; foldM f l' s'
  end.

(** A loop over a vector whose elements are updated in place while a state
    is threaded through. *)
Fixpoint mapM_state {S A : Type} (f : S -> A -> result (A * S)) (s : S)
  (l : list A) : result (list A * S) :=
  match l with
  | [] => Ok ([], s)
  | x :: l' =>
      '(x', s1) ← f s x;
      '(l'', s2) ← mapM_state f s1 l';
      Ok (x' :: l'', s2)
  end.

(** ** Machine integers *)

Definition u32 (z : Z) : Z := z mod 2 ^ 32.

(** Conversion of an [unsigned] to [delay_t] ([int]). *)
Definition s32 (z : Z) : Z := if z <? 2 ^ 31 then z else z - 2 ^ 32.

(** [std::numeric_limits<delay_t>::max()]. *)
Definition delay_max : Z := 2 ^ 31 - 1.

(** ** Netlist *)

Abbreviation IdString := Z (only parsing).

Inductive PortType : Type := PORT_IN | PORT_OUT | PORT_INOUT.

Record PortInfo : Type := {
  port_name : IdString;
  port_net : option IdString;
  port_type : PortType
}.

Record CellInfo : Type := {
  cell_name : IdString;
  cell_type : IdString;
  ports : list (IdString * PortInfo)
}.

Record PortRef : Type := {
  cell : IdString;
  port : IdString;
  budget : Z
}.

Record NetInfo : Type := {
  net_name : IdString;
  driver : PortRef;
  users : list PortRef
}.

(** [Context]: the netlist database and the architecture's delay model.

    - [target_period] stands for [delay_t(1.0e12 / ctx->target_freq)], the
      only way the code reads [target_freq].
    - [getCellDelay c from to] is [Some d] when the source function returns
      [true] with [delay.maxDelay() = d]; a [DelayInfo] left untouched is the
      default one, of delay [0].
    - [getNetinfoRouteDelay net c p] is the route delay of the user
      [(c, p)] of [net].
    - Modelled from the spec: [getBudgetOverride] is declared in the
      architecture headers; the spec gives [budget_override(net, connection)
      -> Option<Delay>], and when it is [Some d] the value [d] replaces the
      delay variable passed by reference at the call site.
    - [slack_ps d] stands for [int(ctx->getDelayNS(d) * 1000)]. *)
Record Context : Type := {
  cells : list (IdString * CellInfo);
  nets : gmap Z NetInfo;
  target_period : Z;
  slack_redist_iter : Z;
  auto_freq : bool;
  id_sb_io : IdString;
  getPortClock : IdString -> IdString -> IdString;
  getCellDelay : IdString -> IdString -> IdString -> option Z;
  getNetinfoRouteDelay : IdString -> IdString -> IdString -> Z;
  getBudgetOverride : IdString -> IdString -> IdString -> option Z;
  slack_ps : Z -> Z
}.

Definition set_nets (ctx : Context) (ns : gmap Z NetInfo) : Context :=
  {| cells := cells ctx; nets := ns; target_period := target_period ctx;
     slack_redist_iter := slack_redist_iter ctx; auto_freq := auto_freq ctx;
     id_sb_io := id_sb_io ctx; getPortClock := getPortClock ctx;
     getCellDelay := getCellDelay ctx;
     getNetinfoRouteDelay := getNetinfoRouteDelay ctx;
     getBudgetOverride := getBudgetOverride ctx; slack_ps := slack_ps ctx |}.

Definition set_target_period (ctx : Context) (p : Z) : Context :=
  {| cells := cells ctx; nets := nets ctx; target_period := p;
     slack_redist_iter := slack_redist_iter ctx; auto_freq := auto_freq ctx;
     id_sb_io := id_sb_io ctx; getPortClock := getPortClock ctx;
     getCellDelay := getCellDelay ctx;
     getNetinfoRouteDelay := getNetinfoRouteDelay ctx;
     getBudgetOverride := getBudgetOverride ctx; slack_ps := slack_ps ctx |}.

Fixpoint assoc {A : Type} (k : IdString) (l : list (IdString * A)) : option A :=
  match l with
  | [] => None
  | (k', v) :: l' => if k =? k' then Some v else assoc k l'
  end.

(** [c->ports] for a cell handle [c]. *)
Definition cell_ports (ctx : Context) (c : IdString) : list (IdString * PortInfo) :=
  match assoc c (cells ctx) with
  | Some ci => ports ci
  | None => []
  end.

(** [net->users] for a net handle [net]. *)
Definition net_users (ns : gmap Z NetInfo) (net : IdString) : list PortRef :=
  match ns !! net with
  | Some ni => users ni
  | None => []
  end.

Definition set_users (ni : NetInfo) (us : list PortRef) : NetInfo :=
  {| net_name := net_name ni; driver := driver ni; users := us |}.

Definition set_budget (u : PortRef) (b : Z) : PortRef :=
  {| cell := cell u; port := port u; budget := b |}.

Definition is_out (p : PortInfo) : bool :=
  match port_type p with PORT_OUT => true | _ => false end.

(** [ctx->getPortClock(c, p) != IdString()]. *)
Definition clocked (ctx : Context) (c p : IdString) : bool :=
  negb (getPortClock ctx c p =? 0).

(** ** [struct Timing] *)

Record TimingData : Type := {
  max_arrival : Z;
  max_path_length : Z;
  min_remaining_budget : Z
}.

Definition TimingData0 : TimingData :=
  {| max_arrival := 0; max_path_length := 0; min_remaining_budget := 0 |}.

Definition TimingData1 (a : Z) : TimingData :=
  {| max_arrival := a; max_path_length := 0; min_remaining_budget := 0 |}.

(** [DelayFrequency] is a [std::map<int, unsigned>]: its bindings in
    increasing key order. *)
Definition DelayFrequency : Type := list (Z * Z).

(** The increment [slack_histogram[k]++] of the pointed-to map. *)
Fixpoint hist_incr (k : Z) (h : DelayFrequency) : DelayFrequency :=
  match h with
  | [] => [(k, 1)]
  | (k', c) :: h' =>
      if k <? k' then (k, 1) :: h
      else if k =? k' then (k', u32 (c + 1)) :: h'
      else (k', c) :: hist_incr k h'
  end.

Record Timing : Type := {
  net_delays : bool;
  update : bool;
  min_slack : Z;
  current_path : list (IdString * nat);
  crit_path : option (list (IdString * nat));
  slack_histogram : option DelayFrequency
}.

(** The constructor [Timing::Timing]. *)
Definition mkTiming (ctx : Context) (net_delays update : bool)
  (crit_path : option (list (IdString * nat)))
  (slack_histogram : option DelayFrequency) : Timing :=
  {| net_delays := net_delays; update := update;
     min_slack := target_period ctx; current_path := [];
     crit_path := crit_path; slack_histogram := slack_histogram |}.

(** ** [Timing::walk_paths]: the dependency linearizer *)

(** The ports of a cell that are bound to a net, split as the first loop over
    [cell.second->ports] does: [input_ports] keeps port keys,
    [output_ports] keeps pointers to the ports (here the key, the
    [PortInfo] and the net it is bound to). *)
Definition input_ports (ps : list (IdString * PortInfo)) : list IdString :=
  omap (fun kp : IdString * PortInfo =>
          match port_net kp.2 with
          | None => None
          | Some _ => if is_out kp.2 then None else Some kp.1
          end) ps.

Definition output_ports (ps : list (IdString * PortInfo))
  : list (IdString * PortInfo * IdString) :=
  omap (fun kp : IdString * PortInfo =>
          match port_net kp.2 with
          | None => None
          | Some n => if is_out kp.2 then Some (kp.1, kp.2, n) else None
          end) ps.

(** [net_data.emplace(n, d)]: no effect when the key is present. *)
Definition emplace (n : IdString) (d : TimingData) (nd : gmap Z TimingData)
  : gmap Z TimingData :=
  match nd !! n with
  | Some _ => nd
  | None => <[n := d]> nd
  end.

(** [port_fanin[o]++]. *)
Definition fanin_incr (o : Z * Z) (pf : gmap (Z * Z) Z) : gmap (Z * Z) Z :=
  <[o := u32 (default 0 (pf !! o) + 1)]> pf.

Record Seeds : Type := {
  topographical_order : list IdString;
  port_fanin : gmap (Z * Z) Z;
  net_data : gmap Z TimingData
}.

Definition count_fanin (ctx : Context) (c : IdString) (o : IdString * PortInfo * IdString)
  (pf : gmap (Z * Z) Z) (i : IdString) : gmap (Z * Z) Z :=
  match getCellDelay ctx c i (port_name o.1.2) with
  | Some _ => fanin_incr (c, o.1.1) pf
  | None => pf
  end.

(** Body of [for (auto o : output_ports)]. *)
Definition seed_output (ctx : Context) (c : IdString) (is_io : bool)
  (ins : list IdString) (s : Seeds) (o : IdString * PortInfo * IdString) : Seeds :=
  let clock_domain := getPortClock ctx c (port_name o.1.2) in
  if clock_domain =? 0 then
    let s1 :=
      if is_io then
        {| topographical_order := topographical_order s ++ [o.2];
           port_fanin := port_fanin s;
           net_data := emplace o.2 TimingData0 (net_data s) |}
      else s in
    {| topographical_order := topographical_order s1;
       port_fanin := fold_left (count_fanin ctx c o) ins (port_fanin s1);
       net_data := net_data s1 |}
  else
    let clkToQ := default 0 (getCellDelay ctx c clock_domain (port_name o.1.2)) in
    {| topographical_order := topographical_order s ++ [o.2];
       port_fanin := port_fanin s;
       net_data := emplace o.2 (TimingData1 clkToQ) (net_data s) |}.

(** Body of [for (auto &cell : ctx->cells)]. *)
Definition seed_cell (ctx : Context) (s : Seeds) (kc : IdString * CellInfo) : Seeds :=
  let is_io := cell_type kc.2 =? id_sb_io ctx in
  fold_left (seed_output ctx kc.1 is_io (input_ports (ports kc.2)))
            (output_ports (ports kc.2)) s.

Definition seed (ctx : Context) : Seeds :=
  fold_left (seed_cell ctx) (cells ctx)
            {| topographical_order := []; port_fanin := ∅; net_data := ∅ |}.

(** State of the work-queue loop. *)
Record Kahn : Type := {
  k_order : list IdString;
  k_fanin : gmap (Z * Z) Z;
  k_queue : list IdString
}.

(** Body of [for (auto& port : usr.cell->ports)] in the work-queue loop. *)
Definition visit_port (ctx : Context) (usr : PortRef) (k : Kahn)
  (kp : IdString * PortInfo) : result Kahn :=
  match port_net kp.2 with
  | Some n =>
      if is_out kp.2 then
        match getCellDelay ctx (cell usr) (port usr) kp.1 with
        | Some _ =>
            match k_fanin k !! (cell usr, kp.1) with
            | None => Err AssertionFailure
            | Some v =>
                let v' := u32 (v - 1) in
                if v' =? 0 then
                  Ok {| k_order := k_order k ++ [n];
                        k_fanin := delete (cell usr, kp.1) (k_fanin k);
                        k_queue := k_queue k ++ [n] |}
                else
                  Ok {| k_order := k_order k;
                        k_fanin := <[(cell usr, kp.1) := v']> (k_fanin k);
                        k_queue := k_queue k |}
            end
        | None => Ok k
        end
      else Ok k
  | None => Ok k
  end.

(** Body of [for (auto &usr : net->users)] in the work-queue loop. *)
Definition visit_user (ctx : Context) (k : Kahn) (usr : PortRef) : result Kahn :=
  if clocked ctx (cell usr) (port usr) then Ok k
  else foldM (visit_port ctx usr) (cell_ports ctx (cell usr)) k.

(** [while (!queue.empty())], bounded by [fuel] iterations. *)
Fixpoint drain (fuel : nat) (ctx : Context) (k : Kahn) : result Kahn :=
  match k_queue k with
  | [] => Ok k
  | net :: q =>
      match fuel with
      | O => Err OutOfFuel
      | S fuel' =>
          k' ← foldM (visit_user ctx) (net_users (nets ctx) net)
                 {| k_order := k_order k; k_fanin := k_fanin k; k_queue := q |};
          drain fuel' ctx k'
      end
  end.

(** Every iteration pops one net and pushes as many nets as it erases
    entries of [port_fanin]: this many iterations always suffice. *)
Definition drain_fuel (k : Kahn) : nat :=
  (length (k_queue k) + size (k_fanin k))%nat.

(** The linearizer: seeding, then the work-queue loop.  It yields the order
    together with what is left of [port_fanin]. *)
Definition linearize (ctx : Context) : result Kahn :=
  let s := seed ctx in
  let k0 := {| k_order := topographical_order s; k_fanin := port_fanin s;
               k_queue := topographical_order s |} in
  drain (drain_fuel k0) ctx k0.

(** ** [Timing::walk_paths]: forward propagation *)

(** The realized delay of a connection and whether it is overridden:
    [net_delay] after the call [getBudgetOverride(net, usr, net_delay)]. *)
Definition realized_delay (ctx : Context) (net : IdString) (usr : PortRef) : Z :=
  default (getNetinfoRouteDelay ctx net (cell usr) (port usr))
          (getBudgetOverride ctx net (cell usr) (port usr)).

Definition budget_override (ctx : Context) (net : IdString) (usr : PortRef) : bool :=
  bool_decide (is_Some (getBudgetOverride ctx net (cell usr) (port usr))).

Definition set_max_arrival (d : TimingData) (a : Z) : TimingData :=
  {| max_arrival := a; max_path_length := max_path_length d;
     min_remaining_budget := min_remaining_budget d |}.

Definition set_max_path_length (d : TimingData) (l : Z) : TimingData :=
  {| max_arrival := max_arrival d; max_path_length := l;
     min_remaining_budget := min_remaining_budget d |}.

Definition set_min_remaining_budget (d : TimingData) (b : Z) : TimingData :=
  {| max_arrival := max_arrival d; max_path_length := max_path_length d;
     min_remaining_budget := b |}.

(** Body of [for (auto port : usr.cell->ports)] in the forward loop;
    [net_data[n]] inserts a default record when [n] has none. *)
Definition forward_port (ctx : Context) (net : IdString) (usr : PortRef)
  (usr_arrival net_length_plus_one : Z) (nd : gmap Z TimingData)
  (kp : IdString * PortInfo) : gmap Z TimingData :=
  match port_net kp.2 with
  | Some n =>
      if is_out kp.2 then
        match getCellDelay ctx (cell usr) (port usr) kp.1 with
        | Some comb_delay =>
            let data := default TimingData0 (nd !! n) in
            let data1 :=
              set_max_arrival data (Z.max (max_arrival data) (usr_arrival + comb_delay)) in
            let data2 :=
              if budget_override ctx net usr then data1
              else set_max_path_length data1
                     (Z.max (max_path_length data1) net_length_plus_one) in
            <[n := data2]> nd
        | None => nd
        end
      else nd
  | None => nd
  end.

Definition forward_user (ctx : Context) (net : IdString)
  (net_arrival net_length_plus_one : Z) (nd : gmap Z TimingData) (usr : PortRef)
  : gmap Z TimingData :=
  if clocked ctx (cell usr) (port usr) then nd
  else
    let usr_arrival := net_arrival + realized_delay ctx net usr in
    fold_left (forward_port ctx net usr usr_arrival net_length_plus_one)
              (cell_ports ctx (cell usr)) nd.

(** Body of [for (auto net : topographical_order)]. *)
Definition forward_net (ctx : Context) (nd : gmap Z TimingData) (net : IdString)
  : result (gmap Z TimingData) :=
  match nd !! net with
  | None => Err OutOfRange
  | Some d =>
      let net_arrival := max_arrival d in
      let net_length_plus_one := u32 (max_path_length d + 1) in
      let nd1 := <[net := set_min_remaining_budget d (target_period ctx)]> nd in
      Ok (fold_left (forward_user ctx net net_arrival net_length_plus_one)
                    (net_users (nets ctx) net) nd1)
  end.

Definition forward (ctx : Context) (order : list IdString) (nd : gmap Z TimingData)
  : result (gmap Z TimingData) :=
  foldM (forward_net ctx) order nd.

(** ** [Timing::walk_paths]: backward distribution *)

(** What the backward loop updates besides the budgets. *)
Record Backward : Type := {
  b_data : gmap Z TimingData;
  b_min_slack : Z;
  b_histogram : option DelayFrequency
}.

(** [net_data.at(n)]. *)
Definition data_at (nd : gmap Z TimingData) (n : IdString) : result TimingData :=
  match nd !! n with
  | Some d => Ok d
  | None => Err OutOfRange
  end.

(** [budget_override ? 0 : path_budget / net_length_plus_one], the division
    being that of two [delay_t]. *)
Definition budget_share (override : bool) (path_budget net_length_plus_one : Z)
  : result Z :=
  if override then Ok 0
  else if net_length_plus_one =? 0 then Err DivisionByZero
  else Ok (path_budget ÷ net_length_plus_one).

(** The two statements shared by both branches:
    [usr.budget = min(usr.budget, net_delay + budget_share)] and
    [net_min_remaining_budget = min(net_min_remaining_budget,
    path_budget - budget_share)]. *)
Definition distribute (net : IdString) (net_delay path_budget share : Z)
  (usr : PortRef) (nd : gmap Z TimingData) : result (PortRef * gmap Z TimingData) :=
  d ← data_at nd net;
  Ok (set_budget usr (Z.min (budget usr) (net_delay + share)),
      <[net := set_min_remaining_budget d
                 (Z.min (min_remaining_budget d) (path_budget - share))]> nd).

(** Body of [for (auto port : usr.cell->ports)] in the backward loop. *)
Definition backward_port (ctx : Context) (net : IdString) (net_length_plus_one : Z)
  (ub : PortRef * Backward) (kp : IdString * PortInfo) : result (PortRef * Backward) :=
  let usr := ub.1 in
  let b := ub.2 in
  match port_net kp.2 with
  | Some n =>
      if is_out kp.2 then
        match getCellDelay ctx (cell usr) (port usr) kp.1 with
        | Some _ =>
            dn ← data_at (b_data b) n;
            let path_budget := min_remaining_budget dn in
            share ← budget_share (budget_override ctx net usr) path_budget
                       net_length_plus_one;
            '(usr', nd') ← distribute net (realized_delay ctx net usr) path_budget
                              share usr (b_data b);
            Ok (usr', {| b_data := nd'; b_min_slack := b_min_slack b;
                         b_histogram := b_histogram b |})
        | None => Ok ub
        end
      else Ok ub
  | None => Ok ub
  end.

(** Body of [for (auto &usr : net->users)] in the backward loop. *)
Definition backward_user (ctx : Context) (net : IdString) (net_length_plus_one : Z)
  (b : Backward) (usr : PortRef) : result (PortRef * Backward) :=
  if clocked ctx (cell usr) (port usr) then
    d ← data_at (b_data b) net;
    let net_arrival := max_arrival d in
    let path_budget := target_period ctx - (net_arrival + realized_delay ctx net usr) in
    share ← budget_share (budget_override ctx net usr) path_budget net_length_plus_one;
    '(usr', nd') ← distribute net (realized_delay ctx net usr) path_budget share
                      usr (b_data b);
    Ok (usr', {| b_data := nd';
                 b_min_slack := Z.min (b_min_slack b) path_budget;
                 b_histogram := hist_incr (slack_ps ctx path_budget) <$> b_histogram b |})
  else
    foldM (backward_port ctx net net_length_plus_one) (cell_ports ctx (cell usr)) (usr, b).

(** [usr.budget = ...] writes into the net's own [users] vector. *)
Definition store_users (ns : gmap Z NetInfo) (net : IdString) (us : list PortRef)
  : gmap Z NetInfo :=
  match ns !! net with
  | Some ni => <[net := set_users ni us]> ns
  | None => ns
  end.

(** Body of [for (auto net : boost::adaptors::reverse(topographical_order))]. *)
Definition backward_net (ctx : Context) (nb : gmap Z NetInfo * Backward)
  (net : IdString) : result (gmap Z NetInfo * Backward) :=
  d ← data_at (b_data nb.2) net;
  let net_length_plus_one := s32 (u32 (max_path_length d + 1)) in
  '(us, b') ← mapM_state (backward_user ctx net net_length_plus_one) nb.2
                (net_users nb.1 net);
  Ok (store_users nb.1 net us, b').

Definition backward (ctx : Context) (order : list IdString)
  (nb : gmap Z NetInfo * Backward) : result (gmap Z NetInfo * Backward) :=
  foldM (backward_net ctx) (rev order) nb.

(** ** [Timing::walk_paths] and [Timing::assign_budget] *)

Definition set_results (t : Timing) (b : Backward) : Timing :=
  {| net_delays := net_delays t; update := update t;
     min_slack := b_min_slack b; current_path := current_path t;
     crit_path := crit_path t; slack_histogram := b_histogram b |}.

(** The compiled ([#else]) body of [walk_paths].  The value returned by the
    source is the [min_slack] of the resulting [Timing]. *)
Definition walk_paths (ctx : Context) (t : Timing) : result (Context * Timing) :=
  k ← linearize ctx;
  nd ← forward ctx (k_order k) (net_data (seed ctx));
  nb ← backward ctx (k_order k)
         (nets ctx, {| b_data := nd; b_min_slack := min_slack t;
                       b_histogram := slack_histogram t |});
  Ok (set_nets ctx nb.1, set_results t nb.2).

(** The first loop of [Timing::assign_budget]. *)
Definition clear_budgets (ns : gmap Z NetInfo) : gmap Z NetInfo :=
  (fun ni => set_users ni ((fun u => set_budget u delay_max) <$> users ni)) <$> ns.

Definition Timing_assign_budget (ctx : Context) (t : Timing)
  : result (Context * Timing) :=
  walk_paths (set_nets ctx (clear_budgets (nets ctx))) t.

(** ** Entry points *)

(** [assign_budget(ctx, quiet)], logging left out.  The new target frequency
    [1e12 / (default_slack - min_slack)] is read back by the next pass as the
    period [default_slack - min_slack]. *)
Definition assign_budget (ctx : Context) : result Context :=
  let timing := mkTiming ctx (0 <? slack_redist_iter ctx) true None None in
  '(ctx1, timing1) ← Timing_assign_budget ctx timing;
  if auto_freq ctx1 && (0 <? slack_redist_iter ctx1) then
    let default_slack := target_period ctx1 in
    Ok (set_target_period ctx1 (default_slack - min_slack timing1))
  else Ok ctx1.

(** The slack histogram printed by [timing_analysis]: the legend
    [max_freq / bar_width] and, per bin, the two bounds and the number of
    stars of the [log_info] line. *)
Record HistogramReport : Type := {
  legend : Z;
  bars : list (Z * Z * Z)
}.

Definition num_bins : Z := 20.

(** Body of [for (const auto &i : slack_histogram)]; [bin_size] is
    [unsigned], so the subtraction is converted before dividing. *)
Definition fill_bin (min_slack bin_size : Z) (acc : list Z * Z) (i : Z * Z)
  : result (list Z * Z) :=
  if bin_size =? 0 then Err DivisionByZero
  else
    let idx := Z.to_nat (u32 (i.1 - min_slack) / bin_size) in
    match acc.1 !! idx with
    | None => Err IndexOutOfBounds
    | Some bin =>
        let bin' := u32 (bin + i.2) in
        Ok (<[idx := bin']> acc.1, Z.max acc.2 bin')
    end.

Definition bar (min_slack bin_size bar_width max_freq : Z) (i : nat) (bin : Z)
  : Z * Z * Z :=
  (s32 (u32 (min_slack + bin_size * Z.of_nat i)),
   s32 (u32 (min_slack + bin_size * (Z.of_nat i + 1))),
   u32 (bin * bar_width) / max_freq).

(** The block guarded by [print_histogram && slack_histogram.size() > 0]. *)
Definition render_histogram (slack_histogram : DelayFrequency)
  : result HistogramReport :=
  let min_slack := default 0 (fst <$> head slack_histogram) in
  let max_slack := default 0 (fst <$> last slack_histogram) in
  let bin_size := u32 (max_slack - min_slack) / num_bins in
  let bins := replicate (Z.to_nat (num_bins + 1)) 0 in
  '(bins', max_freq) ← foldM (fill_bin min_slack bin_size) slack_histogram (bins, 0);
  let bar_width := Z.min 60 max_freq in
  if bar_width =? 0 then Err DivisionByZero
  else
    Ok {| legend := max_freq / bar_width;
          bars := imap (bar min_slack bin_size bar_width max_freq) bins' |}.

(** What [timing_analysis] reports about the critical path; the text printed
    for each hop is left out. *)
Inductive PathReport : Type :=
  | NotRequested
  | NoTimingPaths
  | CriticalPath (path : list (IdString * nat)).

Record Analysis : Type := {
  a_min_slack : Z;
  a_path : PathReport;
  a_fmax_period : Z;
  a_histogram : option HistogramReport
}.

(** [timing_analysis(ctx, print_histogram, print_path)]. *)
Definition timing_analysis (ctx : Context) (print_histogram print_path : bool)
  : result (Context * Analysis) :=
  let timing :=
    mkTiming ctx true false (if print_path then Some [] else None)
             (if print_histogram then Some [] else None) in
  '(ctx1, timing1) ← walk_paths ctx timing;
  let path :=
    match crit_path timing1 with
    | None => NotRequested
    | Some [] => NoTimingPaths
    | Some p => CriticalPath p
    end in
  let default_slack := target_period ctx1 in
  hist ←
    match slack_histogram timing1 with
    | None => Ok None
    | Some [] => Ok None
    | Some h => r ← render_histogram h; Ok (Some r)
    end;
  Ok (ctx1, {| a_min_slack := min_slack timing1; a_path := path;
               a_fmax_period := default_slack - min_slack timing1;
               a_histogram := hist |}).

(** ** Notions used to state the properties *)

(** The connection [(cell, port)] a [PortRef] designates. *)
Definition userport (u : PortRef) : Z * Z := (cell u, port u).

Definition userports (ctx : Context) (n : IdString) : list (Z * Z) :=
  userport <$> net_users (nets ctx) n.

(** The budget of the [i]-th user of net [n]. *)
Definition budget_at (ctx : Context) (n : IdString) (i : nat) : option Z :=
  budget <$> net_users (nets ctx) n !! i.

(** A user is consistent with the cell it names: the port exists, is bound to
    the net and is not an output. *)
Definition user_bound (ctx : Context) (n : IdString) (u : PortRef) : bool :=
  match assoc (port u) (cell_ports ctx (cell u)) with
  | Some pi => bool_decide (port_net pi = Some n) && negb (is_out pi)
  | None => false
  end.

(** The output ports bound to a net, as (cell, port, net). *)
Definition bound_outputs (ctx : Context) : list (Z * Z * Z) :=
  flat_map (fun kc : IdString * CellInfo =>
              (fun o : IdString * PortInfo * IdString => (kc.1, o.1.1, o.2))
                <$> output_ports (ports kc.2))
           (cells ctx).

(** An output whose net the linearizer seeds: clocked, or on an I/O cell. *)
Definition seeded (ctx : Context) (kc : IdString * CellInfo)
  (o : IdString * PortInfo * IdString) : bool :=
  clocked ctx kc.1 (port_name o.1.2) || (cell_type kc.2 =? id_sb_io ctx).

(** The delay model gives an output whose net is seeded no combinational
    arc from a net-bound input, unless both ports are clocked. *)
Definition seeds_have_no_arc (ctx : Context) (kc : IdString * CellInfo) : Prop :=
  Forall (fun o : IdString * PortInfo * IdString =>
            seeded ctx kc o = true ->
            Forall (fun i : IdString =>
                      clocked ctx kc.1 (port_name o.1.2) = false
                      \/ clocked ctx kc.1 i = false ->
                      getCellDelay ctx kc.1 i o.1.1 = None)
                   (input_ports (ports kc.2)))
         (output_ports (ports kc.2)).

Definition wf_cell (ctx : Context) (kc : IdString * CellInfo) : Prop :=
  NoDup (fst <$> ports kc.2)
  /\ Forall (fun kp : IdString * PortInfo => port_name kp.2 = kp.1) (ports kc.2)
  /\ Z.of_nat (length (ports kc.2)) < 2 ^ 32
  /\ seeds_have_no_arc ctx kc.

Definition wf_net (ctx : Context) (n : IdString) (ni : NetInfo) : Prop :=
  NoDup (userport <$> users ni)
  /\ Forall (fun u => user_bound ctx n u = true) (users ni).

(** Well-formed netlists: keys are unique and agree with the names, every
    net has at most one driving output port, and the [users] of a net are
    distinct input ports bound to it. *)
Definition wf_context (ctx : Context) : Prop :=
  NoDup (fst <$> cells ctx)
  /\ Forall (wf_cell ctx) (cells ctx)
  /\ NoDup (snd <$> bound_outputs ctx)
  /\ map_Forall (wf_net ctx) (nets ctx).

#[global] Instance wf_context_dec (ctx : Context) : Decision (wf_context ctx).
Proof.
  unfold wf_context, wf_net, wf_cell, seeds_have_no_arc. apply _.
Defined.

(** Net [B] is produced combinationally, through one cell, from net [A] via
    an unclocked sink of [A]. *)
Definition comb_edge (ctx : Context) (A B : IdString) : Prop :=
  exists (u : PortRef) (kp : IdString * PortInfo),
    u ∈ net_users (nets ctx) A
    /\ clocked ctx (cell u) (port u) = false
    /\ kp ∈ cell_ports ctx (cell u)
    /\ is_out kp.2 = true
    /\ port_net kp.2 = Some B
    /\ is_Some (getCellDelay ctx (cell u) (port u) kp.1).


Definition precedes (order : list IdString) (A B : IdString) : Prop :=
  exists i j : nat, (i < j)%nat /\ order !! i = Some A /\ order !! j = Some B.

(** The test of the innermost loops: the port is an output bound to a net
    and the cell has a combinational arc to it from the port of [usr]. *)
Definition arc_hit (ctx : Context) (usr : PortRef) (kp : IdString * PortInfo) : bool :=
  bool_decide (is_Some (port_net kp.2)) && is_out kp.2
  && bool_decide (is_Some (getCellDelay ctx (cell usr) (port usr) kp.1)).

(** The sink [usr] has a combinational arc to a net-bound output of its
    cell: the backward loop then updates the budget of an unclocked [usr]. *)
Definition has_arc (ctx : Context) (usr : PortRef) : bool :=
  existsb (arc_hit ctx usr) (cell_ports ctx (cell usr)).

Definition arrival (nd : gmap Z TimingData) (n : IdString) : Z :=
  max_arrival (default TimingData0 (nd !! n)).

(** Target period - arrival at the driver - realized delay, for every
    clocked sink among the users [us] of net [n]. *)
Definition net_slacks (ctx : Context) (nd : gmap Z TimingData) (n : IdString)
  (us : list PortRef) : list Z :=
  omap (fun u : PortRef =>
          if clocked ctx (cell u) (port u)
          then Some (target_period ctx - (arrival nd n + realized_delay ctx n u))
          else None) us.

(** The same, for every clocked sink of the nets in [order]. *)
Definition terminus_slacks (ctx : Context) (nd : gmap Z TimingData)
  (order : list IdString) : list Z :=
  flat_map (fun n => net_slacks ctx nd n (net_users (nets ctx) n)) order.

(** What the backward loop may do to a working record: lower
    [min_remaining_budget]. *)
Definition tightens (d d' : TimingData) : Prop :=
  max_arrival d' = max_arrival d
  /\ max_path_length d' = max_path_length d
  /\ min_remaining_budget d' <= min_remaining_budget d.

Definition data_le (nd nd' : gmap Z TimingData) : Prop :=
  forall m, option_Forall2 tightens (nd !! m) (nd' !! m).

Definition backward_le (b b' : Backward) : Prop :=
  data_le (b_data b) (b_data b') /\ b_min_slack b' <= b_min_slack b.



(** The two mode flags of a [Timing]. *)
Definition set_flags (t : Timing) (nd up : bool) : Timing :=
  {| net_delays := nd; update := up; min_slack := min_slack t;
     current_path := current_path t; crit_path := crit_path t;
     slack_histogram := slack_histogram t |}.

(** Two [PortRef]s for the same connection, whatever their budgets. *)
Definition same_port (u u' : PortRef) : Prop :=
  cell u = cell u' /\ port u = port u'.


Definition path_length (nd : gmap Z TimingData) (n : IdString) : Z :=
  max_path_length (default TimingData0 (nd !! n)).

(** The output port [p] of cell [c] is bound to net [n]. *)
Definition out_net (ctx : Context) (c p n : IdString) : Prop :=
  exists pi, (p, pi) ∈ cell_ports ctx c /\ is_out pi = true /\ port_net pi = Some n.

(** The net-bound inputs of cell [c] with a combinational arc to its port
    [p]: the in-degree of [p] counts them. *)
Definition arc_inputs (ctx : Context) (c p : IdString) : list IdString :=
  filter (fun i => is_Some (getCellDelay ctx c i p)) (input_ports (cell_ports ctx c)).

(** The nets that seed the order, in the order of the seeding loop. *)
Definition seed_nets (ctx : Context) : list IdString :=
  flat_map (fun kc : IdString * CellInfo =>
              snd <$> filter (fun o => seeded ctx kc o = true) (output_ports (ports kc.2)))
           (cells ctx).

(** The state of the work-queue loop after some arcs (cell, input, output)
    have been followed, the set [T]:
    - an in-degree entry counts the arcs into its port not yet followed, and
      an unclocked output with such an arc has an entry;
    - an arc is followed from a user of a net of the order;
    - a net appended by the loop is produced combinationally from a net
      placed before it, and is bound to an output all of whose arcs were
      followed from nets placed before it;
    - the order extends the seeds, has no duplicates, and contains no net
      bound to an output that still has an in-degree entry. *)
Record kahn_inv (ctx : Context) (T : gset (Z * Z * Z)) (k : Kahn) : Prop := {
  inv_count : forall c p v,
    k_fanin k !! (c, p) = Some v ->
    v = Z.of_nat (length (filter (fun i => (c, i, p) ∉ T) (arc_inputs ctx c p)));
  inv_entry : forall c p n i,
    out_net ctx c p n -> clocked ctx c p = false ->
    i ∈ arc_inputs ctx c p -> (c, i, p) ∉ T -> is_Some (k_fanin k !! (c, p));
  inv_followed : forall c i p,
    (c, i, p) ∈ T ->
    exists (j : nat) n, k_order k !! j = Some n /\ (c, i) ∈ userports ctx n;
  inv_placed : forall (j : nat) B,
    (length (seed_nets ctx) <= j)%nat -> k_order k !! j = Some B ->
    (exists (j' : nat) A, (j' < j)%nat /\ k_order k !! j' = Some A /\ comb_edge ctx A B)
    /\ exists c p, out_net ctx c p B
         /\ forall i, i ∈ arc_inputs ctx c p ->
              exists (j' : nat) n, (j' < j)%nat /\ k_order k !! j' = Some n
                                   /\ (c, i) ∈ userports ctx n;
  inv_seeds : exists app, k_order k = seed_nets ctx ++ app;
  inv_nodup : NoDup (k_order k);
  inv_pending : forall c p v n,
    k_fanin k !! (c, p) = Some v -> out_net ctx c p n -> n ∉ k_order k
}.

(** Every net of the order was seeded or is bound to an output port whose
    in-degree entry was created by the seeding loop and has been erased; no
    entry is created by the work-queue loop. *)
Definition order_justified (ctx : Context) (k : Kahn) : Prop :=
  (forall n, n ∈ k_order k ->
     n ∈ topographical_order (seed ctx)
     \/ exists c p, out_net ctx c p n
          /\ is_Some (port_fanin (seed ctx) !! (c, p))
          /\ k_fanin k !! (c, p) = None)
  /\ (forall cp, is_Some (k_fanin k !! cp) -> is_Some (port_fanin (seed ctx) !! cp)).

(** What the seeding loop records for the output [p] of cell [c]: the
    output is not clocked, some net-bound input has an arc to it, and the
    entry is the number of such inputs (as an [unsigned]). *)
Definition counted (ctx : Context) (c p v : Z) : Prop :=
  exists ci o,
    (c, ci) ∈ cells ctx /\ o ∈ output_ports (ports ci) /\ o.1.1 = p
    /\ clocked ctx c (port_name o.1.2) = false
    /\ filter (fun i => is_Some (getCellDelay ctx c i (port_name o.1.2)))
              (input_ports (ports ci)) <> []
    /\ v = u32 (Z.of_nat (length
                 (filter (fun i => is_Some (getCellDelay ctx c i (port_name o.1.2)))
                         (input_ports (ports ci))))).

(** Every recorded path length is between [0] and [j]. *)
Definition path_lengths_le (j : Z) (nd : gmap Z TimingData) : Prop :=
  forall m d, nd !! m = Some d -> 0 <= max_path_length d <= j.

(** The working records that the loops over net [A] look up exist: those of
    the nets produced combinationally from [A]. *)
Definition fed_by (ctx : Context) (nd : gmap Z TimingData) (A : IdString) : Prop :=
  forall B, comb_edge ctx A B -> is_Some (nd !! B).


(** [u'] is the connection [u] with a budget that is not larger. *)
Definition tightened (u u' : PortRef) : Prop :=
  same_port u u' /\ budget u' <= budget u.

(** The nets [ns'] are the nets [ns] with budgets that are not larger:
    same keys, names and drivers, and the same users in the same order. *)
Definition nets_tightened (ns ns' : gmap Z NetInfo) : Prop :=
  forall n,
    option_Forall2
      (fun ni ni' => net_name ni' = net_name ni /\ driver ni' = driver ni
                     /\ Forall2 tightened (users ni) (users ni'))
      (ns !! n) (ns' !! n).



(** The [min_remaining_budget] recorded for net [n]. *)
Definition remaining (nd : gmap Z TimingData) (n : IdString) : Z :=
  min_remaining_budget (default TimingData0 (nd !! n)).

(** The record the seeding loop creates for the net of a seeded output [o]
    of cell [c]: [TimingData{ clkToQ.maxDelay() }] when the output is
    clocked, [TimingData{}] otherwise. *)
Definition seed_record (ctx : Context) (c : IdString)
  (o : IdString * PortInfo * IdString) : TimingData :=
  let clock_domain := getPortClock ctx c (port_name o.1.2) in
  if clock_domain =? 0 then TimingData0
  else TimingData1 (default 0 (getCellDelay ctx c clock_domain (port_name o.1.2))).

(** Arrival at the driving net + realized delay, for every clocked sink of
    the nets in [order]: the delays of the paths that end there. *)
Definition terminus_delays (ctx : Context) (nd : gmap Z TimingData)
  (order : list IdString) : list Z :=
  flat_map (fun n =>
              omap (fun u : PortRef =>
                      if clocked ctx (cell u) (port u)
                      then Some (arrival nd n + realized_delay ctx n u)
                      else None) (net_users (nets ctx) n)) order.

(** The working records without their [min_remaining_budget]. *)
Definition erase_budget (d : TimingData) : TimingData :=
  set_min_remaining_budget d 0.

Definition erase_budgets (nd : gmap Z TimingData) : gmap Z TimingData :=
  erase_budget <$> nd.

Definition erased (r : result (gmap Z TimingData)) : result (gmap Z TimingData) :=
  match r with
  | Ok nd => Ok (erase_budgets nd)
  | Err e => Err e
  end.

(** The distance between the largest and the smallest key of a histogram,
    and the number of its samples. *)
Definition spread (h : DelayFrequency) : Z :=
  default 0 (fst <$> last h) - default 0 (fst <$> head h).

Definition total (l : list Z) : Z := foldr Z.add 0 l.

(** The invariant of [std::map<int, unsigned>]: keys in strictly increasing
    order, here with counts that are positive. *)
Definition well_formed_histogram (h : DelayFrequency) : Prop :=
  StronglySorted Z.lt (fst <$> h) /\ Forall (fun kc : Z * Z => 1 <= kc.2) h.

(** ** [Timing::follow_net] and [Timing::follow_user_port] *)

(** What the two mutually recursive functions update: the budgets stored
    in the nets, and the fields of the [Timing]. *)
Record Walk : Type := {
  w_nets : gmap Z NetInfo;
  w_timing : Timing
}.

Definition set_timing (w : Walk) (t : Timing) : Walk :=
  {| w_nets := w_nets w; w_timing := t |}.

Definition set_current_path (t : Timing) (p : list (IdString * nat)) : Timing :=
  {| net_delays := net_delays t; update := update t; min_slack := min_slack t;
     current_path := p; crit_path := crit_path t;
     slack_histogram := slack_histogram t |}.

(** [if (crit_path) current_path.push_back(&usr)], a pointer to the [i]-th
    user of [net] being the pair [(net, i)], and the matching [pop_back]. *)
Definition push_path (w : Walk) (net : IdString) (i : nat) : Walk :=
  match crit_path (w_timing w) with
  | Some _ => set_timing w (set_current_path (w_timing w)
                              (current_path (w_timing w) ++ [(net, i)]))
  | None => w
  end.

Definition pop_path (w : Walk) : Walk :=
  match crit_path (w_timing w) with
  | Some _ => set_timing w (set_current_path (w_timing w)
                              (removelast (current_path (w_timing w))))
  | None => w
  end.

(** [if (update) usr.budget = std::min(usr.budget, b)] for the [i]-th user
    of [net]. *)
Definition lower_budget (w : Walk) (net : IdString) (i : nat) (b : Z) : Walk :=
  if update (w_timing w) then
    match w_nets w !! net with
    | Some ni =>
        {| w_nets := <[net := set_users ni
                                (alter (fun u => set_budget u (Z.min (budget u) b)) i
                                       (users ni))]> (w_nets w);
           w_timing := w_timing w |}
    | None => w
    end
  else w.

(** The clocked branch of [follow_user_port] after the division: the
    minimum slack and the critical path, then the histogram. *)
Definition end_of_path (ctx : Context) (t : Timing) (slack : Z) : Timing :=
  let t1 :=
    if slack <? min_slack t then
      {| net_delays := net_delays t; update := update t; min_slack := slack;
         current_path := current_path t;
         crit_path := (fun _ => current_path t) <$> crit_path t;
         slack_histogram := slack_histogram t |}
    else t in
  {| net_delays := net_delays t1; update := update t1; min_slack := min_slack t1;
     current_path := current_path t1; crit_path := crit_path t1;
     slack_histogram := hist_incr (slack_ps ctx slack) <$> slack_histogram t1 |}.

(** [Timing::follow_user_port], given the function to call for
    [follow_net].  Both branches start with [value = slack / path_length]. *)
Definition follow_user_port
  (follow_net : Walk -> IdString -> Z -> Z -> result (Z * Walk))
  (ctx : Context) (w : Walk) (user : PortRef) (path_length slack : Z)
  : result (Z * Walk) :=
  if path_length =? 0 then Err DivisionByZero
  else
    let value := slack ÷ path_length in
    if clocked ctx (cell user) (port user) then
      Ok (value, set_timing w (end_of_path ctx (w_timing w) slack))
    else
      foldM (fun (vw : Z * Walk) (kp : IdString * PortInfo) =>
               if is_out kp.2 then
                 match getCellDelay ctx (cell user) (port user) kp.1 with
                 | Some comb_delay =>
                     match port_net kp.2 with
                     | Some net =>
                         '(path_budget, w') ←
                           follow_net vw.2 net path_length (slack - comb_delay);
                         Ok (Z.min vw.1 path_budget, w')
                     | None => Ok vw
                     end
                 | None => Ok vw
                 end
               else Ok vw)
            (cell_ports ctx (cell user)) (value, w).

(** Body of [for (auto &usr : net->users)] in [follow_net], for the [i]-th
    user, given the function to call for [follow_user_port]. *)
Definition follow_net_user
  (follow_user_port : Walk -> PortRef -> Z -> Z -> result (Z * Walk))
  (ctx : Context) (net : IdString) (path_length slack : Z)
  (bw : Z * Walk) (i : nat) : result (Z * Walk) :=
  match net_users (w_nets bw.2) net !! i with
  | None => Ok bw
  | Some usr =>
      let delay :=
        if net_delays (w_timing bw.2)
        then getNetinfoRouteDelay ctx net (cell usr) (port usr) else 0 in
      let w1 := push_path bw.2 net i in
      match getBudgetOverride ctx net (cell usr) (port usr) with
      | Some budget =>
          let w2 := lower_budget w1 net i budget in
          '(budget', w3) ← follow_user_port w2 usr path_length (slack - budget);
          Ok (Z.min bw.1 budget', pop_path w3)
      | None =>
          '(budget', w3) ← follow_user_port w1 usr (path_length + 1) (slack - delay);
          Ok (Z.min bw.1 budget', pop_path (lower_budget w3 net i (delay + budget')))
      end
  end.

(** [Timing::follow_net]; the recursion through [follow_user_port] is
    bounded by [fuel] nested calls. *)
Fixpoint follow_net (fuel : nat) (ctx : Context) (w : Walk) (net : IdString)
  (path_length slack : Z) {struct fuel} : result (Z * Walk) :=
  match fuel with
  | O => Err OutOfFuel
  | S fuel' =>
      if path_length + 1 =? 0 then Err DivisionByZero
      else
        let default_budget := slack ÷ (path_length + 1) in
        foldM (follow_net_user (follow_user_port (follow_net fuel' ctx) ctx)
                               ctx net path_length slack)
              (seq 0 (length (net_users (w_nets w) net)))
              (default_budget, w)
  end.

(** What every step of the walk keeps: the netlist but for budgets, which
    only decrease and do not change at all without [update]; the three
    flags; and a minimum slack that only decreases. *)
Definition walk_le (w w' : Walk) : Prop :=
  nets_tightened (w_nets w) (w_nets w')
  /\ (update (w_timing w) = false -> w_nets w' = w_nets w)
  /\ net_delays (w_timing w') = net_delays (w_timing w)
  /\ update (w_timing w') = update (w_timing w)
  /\ (is_Some (crit_path (w_timing w')) <-> is_Some (crit_path (w_timing w)))
  /\ min_slack (w_timing w') <= min_slack (w_timing w).

(** The walk restores [current_path]; it leaves the minimum slack and the
    critical path as they are, or lowers the minimum slack and, when a
    critical path is requested, stores a path that extends [current_path]
    (by at least one connection when [strict]). *)
Definition path_kept (strict : bool) (w w' : Walk) : Prop :=
  current_path (w_timing w') = current_path (w_timing w)
  /\ (crit_path (w_timing w') = None <-> crit_path (w_timing w) = None)
  /\ ((min_slack (w_timing w') = min_slack (w_timing w)
       /\ crit_path (w_timing w') = crit_path (w_timing w))
      \/ (min_slack (w_timing w') < min_slack (w_timing w)
          /\ forall p0, crit_path (w_timing w) = Some p0 ->
                exists q, (strict = true -> q <> [])
                          /\ crit_path (w_timing w')
                             = Some (current_path (w_timing w) ++ q))).

(** The same netlist with another route delay function. *)
Definition set_route_delay (ctx : Context) (f : IdString -> IdString -> IdString -> Z)
  : Context :=
  {| cells := cells ctx; nets := nets ctx; target_period := target_period ctx;
     slack_redist_iter := slack_redist_iter ctx; auto_freq := auto_freq ctx;
     id_sb_io := id_sb_io ctx; getPortClock := getPortClock ctx;
     getCellDelay := getCellDelay ctx;
     getNetinfoRouteDelay := f;
     getBudgetOverride := getBudgetOverride ctx; slack_ps := slack_ps ctx |}.

(** A budget lowered to a candidate value, if there is one. *)
Definition lowered (c : option Z) (u : PortRef) : PortRef :=
  match c with
  | Some x => set_budget u (Z.min (budget u) x)
  | None => u
  end.

(** A net whose users are lowered to the candidates [cs]. *)
Definition relowered (cs : list (option Z)) (ni : NetInfo) : NetInfo :=
  set_users ni (zip_with lowered cs (users ni)).

(** The nets after some steps of the backward loop, in two runs that start
    from nets with the same connections: the same candidates [cs]. *)
Definition lowered_alike (nsa nsb nsa' nsb' : gmap Z NetInfo) : Prop :=
  forall n, exists cs,
    length cs = length (net_users nsa n)
    /\ nsa' !! n = relowered cs <$> nsa !! n
    /\ nsb' !! n = relowered cs <$> nsb !! n.




(** The arc [a] = (cell, input, output) leaves an unclocked user of a net
    of [visited]: the work-queue loop follows it when it pops that net. *)
Definition followed_by (ctx : Context) (visited : list IdString) (a : Z * Z * Z)
  : Prop :=
  exists m (u : PortRef) (kp : IdString * PortInfo),
    m ∈ visited /\ u ∈ net_users (nets ctx) m
    /\ clocked ctx (cell u) (port u) = false
    /\ kp ∈ cell_ports ctx (cell u) /\ arc_hit ctx u kp = true
    /\ a = (cell u, port u, kp.1).

(** No in-degree entry is zero. *)
Definition fanin_positive (pf : gmap (Z * Z) Z) : Prop :=
  forall cp v, pf !! cp = Some v -> v <> 0.

(** The net of an output whose in-degree entry was erased is in the order. *)
Definition erased_placed (ctx : Context) (k : Kahn) : Prop :=
  forall c p n,
    out_net ctx c p n -> is_Some (port_fanin (seed ctx) !! (c, p)) ->
    k_fanin k !! (c, p) = None -> n ∈ k_order k.

(** ** Example netlists *)

Module Examples.

Definition port_in (name net : Z) : IdString * PortInfo :=
  (name, {| port_name := name; port_net := Some net; port_type := PORT_IN |}).
Definition port_out (name net : Z) : IdString * PortInfo :=
  (name, {| port_name := name; port_net := Some net; port_type := PORT_OUT |}).
Definition mk_cell (name type : Z) (ps : list (IdString * PortInfo))
  : IdString * CellInfo :=
  (name, {| cell_name := name; cell_type := type; ports := ps |}).
Definition usr (c p b : Z) : PortRef := {| cell := c; port := p; budget := b |}.
Definition mk_net (name : Z) (d : PortRef) (us : list PortRef) : IdString * NetInfo :=
  (name, {| net_name := name; driver := d; users := us |}).

Fixpoint lookup3 {A : Type} (k : Z * Z * Z) (l : list (Z * Z * Z * A)) : option A :=
  match l with
  | [] => None
  | (k', v) :: l' => if bool_decide (k = k') then Some v else lookup3 k l'
  end.

(** Port names: 1 = D, 2 = Q, 3 = CLK, 4 = I, 5 = O, 6 = I2.  Cell types:
    1 = flip-flop (D and Q clocked on CLK, arc CLK -> Q of delay 0),
    2 = combinational cell, 9 = SB_IO.  Combinational arcs, route delays and
    overrides are listed explicitly. *)
Definition netlist (cs : list (IdString * CellInfo)) (ns : list (IdString * NetInfo))
  (period iter : Z) (auto : bool) (arcs routes overrides : list (Z * Z * Z * Z))
  : Context :=
  {| cells := cs;
     nets := list_to_map ns;
     target_period := period;
     slack_redist_iter := iter;
     auto_freq := auto;
     id_sb_io := 9;
     getPortClock := fun c p =>
       match assoc c cs with
       | Some ci => if (cell_type ci =? 1) && ((p =? 1) || (p =? 2)) then 3 else 0
       | None => 0
       end;
     getCellDelay := fun c f t =>
       match assoc c cs with
       | Some ci =>
           if (cell_type ci =? 1) && (f =? 3) && (t =? 2) then Some 0
           else lookup3 (c, f, t) arcs
       | None => None
       end;
     getNetinfoRouteDelay := fun n c p => default 0 (lookup3 (n, c, p) routes);
     getBudgetOverride := fun n c p => lookup3 (n, c, p) overrides;
     slack_ps := fun d => d |}.

(** Two flip-flops (cells 10 and 12) around one buffer (cell 11):
    net 100 from 10.Q to 11.I, net 101 from 11.O to 12.D.  The parameters are
    the two route delays, the two stored budgets, [slack_redist_iter],
    [auto_freq] and the target period. *)
Definition pipeline (route100 route101 b100 b101 iter : Z) (auto : bool) (period : Z)
  : Context :=
  netlist [ mk_cell 10 1 [port_out 2 100];
            mk_cell 11 2 [port_in 4 100; port_out 5 101];
            mk_cell 12 1 [port_in 1 101] ]
          [ mk_net 100 (usr 10 2 0) [usr 11 4 b100];
            mk_net 101 (usr 11 5 0) [usr 12 1 b101] ]
          period iter auto
          [ ((11, 4, 5), 2) ]
          [ ((100, 11, 4), route100); ((101, 12, 1), route101) ]
          [].

(** A combinational loop: cell 11 computes net 101 from nets 100 and 102,
    and the buffer 13 computes net 102 from net 101. *)
Definition feedback : Context :=
  netlist [ mk_cell 10 1 [port_out 2 100];
            mk_cell 11 2 [port_in 4 100; port_in 6 102; port_out 5 101];
            mk_cell 13 2 [port_in 4 101; port_out 5 102];
            mk_cell 12 1 [port_in 1 101] ]
          [ mk_net 100 (usr 10 2 0) [usr 11 4 0];
            mk_net 101 (usr 11 5 0) [usr 13 4 0; usr 12 1 0];
            mk_net 102 (usr 13 5 0) [usr 11 6 0] ]
          10 0 false
          [ ((11, 4, 5), 1); ((11, 6, 5), 1); ((13, 4, 5), 1) ]
          [] [].


(** Overrides: net 100 reaches the buffer 11 with the pinned delay 5; net
    101 reaches the register input 12.D with the pinned delay 2 and the
    input 14.I, from which cell 14 has no arc, with the pinned delay 0. *)
Definition pinned : Context :=
  netlist [ mk_cell 10 1 [port_out 2 100];
            mk_cell 11 2 [port_in 4 100; port_out 5 101];
            mk_cell 12 1 [port_in 1 101];
            mk_cell 14 2 [port_in 4 101] ]
          [ mk_net 100 (usr 10 2 0) [usr 11 4 0];
            mk_net 101 (usr 11 5 0) [usr 12 1 0; usr 14 4 0] ]
          20 1 false
          [ ((11, 4, 5), 1) ]
          [ ((100, 11, 4), 3); ((101, 12, 1), 4); ((101, 14, 4), 6) ]
          [ ((100, 11, 4), 5); ((101, 12, 1), 2); ((101, 14, 4), 0) ].

(** The histogram of a list of slack samples. *)
Definition histogram_of (samples : list Z) : DelayFrequency :=
  fold_left (fun h k => hist_incr k h) samples [].

End Examples.

(** * Properties *)

(** ** Evaluation of the entry points on the examples *)

Ltac run := vm_compute; reflexivity.

(** C9.  Rendering divides by zero as soon as the samples span less than 20
    ps (the samples 1,1,2,5,5,5,9 of the specification do), and indexes past
    the 21 bins for a span of 39 ps; a design with one endpoint makes
    [timing_analysis] with [print_histogram] divide by zero. *)
Theorem C9_histogram_rendering_unsafe :
  render_histogram (Examples.histogram_of [1; 1; 2; 5; 5; 5; 9]) = Err DivisionByZero
  /\ render_histogram (Examples.histogram_of [7]) = Err DivisionByZero
  /\ render_histogram (Examples.histogram_of [0; 39]) = Err IndexOutOfBounds
  /\ timing_analysis (Examples.pipeline 4 0 100 100 1 false 10) true false
     = Err DivisionByZero.
Proof. repeat split; run. Qed.


(** ** The result monad *)

Lemma bind_Ok {A B : Type} (m : result A) (f : A -> result B) (b : B) :
  m ≫= f = Ok b -> exists a, m = Ok a /\ f a = Ok b.
Proof. destruct m; simpl; [eauto | discriminate]. Qed.

Ltac inv_bind H :=
  let a := fresh "r" in
  let Ha := fresh "H" a in
  apply bind_Ok in H as (a & Ha & H).

Lemma foldM_app {S B : Type} (f : S -> B -> result S) (l1 l2 : list B) (s : S) :
  foldM f (l1 ++ l2) s = foldM f l1 s ≫= foldM f l2.
Proof.
  revert s. induction l1 as [|x l1 IH]; intros s; simpl; [reflexivity |].
  destruct (f s x); simpl; [apply IH | reflexivity].
Qed.

(** A property kept by every step of a loop holds when the loop ends. *)
Lemma foldM_invariant {S B : Type} (P : S -> Prop) (f : S -> B -> result S)
  (l : list B) (s s' : S) :
  (forall s1 x s2, x ∈ l -> P s1 -> f s1 x = Ok s2 -> P s2) ->
  P s -> foldM f l s = Ok s' -> P s'.
Proof.
  revert s. induction l as [|x l IH]; intros s Hstep Hs Hrun; simpl in Hrun.
  - by inversion Hrun; subst.
  - inv_bind Hrun. eapply IH; [| | exact Hrun].
    + intros s1 y s2 Hy. apply Hstep. by right.
    + eapply Hstep; [by left | exact Hs | exact Hr].
Qed.

Lemma fold_left_invariant {S B : Type} (P : S -> Prop) (f : S -> B -> S)
  (l : list B) (s : S) :
  (forall s1 x, x ∈ l -> P s1 -> P (f s1 x)) -> P s -> P (fold_left f l s).
Proof.
  revert s. induction l as [|x l IH]; intros s Hstep Hs; simpl; [done |].
  apply IH; [intros s1 y Hy; apply Hstep; by right |].
  apply Hstep; [by left | done].
Qed.

Lemma mapM_state_Forall2 {S A : Type} (R : A -> A -> Prop)
  (f : S -> A -> result (A * S)) (s : S) (l l' : list A) (s' : S) :
  (forall s0 x x' s1, f s0 x = Ok (x', s1) -> R x x') ->
  mapM_state f s l = Ok (l', s') -> Forall2 R l l'.
Proof.
  intros Hf. revert s l' s'.
  induction l as [|x l IH]; intros s l' s' Hrun; simpl in Hrun.
  - inversion Hrun; subst. constructor.
  - inv_bind Hrun. destruct r as [x' s1]. inv_bind Hrun. destruct r as [l'' s2].
    inversion Hrun; subst. constructor; eauto.
Qed.

(** ** The backward loop writes budgets only *)

Lemma same_port_refl u : same_port u u.
Proof. by split. Qed.

Lemma same_port_trans u1 u2 u3 : same_port u1 u2 -> same_port u2 u3 -> same_port u1 u3.
Proof. intros [??] [??]. split; congruence. Qed.

Lemma same_port_set_budget u b : same_port u (set_budget u b).
Proof. by split. Qed.

Lemma same_port_clear u u' b : same_port u u' -> set_budget u b = set_budget u' b.
Proof. intros [Hc Hp]. unfold set_budget. by rewrite Hc, Hp. Qed.

Lemma same_port_realized ctx net u u' :
  same_port u u' -> realized_delay ctx net u = realized_delay ctx net u'.
Proof. intros [Hc Hp]. unfold realized_delay. by rewrite Hc, Hp. Qed.

Lemma same_port_override ctx net u u' :
  same_port u u' -> budget_override ctx net u = budget_override ctx net u'.
Proof. intros [Hc Hp]. unfold budget_override. by rewrite Hc, Hp. Qed.

Lemma distribute_Ok net net_delay path_budget share usr nd usr' nd' :
  distribute net net_delay path_budget share usr nd = Ok (usr', nd') ->
  exists d, nd !! net = Some d
    /\ usr' = set_budget usr (Z.min (budget usr) (net_delay + share))
    /\ nd' = <[net := set_min_remaining_budget d
                        (Z.min (min_remaining_budget d) (path_budget - share))]> nd.
Proof.
  unfold distribute, data_at. intros H. destruct (nd !! net) as [d|]; simpl in H.
  - inversion H; subst. eauto.
  - discriminate.
Qed.

Lemma backward_port_same_port ctx net l ub kp ub' :
  backward_port ctx net l ub kp = Ok ub' -> same_port ub.1 ub'.1.
Proof.
  unfold backward_port. intros H.
  destruct (port_net kp.2); [| inversion H; apply same_port_refl].
  destruct (is_out kp.2); [| inversion H; apply same_port_refl].
  destruct (getCellDelay _ _ _ _); [| inversion H; apply same_port_refl].
  inv_bind H. inv_bind H. inv_bind H. destruct r1 as [u' nd'].
  apply distribute_Ok in Hr1 as (d & _ & -> & _).
  inversion H; subst. apply same_port_set_budget.
Qed.

Lemma backward_user_same_port ctx net l b usr usr' b' :
  backward_user ctx net l b usr = Ok (usr', b') -> same_port usr usr'.
Proof.
  unfold backward_user. intros H. destruct (clocked _ _ _).
  - inv_bind H. inv_bind H. inv_bind H. destruct r1 as [u' nd'].
    apply distribute_Ok in Hr1 as (d & _ & -> & _).
    inversion H; subst. apply same_port_set_budget.
  - change usr with (usr, b).1. change usr' with (usr', b').1.
    revert H. apply foldM_invariant with (P := fun ub => same_port (usr, b).1 ub.1).
    + intros s1 x s2 _ Hs1 Hstep. eapply same_port_trans; [exact Hs1 |].
      by eapply backward_port_same_port.
    + apply same_port_refl.
Qed.

Lemma same_port_clear_list (us us' : list PortRef) b :
  Forall2 same_port us us' ->
  (fun u => set_budget u b) <$> us = (fun u => set_budget u b) <$> us'.
Proof.
  induction 1 as [|u u' us us' Hu _ IH]; simpl; [reflexivity |].
  f_equal; [by apply same_port_clear | exact IH].
Qed.

Lemma clear_budgets_store ns net us' :
  Forall2 same_port (net_users ns net) us' ->
  clear_budgets (store_users ns net us') = clear_budgets ns.
Proof.
  unfold store_users, net_users, clear_budgets. intros HF.
  destruct (ns !! net) as [ni|] eqn:Hni; [| reflexivity].
  rewrite fmap_insert. apply insert_id. rewrite lookup_fmap, Hni. simpl.
  f_equal. unfold set_users. simpl. f_equal.
  by apply same_port_clear_list.
Qed.

Lemma backward_net_clear ctx nb net nb' :
  backward_net ctx nb net = Ok nb' -> clear_budgets nb'.1 = clear_budgets nb.1.
Proof.
  unfold backward_net. intros H. inv_bind H. inv_bind H. destruct r0 as [us b'].
  inversion H; subst. simpl. apply clear_budgets_store.
  eapply mapM_state_Forall2; [| exact Hr0].
  intros s0 x x' s1. apply backward_user_same_port.
Qed.

Lemma backward_clear ctx order nb nb' :
  backward ctx order nb = Ok nb' -> clear_budgets nb'.1 = clear_budgets nb.1.
Proof.
  unfold backward.
  apply foldM_invariant with (P := fun s => clear_budgets s.1 = clear_budgets nb.1);
    [| reflexivity].
  intros s1 x s2 _ Hs1 Hstep. rewrite <- Hs1. by eapply backward_net_clear.
Qed.

Lemma clear_budgets_idemp ns : clear_budgets (clear_budgets ns) = clear_budgets ns.
Proof.
  unfold clear_budgets. rewrite <- map_fmap_compose. apply map_fmap_ext.
  intros n ni _. unfold compose, set_users. simpl. f_equal.
  rewrite <- list_fmap_compose. by apply list_fmap_ext.
Qed.

Lemma walk_paths_Ok ctx t ctx' t' :
  walk_paths ctx t = Ok (ctx', t') ->
  exists k nd nb,
    linearize ctx = Ok k
    /\ forward ctx (k_order k) (net_data (seed ctx)) = Ok nd
    /\ backward ctx (k_order k)
         (nets ctx, {| b_data := nd; b_min_slack := min_slack t;
                       b_histogram := slack_histogram t |}) = Ok nb
    /\ ctx' = set_nets ctx nb.1 /\ t' = set_results t nb.2.
Proof.
  unfold walk_paths. intros H. inv_bind H. inv_bind H. inv_bind H.
  inversion H; subst. eauto 10.
Qed.

Lemma walk_paths_clear ctx t ctx' t' :
  walk_paths ctx t = Ok (ctx', t') ->
  ctx' = set_nets ctx (nets ctx')
  /\ clear_budgets (nets ctx') = clear_budgets (nets ctx).
Proof.
  intros H. apply walk_paths_Ok in H as (k & nd & nb & _ & _ & Hb & -> & _).
  split; [reflexivity |]. simpl. by apply backward_clear in Hb.
Qed.

(** The flags [net_delays] and [update] have no effect on [walk_paths]. *)
Lemma walk_paths_flags ctx t nd up :
  walk_paths ctx (set_flags t nd up) =
  match walk_paths ctx t with
  | Ok (ctx', t') => Ok (ctx', set_flags t' nd up)
  | Err e => Err e
  end.
Proof.
  unfold walk_paths. destruct (linearize ctx) as [k|]; simpl; [| reflexivity].
  destruct (forward _ _ _) as [fd|]; simpl; [| reflexivity].
  destruct (backward _ _ _) as [nb|]; simpl; reflexivity.
Qed.

Lemma walk_paths_crit_path ctx t ctx' t' :
  walk_paths ctx t = Ok (ctx', t') -> crit_path t' = crit_path t.
Proof.
  intros H. apply walk_paths_Ok in H as (k & nd & nb & _ & _ & _ & _ & ->).
  reflexivity.
Qed.

(** C1.  [timing_analysis] writes budgets: the [update] flag has no effect
    on [walk_paths]; on the pipeline with stored budgets 100 and 100, route
    delays 4 and 0 and period 10, analysis mode leaves the budgets 6 and 2
    behind; and after a budgeting pass that retargets the period from 10 to
    6, analysis mode lowers the budgets 6 and 2 just assigned to 4 and 0. *)
Theorem C1_analysis_overwrites_budgets :
  (forall ctx t up,
      walk_paths ctx (set_flags t (net_delays t) up) =
      match walk_paths ctx t with
      | Ok (ctx', t') => Ok (ctx', set_flags t' (net_delays t) up)
      | Err e => Err e
      end)
  /\ (let ctx := Examples.pipeline 4 0 100 100 1 false 10 in
      budget_at ctx 100 0 = Some 100 /\ budget_at ctx 101 0 = Some 100
      /\ exists ctx' a,
           timing_analysis ctx false false = Ok (ctx', a)
           /\ budget_at ctx' 100 0 = Some 6 /\ budget_at ctx' 101 0 = Some 2)
  /\ (let ctx := Examples.pipeline 4 0 0 0 1 true 10 in
      exists ctx1 ctx2 a,
        assign_budget ctx = Ok ctx1
        /\ budget_at ctx1 100 0 = Some 6 /\ budget_at ctx1 101 0 = Some 2
        /\ timing_analysis ctx1 false false = Ok (ctx2, a)
        /\ budget_at ctx2 100 0 = Some 4 /\ budget_at ctx2 101 0 = Some 0).
Proof.
  split; [intros ctx t up; apply walk_paths_flags |]. split.
  - split; [run | split; [run |]].
    eexists _, _. split; [run | split; run].
  - eexists _, _, _. split; [run |]. split; [run |]. split; [run |].
    split; [run |]. split; run.
Qed.

(** C3.  Budgeting mode uses the route delays although no routing iteration
    has happened: the [net_delays] flag has no effect on [walk_paths]; with
    [slack_redist_iter = 0] the pipeline whose first connection has route
    delay 4 gets the budgets 6 and 2, whereas zero route delays give 4 and
    4. *)
Theorem C3_route_delays_used_before_routing :
  (forall ctx t nd,
      walk_paths ctx (set_flags t nd (update t)) =
      match walk_paths ctx t with
      | Ok (ctx', t') => Ok (ctx', set_flags t' nd (update t))
      | Err e => Err e
      end)
  /\ (let routed := Examples.pipeline 4 0 0 0 0 false 10 in
      let unrouted := Examples.pipeline 0 0 0 0 0 false 10 in
      slack_redist_iter routed = 0
      /\ (exists ctx', assign_budget routed = Ok ctx'
            /\ budget_at ctx' 100 0 = Some 6 /\ budget_at ctx' 101 0 = Some 2)
      /\ (exists ctx', assign_budget unrouted = Ok ctx'
            /\ budget_at ctx' 100 0 = Some 4 /\ budget_at ctx' 101 0 = Some 4)).
Proof.
  split; [intros ctx t nd; apply walk_paths_flags |].
  split; [run |].
  split; eexists; (split; [run | split; run]).
Qed.

(** C4.  The critical path is never captured: whenever [timing_analysis] is
    asked for it, the report is "no timing paths", also on the pipeline,
    whose register-to-register path has slack 4. *)
Theorem C4_critical_path_never_captured :
  (forall ctx print_histogram,
      match timing_analysis ctx print_histogram true with
      | Ok (_, a) => a_path a = NoTimingPaths
      | Err _ => True
      end)
  /\ (let ctx := Examples.pipeline 4 0 100 100 1 false 10 in
      terminus_slacks ctx {[ 100 := TimingData1 0; 101 := TimingData1 6 ]} [100; 101] = [4]
      /\ exists ctx' a, timing_analysis ctx false true = Ok (ctx', a)
           /\ a_min_slack a = 4 /\ a_path a = NoTimingPaths).
Proof.
  split.
  - intros ctx ph. unfold timing_analysis.
    destruct (walk_paths _ _) as [[ctx1 t1]|] eqn:Hw; simpl; [| done].
    apply walk_paths_crit_path in Hw. simpl in Hw. rewrite Hw.
    destruct (match slack_histogram t1 with
              | Some (_ :: _ as h) => _ | _ => _ end); simpl; done.
  - split; [run |]. eexists _, _. split; [run |]. split; run.
Qed.

(** ** The backward loop: working records and minimum slack *)

Lemma tightens_refl d : tightens d d.
Proof. unfold tightens. lia. Qed.

Lemma tightens_trans d1 d2 d3 : tightens d1 d2 -> tightens d2 d3 -> tightens d1 d3.
Proof. unfold tightens. intros (? & ? & ?) (? & ? & ?). repeat split; lia. Qed.

Lemma data_le_refl nd : data_le nd nd.
Proof. intros m. destruct (nd !! m); constructor. apply tightens_refl. Qed.

Lemma data_le_trans nd1 nd2 nd3 : data_le nd1 nd2 -> data_le nd2 nd3 -> data_le nd1 nd3.
Proof.
  intros H12 H23 m. specialize (H12 m). specialize (H23 m).
  destruct H12 as [d1 d2 H12|]; inversion H23; subst; constructor.
  by eapply tightens_trans.
Qed.

Lemma data_le_insert nd net d d' :
  nd !! net = Some d -> tightens d d' -> data_le nd (<[net := d']> nd).
Proof.
  intros Hd Ht m. destruct (decide (net = m)) as [<-|Hne].
  - rewrite lookup_insert_eq, Hd. by constructor.
  - rewrite lookup_insert_ne by done. apply data_le_refl.
Qed.


Lemma data_le_arrival nd nd' m : data_le nd nd' -> arrival nd' m = arrival nd m.
Proof.
  intros H. unfold arrival. specialize (H m).
  destruct H as [d d' (Ha & _)|]; simpl; [exact Ha | reflexivity].
Qed.

Lemma backward_le_refl b : backward_le b b.
Proof. split; [apply data_le_refl | lia]. Qed.

Lemma backward_le_trans b1 b2 b3 :
  backward_le b1 b2 -> backward_le b2 b3 -> backward_le b1 b3.
Proof. intros [??] [??]. split; [by eapply data_le_trans | lia]. Qed.

Lemma distribute_le net net_delay path_budget share usr nd usr' nd' :
  distribute net net_delay path_budget share usr nd = Ok (usr', nd') ->
  data_le nd nd'.
Proof.
  intros H. apply distribute_Ok in H as (d & Hd & _ & ->).
  eapply data_le_insert; [exact Hd |]. unfold tightens; simpl. lia.
Qed.

Lemma backward_port_le ctx net l ub kp ub' :
  backward_port ctx net l ub kp = Ok ub' ->
  data_le (b_data ub.2) (b_data ub'.2)
  /\ b_min_slack ub'.2 = b_min_slack ub.2
  /\ b_histogram ub'.2 = b_histogram ub.2.
Proof.
  unfold backward_port. intros H.
  destruct (port_net kp.2); [| inversion H; split; [apply data_le_refl | done]].
  destruct (is_out kp.2); [| inversion H; split; [apply data_le_refl | done]].
  destruct (getCellDelay _ _ _ _); [| inversion H; split; [apply data_le_refl | done]].
  inv_bind H. inv_bind H. inv_bind H. destruct r1 as [u' nd'].
  apply distribute_le in Hr1. inversion H; subst. simpl. done.
Qed.

Lemma backward_ports_le ctx net l ps ub ub' :
  foldM (backward_port ctx net l) ps ub = Ok ub' ->
  data_le (b_data ub.2) (b_data ub'.2)
  /\ b_min_slack ub'.2 = b_min_slack ub.2
  /\ b_histogram ub'.2 = b_histogram ub.2.
Proof.
  apply foldM_invariant
    with (P := fun s => data_le (b_data ub.2) (b_data s.2)
                        /\ b_min_slack s.2 = b_min_slack ub.2
                        /\ b_histogram s.2 = b_histogram ub.2).
  - intros s1 x s2 _ (H1 & H2 & H3) Hstep.
    apply backward_port_le in Hstep as (H1' & H2' & H3').
    split; [by eapply data_le_trans | split; congruence].
  - split; [apply data_le_refl | done].
Qed.

(** What the backward loop does at a clocked sink. *)
Lemma backward_user_clocked ctx net l b usr usr' b' :
  clocked ctx (cell usr) (port usr) = true ->
  backward_user ctx net l b usr = Ok (usr', b') ->
  exists d share,
    let path_budget :=
      target_period ctx - (max_arrival d + realized_delay ctx net usr) in
    b_data b !! net = Some d
    /\ budget_share (budget_override ctx net usr) path_budget l = Ok share
    /\ usr' = set_budget usr
                (Z.min (budget usr) (realized_delay ctx net usr + share))
    /\ b_data b' = <[net := set_min_remaining_budget d
                               (Z.min (min_remaining_budget d) (path_budget - share))]>
                      (b_data b)
    /\ b_min_slack b' = Z.min (b_min_slack b) path_budget
    /\ b_histogram b' = hist_incr (slack_ps ctx path_budget) <$> b_histogram b.
Proof.
  unfold backward_user. intros -> H.
  inv_bind H. inv_bind H. inv_bind H. destruct r1 as [u' nd'].
  apply distribute_Ok in Hr1 as (d & Hd & -> & ->).
  unfold data_at in Hr. rewrite Hd in Hr. inversion Hr; subst r.
  inversion H; subst. exists d, r0. simpl. done.
Qed.

Lemma backward_user_le ctx net l b usr usr' b' :
  backward_user ctx net l b usr = Ok (usr', b') -> backward_le b b'.
Proof.
  intros H. destruct (clocked ctx (cell usr) (port usr)) eqn:Hc.
  - apply (backward_user_clocked _ _ _ _ _ _ _ Hc) in H
      as (d & share & Hd & _ & _ & Hnd & Hms & _).
    split.
    + rewrite Hnd. eapply data_le_insert; [exact Hd |]. unfold tightens; simpl. lia.
    + rewrite Hms. lia.
  - unfold backward_user in H. rewrite Hc in H.
    apply backward_ports_le in H as (H1 & H2 & _). simpl in *.
    split; [exact H1 | lia].
Qed.

Lemma net_slacks_data_le ctx nd nd' n us :
  data_le nd nd' -> net_slacks ctx nd' n us = net_slacks ctx nd n us.
Proof.
  intros H. unfold net_slacks. by rewrite (data_le_arrival _ _ _ H).
Qed.

Lemma net_slacks_same_port ctx nd n us us' :
  Forall2 same_port us us' -> net_slacks ctx nd n us = net_slacks ctx nd n us'.
Proof.
  unfold net_slacks. induction 1 as [|u u' us us' Hu _ IH]; [done |].
  cbn [omap list_omap]. rewrite IH, (same_port_realized _ _ _ _ Hu).
  destruct Hu as [-> ->]. done.
Qed.

Lemma backward_user_min_slack ctx net l b usr usr' b' :
  backward_user ctx net l b usr = Ok (usr', b') ->
  b_min_slack b' = fold_left Z.min (net_slacks ctx (b_data b) net [usr]) (b_min_slack b).
Proof.
  intros H. unfold net_slacks. simpl.
  destruct (clocked ctx (cell usr) (port usr)) eqn:Hc; simpl.
  - apply (backward_user_clocked _ _ _ _ _ _ _ Hc) in H
      as (d & share & Hd & _ & _ & _ & Hms & _).
    unfold arrival. by rewrite Hd.
  - unfold backward_user in H. rewrite Hc in H.
    by apply backward_ports_le in H as (_ & H2 & _).
Qed.

Lemma backward_users_min_slack ctx net l us b us' b' :
  mapM_state (backward_user ctx net l) b us = Ok (us', b') ->
  backward_le b b'
  /\ b_min_slack b' = fold_left Z.min (net_slacks ctx (b_data b) net us) (b_min_slack b).
Proof.
  revert b us' b'. induction us as [|u us IH]; intros b us' b' H; simpl in H.
  - inversion H; subst. split; [apply backward_le_refl | done].
  - inv_bind H. destruct r as [u1 b1]. inv_bind H. destruct r as [us1 b2].
    inversion H; subst.
    pose proof (backward_user_le _ _ _ _ _ _ _ Hr) as Hle.
    pose proof (backward_user_min_slack _ _ _ _ _ _ _ Hr) as Hms.
    apply IH in Hr0 as [Hle' Hms'].
    split; [by eapply backward_le_trans |].
    rewrite Hms', Hms, (net_slacks_data_le _ _ _ _ _ (proj1 Hle)).
    change (u :: us) with ([u] ++ us). unfold net_slacks at 3.
    rewrite omap_app, fold_left_app. reflexivity.
Qed.

Lemma same_port_of_clear (us us' : list PortRef) b :
  (fun u => set_budget u b) <$> us = (fun u => set_budget u b) <$> us' ->
  Forall2 same_port us us'.
Proof.
  revert us'. induction us as [|u us IH]; intros [|u' us'] H; simpl in H;
    try discriminate; constructor.
  - inversion H. by split.
  - apply IH. by inversion H.
Qed.

Lemma clear_budgets_users ns ns' n :
  clear_budgets ns = clear_budgets ns' ->
  Forall2 same_port (net_users ns n) (net_users ns' n).
Proof.
  intros H. apply (f_equal (fun m => m !! n)) in H.
  unfold clear_budgets in H. rewrite !lookup_fmap in H. unfold net_users.
  destruct (ns !! n) as [ni|], (ns' !! n) as [ni'|]; simpl in H;
    try discriminate; [| constructor].
  inversion H. by eapply same_port_of_clear.
Qed.

Lemma backward_net_min_slack ctx ns b net ns' b' :
  backward_net ctx (ns, b) net = Ok (ns', b') ->
  backward_le b b'
  /\ b_min_slack b'
     = fold_left Z.min (net_slacks ctx (b_data b) net (net_users ns net)) (b_min_slack b).
Proof.
  unfold backward_net. intros H. inv_bind H. inv_bind H. destruct r0 as [us b1].
  inversion H; subst. simpl in Hr0. by apply backward_users_min_slack in Hr0.
Qed.

Lemma terminus_slacks_data_le ctx nd nd' order :
  data_le nd nd' -> terminus_slacks ctx nd' order = terminus_slacks ctx nd order.
Proof.
  intros H. unfold terminus_slacks. induction order as [|n order IH]; simpl; [done |].
  by rewrite IH, (net_slacks_data_le _ _ _ _ _ H).
Qed.

(** The minimum slack after the backward loop over the nets [l]. *)
Lemma backward_min_slack ctx l ns b ns' b' :
  clear_budgets ns = clear_budgets (nets ctx) ->
  foldM (backward_net ctx) l (ns, b) = Ok (ns', b') ->
  backward_le b b'
  /\ b_min_slack b' = fold_left Z.min (terminus_slacks ctx (b_data b) l) (b_min_slack b).
Proof.
  revert ns b. induction l as [|n l IH]; intros ns b Hclear H; simpl in H.
  - inversion H; subst. split; [apply backward_le_refl | done].
  - inv_bind H. destruct r as [ns1 b1].
    pose proof (backward_net_clear _ _ _ _ Hr) as Hc1. simpl in Hc1.
    apply backward_net_min_slack in Hr as [Hle Hms].
    apply IH in H as [Hle' Hms']; [| congruence].
    split; [by eapply backward_le_trans |].
    rewrite Hms', Hms, (terminus_slacks_data_le _ _ _ _ (proj1 Hle)).
    unfold terminus_slacks at 2. simpl. rewrite fold_left_app.
    by rewrite (net_slacks_same_port _ _ _ _ _ (clear_budgets_users _ _ n Hclear)).
Qed.




(** ** Arrival times are not negative *)

Lemma emplace_lookup n d nd m d' :
  emplace n d nd !! m = Some d' -> nd !! m = Some d' \/ (m = n /\ d' = d).
Proof.
  unfold emplace. destruct (nd !! n) eqn:Hn; [by left |].
  destruct (decide (n = m)) as [<-|Hne].
  - rewrite lookup_insert_eq. intros [= <-]. by right.
  - rewrite lookup_insert_ne by done. by left.
Qed.










(** ** The backward loop at one connection *)

Lemma mapM_state_rel {S A : Type} (R : S -> S -> Prop)
  (f : S -> A -> result (A * S)) :
  (forall s, R s s) -> (forall s1 s2 s3, R s1 s2 -> R s2 s3 -> R s1 s3) ->
  (forall s0 y y' s1, f s0 y = Ok (y', s1) -> R s0 s1) ->
  forall l s l' s', mapM_state f s l = Ok (l', s') -> R s s'.
Proof.
  intros Hrefl Htrans Hstep. induction l as [|y l IH]; intros s l' s' H; simpl in H.
  - inversion H; subst. apply Hrefl.
  - inv_bind H. destruct r as [y' s1]. inv_bind H. destruct r as [l1 s2].
    inversion H; subst. eapply Htrans; [by eapply Hstep | by eapply IH].
Qed.

Lemma mapM_state_lookup {S A : Type} (R : S -> S -> Prop)
  (f : S -> A -> result (A * S)) :
  (forall s, R s s) -> (forall s1 s2 s3, R s1 s2 -> R s2 s3 -> R s1 s3) ->
  (forall s0 y y' s1, f s0 y = Ok (y', s1) -> R s0 s1) ->
  forall l s l' s' i x,
    mapM_state f s l = Ok (l', s') -> l !! i = Some x ->
    exists s0 s1 x',
      R s s0 /\ f s0 x = Ok (x', s1) /\ R s1 s' /\ l' !! i = Some x'.
Proof.
  intros Hrefl Htrans Hstep. induction l as [|y l IH]; intros s l' s' i x H Hi.
  - destruct i; discriminate.
  - simpl in H. inv_bind H. destruct r as [y' s1]. inv_bind H. destruct r as [l1 s2].
    inversion H; subst. destruct i as [|i]; simpl in Hi.
    + inversion Hi; subst. exists s, s1, y'. repeat split; eauto.
      by eapply (mapM_state_rel R f).
    + destruct (IH _ _ _ _ _ Hr0 Hi) as (s0 & s3 & x' & H0 & Hf & H3 & Hl).
      exists s0, s3, x'. repeat split; eauto.
Qed.

Lemma mapM_state_length {S A : Type} (f : S -> A -> result (A * S)) l s l' s' :
  mapM_state f s l = Ok (l', s') -> length l' = length l.
Proof.
  revert s l' s'. induction l as [|y l IH]; intros s l' s' H; simpl in H.
  - by inversion H.
  - inv_bind H. destruct r as [y' s1]. inv_bind H. destruct r as [l1 s2].
    inversion H; subst. simpl. f_equal. by eapply IH.
Qed.

Lemma arc_hit_true ctx usr kp :
  arc_hit ctx usr kp = true <->
  exists n dc, port_net kp.2 = Some n /\ is_out kp.2 = true
               /\ getCellDelay ctx (cell usr) (port usr) kp.1 = Some dc.
Proof.
  unfold arc_hit. rewrite !andb_true_iff, !bool_decide_eq_true. split.
  - intros [[[n Hn] Ho] [dc Hd]]. eauto.
  - intros (n & dc & Hn & Ho & Hd). rewrite Hn, Hd. eauto.
Qed.

Lemma backward_port_miss ctx net l usr b kp :
  arc_hit ctx usr kp = false -> backward_port ctx net l (usr, b) kp = Ok (usr, b).
Proof.
  intros Hmiss. unfold backward_port. simpl.
  destruct (port_net kp.2) as [n|] eqn:Hn; [| done].
  destruct (is_out kp.2) eqn:Ho; [| done].
  destruct (getCellDelay _ _ _ _) as [dc|] eqn:Hd; [| done].
  assert (arc_hit ctx usr kp = true) by (apply arc_hit_true; eauto). congruence.
Qed.


(** ** The linearizer and the forward loop do not read budgets *)

Lemma foldM_Forall2 {S B : Type} (R : B -> B -> Prop) (f g : S -> B -> result S)
  (l l' : list B) (s : S) :
  (forall s0 x x', R x x' -> f s0 x = g s0 x') ->
  Forall2 R l l' -> foldM f l s = foldM g l' s.
Proof.
  intros Hfg HF. revert s. induction HF as [|x x' l l' Hx _ IH]; intros s; simpl; [done |].
  rewrite (Hfg s x x' Hx). destruct (g s x'); simpl; [apply IH | done].
Qed.

Lemma fold_left_Forall2 {S B : Type} (R : B -> B -> Prop) (f g : S -> B -> S)
  (l l' : list B) (s : S) :
  (forall s0 x x', R x x' -> f s0 x = g s0 x') ->
  Forall2 R l l' -> fold_left f l s = fold_left g l' s.
Proof.
  intros Hfg HF. revert s. induction HF as [|x x' l l' Hx _ IH]; intros s; simpl; [done |].
  rewrite (Hfg s x x' Hx). apply IH.
Qed.

Lemma visit_user_same_port ctx ns k u u' :
  same_port u u' -> visit_user (set_nets ctx ns) k u = visit_user ctx k u'.
Proof.
  intros [Hc Hp]. unfold visit_user, clocked, cell_ports, visit_port. simpl.
  by rewrite Hc, Hp.
Qed.

Lemma drain_same_shape ctx ns fuel k :
  clear_budgets ns = clear_budgets (nets ctx) ->
  drain fuel (set_nets ctx ns) k = drain fuel ctx k.
Proof.
  intros Hclear. revert k. induction fuel as [|fuel IH]; intros k; simpl; [done |].
  destruct (k_queue k) as [|net q]; [done |].
  rewrite (foldM_Forall2 same_port _ (visit_user ctx) _ (net_users (nets ctx) net)).
  - destruct (foldM _ _ _); simpl; [apply IH | done].
  - intros s0 x x'. apply visit_user_same_port.
  - by apply clear_budgets_users.
Qed.

Lemma linearize_same_shape ctx ns :
  clear_budgets ns = clear_budgets (nets ctx) ->
  linearize (set_nets ctx ns) = linearize ctx.
Proof. intros H. unfold linearize. by apply drain_same_shape. Qed.

Lemma forward_same_shape ctx ns order nd :
  clear_budgets ns = clear_budgets (nets ctx) ->
  forward (set_nets ctx ns) order nd = forward ctx order nd.
Proof.
  intros Hclear. unfold forward. revert nd.
  induction order as [|n order IH]; intros nd; simpl; [done |].
  assert (forward_net (set_nets ctx ns) nd n = forward_net ctx nd n) as ->.
  { unfold forward_net. destruct (nd !! n) as [d|]; [| done]. f_equal. simpl.
    apply (fold_left_Forall2 same_port); [| by apply clear_budgets_users].
    intros s0 x x' [Hc Hp].
    unfold forward_user, clocked, realized_delay, cell_ports, forward_port,
      budget_override. simpl. by rewrite Hc, Hp. }
  destruct (forward_net ctx nd n); simpl; [apply IH | done].
Qed.

(** ** C6: pinned connections *)



Lemma forward_port_arrival ctx net usr ua l nd kp n dc :
  port_net kp.2 = Some n -> is_out kp.2 = true ->
  getCellDelay ctx (cell usr) (port usr) kp.1 = Some dc ->
  arrival (forward_port ctx net usr ua l nd kp) n = Z.max (arrival nd n) (ua + dc).
Proof.
  intros Hn Ho Hd. unfold forward_port, arrival. rewrite Hn, Ho, Hd.
  rewrite lookup_insert_eq. by destruct (budget_override ctx net usr).
Qed.





Lemma net_users_store_eq ns n us :
  is_Some (ns !! n) -> net_users (store_users ns n us) n = us.
Proof.
  intros [ni Hni]. unfold store_users, net_users. rewrite Hni.
  by rewrite lookup_insert_eq.
Qed.

Lemma net_users_store_ne ns m n us :
  m <> n -> net_users (store_users ns m us) n = net_users ns n.
Proof.
  intros Hne. unfold store_users, net_users.
  destruct (ns !! m); [by rewrite lookup_insert_ne | done].
Qed.



Lemma elem_of_rev {A : Type} (l : list A) (x : A) : x ∈ rev l <-> x ∈ l.
Proof. rewrite !list_elem_of_In. symmetry. apply in_rev. Qed.



(** ** The work-queue loop *)

(** The three outcomes of one step of the innermost loop. *)
Lemma visit_port_Ok ctx usr k kp k' :
  visit_port ctx usr k kp = Ok k' ->
  (arc_hit ctx usr kp = false /\ k' = k)
  \/ exists n v,
       port_net kp.2 = Some n /\ arc_hit ctx usr kp = true
       /\ k_fanin k !! (cell usr, kp.1) = Some v
       /\ ((u32 (v - 1) = 0
            /\ k' = {| k_order := k_order k ++ [n];
                       k_fanin := delete (cell usr, kp.1) (k_fanin k);
                       k_queue := k_queue k ++ [n] |})
           \/ (u32 (v - 1) <> 0
               /\ k' = {| k_order := k_order k;
                          k_fanin := <[(cell usr, kp.1) := u32 (v - 1)]> (k_fanin k);
                          k_queue := k_queue k |})).
Proof.
  unfold visit_port. intros H.
  destruct (arc_hit ctx usr kp) eqn:Hhit.
  - right. pose proof Hhit as (n & dc & Hn & Ho & Hd)%arc_hit_true.
    rewrite Hn, Ho, Hd in H.
    destruct (k_fanin k !! (cell usr, kp.1)) as [v|]; [| discriminate].
    exists n, v. split; [done |]. split; [done |]. split; [done |].
    destruct (u32 (v - 1) =? 0) eqn:Hz; inversion H; subst.
    + left. split; [lia | done].
    + right. split; [lia | done].
  - left. split; [done |].
    destruct (port_net kp.2) as [n|] eqn:Hn; [| by inversion H].
    destruct (is_out kp.2) eqn:Ho; [| by inversion H].
    destruct (getCellDelay _ _ _ _) as [dc|] eqn:Hd; [| by inversion H].
    assert (arc_hit ctx usr kp = true) by (apply arc_hit_true; eauto). congruence.
Qed.

Lemma visit_port_Err ctx usr k kp e :
  visit_port ctx usr k kp = Err e -> e = AssertionFailure.
Proof.
  unfold visit_port.
  destruct (port_net kp.2); [| done]. destruct (is_out kp.2); [| done].
  destruct (getCellDelay _ _ _ _); [| done].
  destruct (k_fanin k !! _); [| by intros [= <-]].
  by destruct (_ =? 0).
Qed.

Lemma foldM_Err {S B : Type} (P : error -> Prop) (f : S -> B -> result S)
  (l : list B) (s : S) (e : error) :
  (forall s0 x e0, f s0 x = Err e0 -> P e0) ->
  foldM f l s = Err e -> P e.
Proof.
  intros Hf. revert s. induction l as [|x l IH]; intros s H; simpl in H; [done |].
  destruct (f s x) as [s1|e1] eqn:Hx; simpl in H.
  - by eapply IH.
  - inversion H; subst. by eapply Hf.
Qed.

Lemma visit_user_Err ctx k usr e :
  visit_user ctx k usr = Err e -> e = AssertionFailure.
Proof.
  unfold visit_user. destruct (clocked _ _ _); [done |].
  apply (foldM_Err (fun e0 => e0 = AssertionFailure)).
  intros s0 x e0. apply visit_port_Err.
Qed.

(** A step of the innermost loop keeps the bound on the remaining
    iterations: a net is pushed only when an entry is erased. *)
Lemma visit_port_fuel ctx usr k kp k' :
  visit_port ctx usr k kp = Ok k' -> drain_fuel k' = drain_fuel k.
Proof.
  intros [[_ ->]|(n & v & _ & _ & Hv & [[_ ->]|[_ ->]])]%visit_port_Ok;
    unfold drain_fuel; simpl; [done | |].
  - rewrite length_app. simpl.
    pose proof (map_size_delete_Some _ _ (mk_is_Some _ _ Hv)) as Hs.
    assert (size (k_fanin k) <> 0%nat); [| lia].
    apply map_size_non_empty_iff. intros He. by rewrite He, lookup_empty in Hv.
  - by rewrite (map_size_insert_Some _ _ _ (mk_is_Some _ _ Hv)).
Qed.

Lemma visit_user_fuel ctx k usr k' :
  visit_user ctx k usr = Ok k' -> drain_fuel k' = drain_fuel k.
Proof.
  unfold visit_user. destruct (clocked _ _ _); [by intros [= <-] |].
  apply foldM_invariant with (P := fun s => drain_fuel s = drain_fuel k); [| done].
  intros s1 x s2 _ <-. apply visit_port_fuel.
Qed.

(** The loop ends within the bound, with an empty queue, unless the
    assertion fails. *)
Lemma drain_outcome ctx fuel k :
  (drain_fuel k <= fuel)%nat ->
  (exists k', drain fuel ctx k = Ok k' /\ k_queue k' = [])
  \/ drain fuel ctx k = Err AssertionFailure.
Proof.
  revert k. induction fuel as [|fuel IH]; intros k Hk; simpl.
  - destruct (k_queue k) as [|net q] eqn:Hq; [left; eauto |].
    unfold drain_fuel in Hk. rewrite Hq in Hk. simpl in Hk. lia.
  - destruct (k_queue k) as [|net q] eqn:Hq; [left; eauto |].
    destruct (foldM _ _ _) as [k1|e] eqn:Hf; simpl.
    + apply IH.
      assert (drain_fuel k1
              = drain_fuel {| k_order := k_order k; k_fanin := k_fanin k; k_queue := q |}).
      { revert Hf. apply foldM_invariant
          with (P := fun s => drain_fuel s
                       = drain_fuel {| k_order := k_order k; k_fanin := k_fanin k;
                                       k_queue := q |}); [| done].
        intros s1 x s2 _ <-. apply visit_user_fuel. }
      unfold drain_fuel in *. rewrite Hq in Hk. simpl in *. lia.
    + right. f_equal. revert Hf. apply (foldM_Err (fun e0 => e0 = AssertionFailure)).
      intros s0 x e0. apply visit_user_Err.
Qed.

Lemma linearize_outcome ctx :
  (exists k, linearize ctx = Ok k /\ k_queue k = [])
  \/ linearize ctx = Err AssertionFailure.
Proof. unfold linearize. by apply drain_outcome. Qed.

(** ** Every net of the order is justified *)

Lemma arc_hit_out_net ctx usr kp n :
  kp ∈ cell_ports ctx (cell usr) -> port_net kp.2 = Some n ->
  arc_hit ctx usr kp = true -> out_net ctx (cell usr) kp.1 n.
Proof.
  intros Hin Hn (n' & dc & _ & Ho & _)%arc_hit_true.
  exists kp.2. by destruct kp.
Qed.

Lemma visit_port_justified ctx usr k kp k' :
  kp ∈ cell_ports ctx (cell usr) ->
  order_justified ctx k -> visit_port ctx usr k kp = Ok k' -> order_justified ctx k'.
Proof.
  intros Hin [Hord Hdom]
    [[_ ->]|(n & v & Hn & Hhit & Hv & [[_ ->]|[_ ->]])]%visit_port_Ok; [done | |].
  - split; simpl.
    + intros m [Hm|Hm]%elem_of_app.
      * destruct (Hord m Hm) as [?|(c & p & Hout & Hs & Hnone)]; [by left |].
        right. exists c, p. split; [done |]. split; [done |].
        destruct (decide ((cell usr, kp.1) = (c, p))) as [->|Hne].
        -- apply lookup_delete_eq.
        -- by rewrite lookup_delete_ne.
      * apply list_elem_of_singleton in Hm as ->. right.
        exists (cell usr), kp.1. split; [by eapply arc_hit_out_net |].
        split; [apply Hdom; by rewrite Hv | apply lookup_delete_eq].
    + intros cp [x Hx]. apply Hdom.
      destruct (decide ((cell usr, kp.1) = cp)) as [<-|Hne].
      * by rewrite lookup_delete_eq in Hx.
      * rewrite lookup_delete_ne in Hx by done. by rewrite Hx.
  - split; simpl.
    + intros m Hm.
      destruct (Hord m Hm) as [?|(c & p & Hout & Hs & Hnone)]; [by left |].
      right. exists c, p. split; [done |]. split; [done |].
      rewrite lookup_insert_ne; [done |]. intros Heq. rewrite Heq in Hv. congruence.
    + intros cp [x Hx]. apply Hdom.
      destruct (decide ((cell usr, kp.1) = cp)) as [<-|Hne].
      * by rewrite Hv.
      * rewrite lookup_insert_ne in Hx by done. by rewrite Hx.
Qed.

Lemma visit_user_justified ctx k usr k' :
  order_justified ctx k -> visit_user ctx k usr = Ok k' -> order_justified ctx k'.
Proof.
  unfold visit_user. intros Hk. destruct (clocked _ _ _); [by intros [= <-] |].
  apply foldM_invariant; [| done].
  intros s1 x s2 Hx Hs1. by apply visit_port_justified.
Qed.

Lemma drain_justified ctx fuel k k' :
  order_justified ctx k -> drain fuel ctx k = Ok k' -> order_justified ctx k'.
Proof.
  revert k. induction fuel as [|fuel IH]; intros k Hk H; simpl in H.
  - destruct (k_queue k); [by inversion H; subst | discriminate].
  - destruct (k_queue k) as [|net q]; [by inversion H; subst |].
    inv_bind H. eapply IH; [| exact H].
    revert Hr. apply foldM_invariant; [| exact Hk].
    intros s1 x s2 _. apply visit_user_justified.
Qed.

Lemma linearize_justified ctx k : linearize ctx = Ok k -> order_justified ctx k.
Proof.
  unfold linearize. apply drain_justified. split; simpl; [by left | done].
Qed.

(** ** Consequences of well-formedness *)

Lemma assoc_elem_of {A : Type} (k : Z) (v : A) (l : list (Z * A)) :
  assoc k l = Some v -> (k, v) ∈ l.
Proof.
  induction l as [|[k' v'] l IH]; simpl; [done |].
  destruct (k =? k') eqn:Hk.
  - apply Z.eqb_eq in Hk as ->. intros [= ->]. by left.
  - intros H. right. by apply IH.
Qed.

Lemma elem_of_assoc {A : Type} (k : Z) (v : A) (l : list (Z * A)) :
  NoDup (fst <$> l) -> (k, v) ∈ l -> assoc k l = Some v.
Proof.
  induction l as [|[k' v'] l IH]; simpl; intros Hnd Hin; [by inversion Hin |].
  apply NoDup_cons in Hnd as [Hk' Hnd].
  apply elem_of_cons in Hin as [[= <- <-]|Hin].
  - by rewrite Z.eqb_refl.
  - destruct (k =? k') eqn:Hk; [| by apply IH].
    apply Z.eqb_eq in Hk as ->. exfalso. apply Hk'.
    apply list_elem_of_fmap. by exists (k', v).
Qed.

Lemma NoDup_fmap_eq {A B : Type} (f : A -> B) (l : list A) (x y : A) :
  NoDup (f <$> l) -> x ∈ l -> y ∈ l -> f x = f y -> x = y.
Proof.
  induction l as [|z l IH]; simpl; intros Hnd Hx Hy Hf; [by inversion Hx |].
  apply NoDup_cons in Hnd as [Hz Hnd].
  apply elem_of_cons in Hx as [->|Hx]; apply elem_of_cons in Hy as [->|Hy].
  - done.
  - exfalso. apply Hz. rewrite Hf. by apply list_elem_of_fmap_2.
  - exfalso. apply Hz. rewrite <- Hf. by apply list_elem_of_fmap_2.
  - by apply IH.
Qed.

Lemma cell_ports_elem ctx c kp :
  kp ∈ cell_ports ctx c ->
  exists ci, assoc c (cells ctx) = Some ci /\ kp ∈ ports ci /\ (c, ci) ∈ cells ctx.
Proof.
  unfold cell_ports. destruct (assoc c (cells ctx)) as [ci|] eqn:Hc.
  - intros Hin. exists ci. split; [done |]. split; [done |]. by apply assoc_elem_of.
  - intros Hin. inversion Hin.
Qed.

Lemma cell_ports_wf ctx c ci :
  wf_context ctx -> (c, ci) ∈ cells ctx ->
  cell_ports ctx c = ports ci /\ wf_cell ctx (c, ci).
Proof.
  intros (Hnd & Hcells & _) Hin. split.
  - unfold cell_ports. by rewrite (elem_of_assoc _ _ _ Hnd Hin).
  - rewrite Forall_forall in Hcells. by apply Hcells.
Qed.

Lemma elem_of_output_ports (ps : list (IdString * PortInfo)) k pi n :
  (k, pi, n) ∈ output_ports ps <->
  (k, pi) ∈ ps /\ port_net pi = Some n /\ is_out pi = true.
Proof.
  unfold output_ports. rewrite list_elem_of_omap. split.
  - intros ([k' pi'] & Hin & H). simpl in H.
    destruct (port_net pi') as [n'|] eqn:Hn; [| discriminate].
    destruct (is_out pi') eqn:Ho; [| discriminate].
    inversion H; subst. done.
  - intros (Hin & Hn & Ho). exists (k, pi). split; [done |]. simpl.
    by rewrite Hn, Ho.
Qed.

Lemma elem_of_input_ports (ps : list (IdString * PortInfo)) k :
  k ∈ input_ports ps <->
  exists pi, (k, pi) ∈ ps /\ is_Some (port_net pi) /\ is_out pi = false.
Proof.
  unfold input_ports. rewrite list_elem_of_omap. split.
  - intros ([k' pi'] & Hin & H). simpl in H.
    destruct (port_net pi') as [n'|] eqn:Hn; [| discriminate].
    destruct (is_out pi') eqn:Ho; [discriminate |].
    inversion H; subst. exists pi'. rewrite Hn. eauto.
  - intros (pi & Hin & [n Hn] & Ho). exists (k, pi). split; [done |]. simpl.
    by rewrite Hn, Ho.
Qed.

Lemma elem_of_bound_outputs ctx c p n :
  (c, p, n) ∈ bound_outputs ctx <->
  exists ci pi, (c, ci) ∈ cells ctx /\ (p, pi, n) ∈ output_ports (ports ci).
Proof.
  unfold bound_outputs. rewrite list_elem_of_In, in_flat_map. split.
  - intros ([c' ci] & Hc & Ho). apply list_elem_of_In in Hc, Ho.
    apply list_elem_of_fmap in Ho as ([[p' pi] n'] & Heq & Ho). simpl in Heq.
    inversion Heq; subst. eauto.
  - intros (ci & pi & Hc & Ho). exists (c, ci). split; [by apply list_elem_of_In |].
    apply list_elem_of_In, list_elem_of_fmap. exists (p, pi, n). done.
Qed.

Lemma out_net_bound ctx c p n :
  out_net ctx c p n -> (c, p, n) ∈ bound_outputs ctx.
Proof.
  intros (pi & Hin & Ho & Hn).
  apply cell_ports_elem in Hin as (ci & _ & Hin & Hc).
  apply elem_of_bound_outputs. exists ci, pi. split; [done |].
  by apply elem_of_output_ports.
Qed.

(** A net has one driving output port. *)
Lemma out_net_unique ctx c p c' p' n :
  wf_context ctx -> out_net ctx c p n -> out_net ctx c' p' n -> (c', p') = (c, p).
Proof.
  intros (_ & _ & Hnd & _) H1%out_net_bound H2%out_net_bound.
  by pose proof (NoDup_fmap_eq snd _ _ _ Hnd H2 H1 eq_refl) as [= -> ->].
Qed.

(** A user designates a net-bound input port of its cell, bound to the net. *)
Lemma user_bound_inv ctx n u :
  user_bound ctx n u = true ->
  exists pi, (port u, pi) ∈ cell_ports ctx (cell u)
             /\ port_net pi = Some n /\ is_out pi = false.
Proof.
  unfold user_bound. destruct (assoc _ _) as [pi|] eqn:Hp; [| done].
  intros [Hn Ho]%andb_true_iff. apply bool_decide_eq_true in Hn.
  apply negb_true_iff in Ho. exists pi. split; [by apply assoc_elem_of | done].
Qed.

Lemma wf_user ctx n u :
  wf_context ctx -> u ∈ net_users (nets ctx) n -> user_bound ctx n u = true.
Proof.
  intros (_ & _ & _ & Hnets) Hu. unfold net_users in Hu.
  destruct (nets ctx !! n) as [ni|] eqn:Hn; [| by inversion Hu].
  destruct (Hnets n ni Hn) as [_ Hall]. rewrite Forall_forall in Hall. by apply Hall.
Qed.

Lemma wf_users_NoDup ctx n :
  wf_context ctx -> NoDup (userports ctx n).
Proof.
  intros (_ & _ & _ & Hnets). unfold userports, net_users.
  destruct (nets ctx !! n) as [ni|] eqn:Hn; [| constructor].
  by destruct (Hnets n ni Hn) as [Hnd _].
Qed.

(** A connection is a user of one net only. *)
Lemma userport_net_unique ctx n n' cp :
  wf_context ctx -> cp ∈ userports ctx n -> cp ∈ userports ctx n' -> n = n'.
Proof.
  intros Hwf (u & -> & Hu)%list_elem_of_fmap (u' & Heq & Hu')%list_elem_of_fmap.
  apply (wf_user _ _ _ Hwf) in Hu. apply (wf_user _ _ _ Hwf) in Hu'.
  unfold user_bound, userport in *. inversion Heq as [[Hc Hp]].
  rewrite Hc, Hp in Hu. destruct (assoc _ _) as [pi|]; [| done].
  apply andb_true_iff in Hu as [Hu _]. apply andb_true_iff in Hu' as [Hu' _].
  apply bool_decide_eq_true in Hu, Hu'. congruence.
Qed.

Ltac elem_of_list := apply list_elem_of_In; vm_compute; tauto.
Ltac wf_example := apply (bool_decide_unpack _); vm_compute; exact I.

(** ** The seeding loop *)

Lemma seed_output_order ctx kc ins s o :
  topographical_order
    (seed_output ctx kc.1 (cell_type kc.2 =? id_sb_io ctx) ins s o)
  = topographical_order s ++ (if seeded ctx kc o then [o.2] else []).
Proof.
  unfold seed_output, seeded, clocked.
  destruct (getPortClock ctx kc.1 (port_name o.1.2) =? 0); simpl.
  - destruct (cell_type kc.2 =? id_sb_io ctx); simpl; [done | by rewrite app_nil_r].
  - done.
Qed.

Lemma seed_outputs_order ctx kc ins os s :
  topographical_order
    (fold_left (seed_output ctx kc.1 (cell_type kc.2 =? id_sb_io ctx) ins) os s)
  = topographical_order s
    ++ (snd <$> filter (fun o => seeded ctx kc o = true) os).
Proof.
  revert s. induction os as [|o os IH]; intros s; simpl; [by rewrite app_nil_r |].
  rewrite IH, seed_output_order, filter_cons. case_decide as Hs.
  - rewrite Hs. simpl. by rewrite <- app_assoc.
  - destruct (seeded ctx kc o); [done |]. by rewrite app_nil_r.
Qed.

Lemma seed_cells_order ctx cs s :
  topographical_order (fold_left (seed_cell ctx) cs s)
  = topographical_order s
    ++ flat_map (fun kc : IdString * CellInfo =>
                   snd <$> filter (fun o => seeded ctx kc o = true)
                                  (output_ports (ports kc.2))) cs.
Proof.
  revert s. induction cs as [|kc cs IH]; intros s; simpl; [by rewrite app_nil_r |].
  rewrite IH. unfold seed_cell. rewrite seed_outputs_order.
  by rewrite <- app_assoc.
Qed.

(** The order with which the work-queue loop starts. *)
Lemma seed_order ctx : topographical_order (seed ctx) = seed_nets ctx.
Proof. unfold seed. by rewrite seed_cells_order. Qed.

Lemma u32_add_l a b : u32 (u32 a + b) = u32 (a + b).
Proof. unfold u32. by rewrite Z.add_mod_idemp_l. Qed.

Lemma u32_small z : 0 <= z < 2 ^ 32 -> u32 z = z.
Proof. intros H. unfold u32. by apply Z.mod_small. Qed.

(** The in-degree of one output after the loop over the cell's inputs. *)
Lemma count_fanin_fold ctx c o ins pf :
  fold_left (count_fanin ctx c o) ins pf
  = match filter (fun i => is_Some (getCellDelay ctx c i (port_name o.1.2))) ins with
    | [] => pf
    | l => <[(c, o.1.1) := u32 (default 0 (pf !! (c, o.1.1)) + Z.of_nat (length l))]> pf
    end.
Proof.
  revert pf. induction ins as [|i ins IH]; intros pf; simpl; [done |].
  rewrite IH, filter_cons. clear IH.
  assert (Hstep : count_fanin ctx c o pf i
                  = match getCellDelay ctx c i (port_name o.1.2) with
                    | Some _ => fanin_incr (c, o.1.1) pf
                    | None => pf
                    end) by done.
  rewrite Hstep. clear Hstep.
  destruct (getCellDelay ctx c i (port_name o.1.2)) as [d|] eqn:Hd.
  - rewrite decide_True by eauto. unfold fanin_incr.
    destruct (filter _ ins) as [|j l] eqn:Hf; [done |].
    rewrite lookup_insert_eq. simpl default. rewrite insert_insert_eq.
    rewrite u32_add_l. f_equal. f_equal.
    change (length (i :: j :: l)) with (S (length (j :: l))). lia.
  - rewrite decide_False by (intros [? ?]; congruence). done.
Qed.

Lemma seed_output_fanin ctx c is_io ins s o :
  port_fanin (seed_output ctx c is_io ins s o)
  = if getPortClock ctx c (port_name o.1.2) =? 0
    then fold_left (count_fanin ctx c o) ins (port_fanin s)
    else port_fanin s.
Proof.
  unfold seed_output. destruct (_ =? 0); [| done]. by destruct is_io.
Qed.

Lemma output_ports_keys_NoDup (ps : list (IdString * PortInfo)) :
  NoDup (fst <$> ps) ->
  NoDup ((fun o : IdString * PortInfo * IdString => o.1.1) <$> output_ports ps).
Proof.
  induction ps as [|[k pi] ps IH]; simpl; intros Hnd; [constructor |].
  apply NoDup_cons in Hnd as [Hk Hnd]. unfold output_ports. simpl.
  fold (output_ports ps).
  destruct (port_net pi) as [n|]; [| by apply IH].
  destruct (is_out pi); [| by apply IH].
  simpl. apply NoDup_cons. split; [| by apply IH].
  intros ([[k' pi'] n'] & Heq & Hin)%list_elem_of_fmap. simpl in Heq. subst k'.
  apply elem_of_output_ports in Hin as (Hin & _). apply Hk.
  apply list_elem_of_fmap. by exists (k, pi').
Qed.

Lemma input_ports_NoDup (ps : list (IdString * PortInfo)) :
  NoDup (fst <$> ps) -> NoDup (input_ports ps).
Proof.
  induction ps as [|[k pi] ps IH]; simpl; intros Hnd; [constructor |].
  apply NoDup_cons in Hnd as [Hk Hnd]. unfold input_ports. simpl.
  fold (input_ports ps).
  destruct (port_net pi) as [n|]; [| by apply IH].
  destruct (is_out pi); [by apply IH |].
  simpl. apply NoDup_cons. split; [| by apply IH].
  intros (pi' & Hin & _)%elem_of_input_ports. apply Hk.
  apply list_elem_of_fmap. by exists (k, pi').
Qed.

Lemma input_ports_length (ps : list (IdString * PortInfo)) :
  (length (input_ports ps) <= length ps)%nat.
Proof.
  induction ps as [|[k pi] ps IH]; simpl; [done |]. unfold input_ports. simpl.
  fold (input_ports ps). destruct (port_net pi); [| lia].
  destruct (is_out pi); simpl; lia.
Qed.

Lemma filter_nil_Forall {A : Type} (P : A -> Prop) `{forall x, Decision (P x)}
  (l : list A) :
  Forall (fun x => ~ P x) l -> filter P l = [].
Proof.
  induction 1 as [|x l Hx _ IH]; [done |].
  rewrite filter_cons, decide_False by done. exact IH.
Qed.

Lemma seed_outputs_counted ctx c ci is_io os s :
  (c, ci) ∈ cells ctx ->
  (forall o, o ∈ os -> o ∈ output_ports (ports ci)) ->
  NoDup ((fun o : IdString * PortInfo * IdString => o.1.1) <$> os) ->
  (forall o, o ∈ os -> port_fanin s !! (c, o.1.1) = None) ->
  (forall c' p' v, port_fanin s !! (c', p') = Some v -> counted ctx c' p' v) ->
  let s' := fold_left (seed_output ctx c is_io (input_ports (ports ci))) os s in
  (forall c' p' v, port_fanin s' !! (c', p') = Some v -> counted ctx c' p' v)
  /\ (forall c' p', is_Some (port_fanin s' !! (c', p'))
                    -> is_Some (port_fanin s !! (c', p')) \/ c' = c).
Proof.
  intros Hci. revert s. induction os as [|o os IH]; intros s Hos Hnd Hfresh Hcnt; simpl.
  - split; [done | by left].
  - simpl in Hnd. apply NoDup_cons in Hnd as [Ho Hnd].
    set (s1 := seed_output ctx c is_io (input_ports (ports ci)) s o).
    assert (Hs1 : forall c' p',
               port_fanin s1 !! (c', p') = port_fanin s !! (c', p')
               \/ ((c', p') = (c, o.1.1)
                   /\ exists v, port_fanin s1 !! (c', p') = Some v
                                /\ counted ctx c o.1.1 v)).
    { intros c' p'. unfold s1. rewrite seed_output_fanin, count_fanin_fold.
      destruct (getPortClock ctx c (port_name o.1.2) =? 0) eqn:Hclk; [| by left].
      destruct (filter _ (input_ports (ports ci))) as [|j l] eqn:Hf; [by left |].
      destruct (decide ((c, o.1.1) = (c', p'))) as [<-|Hne].
      - right. split; [done |]. rewrite lookup_insert_eq. eexists. split; [done |].
        exists ci, o. split; [done |]. split; [apply Hos; by left |].
        split; [done |]. split; [unfold clocked; by rewrite Hclk |].
        rewrite Hf. split; [done |].
        rewrite (Hfresh o) by (by left). done.
      - left. by rewrite lookup_insert_ne. }
    destruct (IH s1) as [IH1 IH2].
    + intros o' Ho'. apply Hos. by right.
    + exact Hnd.
    + intros o' Ho'. destruct (Hs1 c o'.1.1) as [->|[Heq _]].
      * apply Hfresh. by right.
      * exfalso. apply Ho. apply list_elem_of_fmap. exists o'. split; [congruence | done].
    + intros c' p' v Hv. destruct (Hs1 c' p') as [Heq|[Heq (v' & Hv' & Hc)]].
      * rewrite Heq in Hv. by apply Hcnt.
      * inversion Heq; subst. rewrite Hv in Hv'. inversion Hv'; subst. exact Hc.
    + split; [exact IH1 |]. intros c' p' Hsome.
      destruct (IH2 c' p' Hsome) as [H1 | ->]; [| by right].
      destruct (Hs1 c' p') as [Heq|[Heq _]]; [left; by rewrite <- Heq |].
      right. by inversion Heq.
Qed.

Lemma seed_cells_counted ctx cs s :
  NoDup (fst <$> cs) ->
  (forall kc, kc ∈ cs -> kc ∈ cells ctx /\ NoDup (fst <$> ports kc.2)) ->
  (forall c p, is_Some (port_fanin s !! (c, p)) -> c ∉ fst <$> cs) ->
  (forall c p v, port_fanin s !! (c, p) = Some v -> counted ctx c p v) ->
  forall c p v,
    port_fanin (fold_left (seed_cell ctx) cs s) !! (c, p) = Some v -> counted ctx c p v.
Proof.
  revert s. induction cs as [|[c0 ci] cs IH]; intros s Hnd Hcs Hdom Hcnt; simpl; [done |].
  simpl in Hnd. apply NoDup_cons in Hnd as [Hc0 Hnd].
  destruct (Hcs (c0, ci)) as [Hin Hports]; [by left |].
  destruct (seed_outputs_counted ctx c0 ci (cell_type ci =? id_sb_io ctx)
              (output_ports (ports ci)) s Hin) as [H1 H2].
  - done.
  - by apply output_ports_keys_NoDup.
  - intros o _. destruct (port_fanin s !! (c0, o.1.1)) eqn:Hl; [| done].
    exfalso. apply (Hdom c0 o.1.1); [by rewrite Hl | by left].
  - exact Hcnt.
  - apply IH.
    + exact Hnd.
    + intros kc Hkc. apply Hcs. by right.
    + intros c p Hsome Hc. destruct (H2 c p Hsome) as [Hs| ->]; [| done].
      apply (Hdom c p Hs). by right.
    + exact H1.
Qed.

(** An in-degree entry left by the seeding loop of a well-formed netlist
    counts the inputs with an arc to an output that is not seeded. *)
Lemma seed_fanin_spec ctx c p v :
  wf_context ctx ->
  port_fanin (seed ctx) !! (c, p) = Some v ->
  v = Z.of_nat (length (arc_inputs ctx c p))
  /\ exists ci o, (c, ci) ∈ cells ctx /\ o ∈ output_ports (ports ci)
                  /\ o.1.1 = p /\ seeded ctx (c, ci) o = false.
Proof.
  intros Hwf Hv. pose proof Hwf as (Hnd & Hcells & _).
  assert (Hc : counted ctx c p v).
  { revert Hv. unfold seed. apply seed_cells_counted; simpl.
    - exact Hnd.
    - intros kc Hkc. split; [done |]. rewrite Forall_forall in Hcells.
      by destruct (Hcells kc Hkc) as (? & _).
    - intros c' p'. rewrite lookup_empty. by intros [? ?].
    - intros c' p' v'. by rewrite lookup_empty. }
  destruct Hc as (ci & o & Hci & Ho & <- & Hclk & Hne & ->).
  destruct (cell_ports_wf _ _ _ Hwf Hci) as [Hports (Hpnd & Hnames & Hlen & Hseeds)].
  simpl in *. destruct o as [[k pi] n]. simpl in *.
  pose proof Ho as (Hkp & _ & _)%elem_of_output_ports.
  rewrite Forall_forall in Hnames. pose proof (Hnames _ Hkp) as Hname. simpl in Hname.
  rewrite Hname in *. unfold arc_inputs. rewrite Hports. split.
  - apply u32_small. split; [lia |].
    pose proof (length_filter (fun i => is_Some (getCellDelay ctx c i k))
                  (input_ports (ports ci))).
    pose proof (input_ports_length (ports ci)). lia.
  - exists ci, (k, pi, n). split; [done |]. split; [done |]. split; [done |].
    destruct (seeded ctx (c, ci) (k, pi, n)) eqn:Hs; [| done]. exfalso.
    unfold seeds_have_no_arc in Hseeds. rewrite Forall_forall in Hseeds.
    specialize (Hseeds _ Ho Hs). rewrite Forall_forall in Hseeds. simpl in Hseeds.
    apply Hne. apply filter_nil_Forall, Forall_forall. intros i Hi [d Hd].
    rewrite (Hseeds i Hi) in Hd; [done |]. left. by rewrite Hname.
Qed.

(** ** The seeds of a well-formed netlist *)

Lemma elem_of_seed_nets ctx n :
  n ∈ seed_nets ctx <->
  exists kc o, kc ∈ cells ctx /\ o ∈ output_ports (ports kc.2)
               /\ seeded ctx kc o = true /\ o.2 = n.
Proof.
  unfold seed_nets. rewrite list_elem_of_In, in_flat_map. split.
  - intros (kc & Hkc & Hn). apply list_elem_of_In in Hkc, Hn.
    apply list_elem_of_fmap in Hn as (o & -> & Ho).
    apply list_elem_of_filter in Ho as [Hs Ho]. eauto 10.
  - intros (kc & o & Hkc & Ho & Hs & <-). exists kc.
    split; [by apply list_elem_of_In |].
    apply list_elem_of_In, list_elem_of_fmap. exists o. split; [done |].
    by apply list_elem_of_filter.
Qed.

Lemma seed_nets_sublist ctx : seed_nets ctx `sublist_of` (snd <$> bound_outputs ctx).
Proof.
  unfold seed_nets, bound_outputs.
  induction (cells ctx) as [|kc cs IH]; simpl; [constructor |].
  rewrite fmap_app. apply sublist_app; [| exact IH].
  induction (output_ports (ports kc.2)) as [|o os IHo]; simpl; [constructor |].
  rewrite filter_cons. case_decide; simpl.
  - by apply sublist_skip.
  - by apply sublist_cons.
Qed.

Lemma seed_nets_NoDup ctx : wf_context ctx -> NoDup (seed_nets ctx).
Proof.
  intros (_ & _ & Hnd & _). exact (sublist_NoDup _ _ Hnd (seed_nets_sublist ctx)).
Qed.

Lemma ports_key_unique ctx c ci k pi pi' :
  wf_context ctx -> (c, ci) ∈ cells ctx ->
  (k, pi) ∈ ports ci -> (k, pi') ∈ ports ci -> pi = pi'.
Proof.
  intros Hwf Hci H1 H2.
  destruct (cell_ports_wf _ _ _ Hwf Hci) as [_ (Hnd & _)]. simpl in Hnd.
  apply (elem_of_assoc _ _ _ Hnd) in H1, H2. congruence.
Qed.

Lemma cells_key_unique ctx c ci ci' :
  wf_context ctx -> (c, ci) ∈ cells ctx -> (c, ci') ∈ cells ctx -> ci = ci'.
Proof.
  intros (Hnd & _) H1 H2. apply (elem_of_assoc _ _ _ Hnd) in H1, H2. congruence.
Qed.

(** The net of an output that is not seeded is not a seed. *)
Lemma unseeded_not_seed ctx c ci o :
  wf_context ctx -> (c, ci) ∈ cells ctx -> o ∈ output_ports (ports ci) ->
  seeded ctx (c, ci) o = false -> o.2 ∉ seed_nets ctx.
Proof.
  intros Hwf Hci Ho Hs ([c' ci'] & o' & Hci' & Ho' & Hs' & Heq)%elem_of_seed_nets.
  simpl in *. destruct o as [[k pi] n], o' as [[k' pi'] n']. simpl in *. subst n'.
  assert (H1 : (c, k, n) ∈ bound_outputs ctx)
    by (apply elem_of_bound_outputs; eauto).
  assert (H2 : (c', k', n) ∈ bound_outputs ctx)
    by (apply elem_of_bound_outputs; eauto).
  pose proof Hwf as (_ & _ & Hnd & _).
  pose proof (NoDup_fmap_eq snd _ _ _ Hnd H1 H2 eq_refl) as [= <- <-].
  pose proof (cells_key_unique _ _ _ _ Hwf Hci Hci') as <-.
  apply elem_of_output_ports in Ho as (Ho & _). apply elem_of_output_ports in Ho' as (Ho' & _).
  pose proof (ports_key_unique _ _ _ _ _ _ Hwf Hci Ho Ho') as <-. congruence.
Qed.

Lemma out_net_output ctx c ci p n :
  wf_context ctx -> (c, ci) ∈ cells ctx -> out_net ctx c p n ->
  exists pi, (p, pi, n) ∈ output_ports (ports ci).
Proof.
  intros Hwf Hci (pi & Hin & Ho & Hn).
  destruct (cell_ports_wf _ _ _ Hwf Hci) as [Hports _]. rewrite Hports in Hin.
  exists pi. by apply elem_of_output_ports.
Qed.

Lemma filter_all {A : Type} (P : A -> Prop) `{forall x, Decision (P x)} (l : list A) :
  (forall x, P x) -> filter P l = l.
Proof.
  intros HP. induction l as [|x l IH]; [done |].
  rewrite filter_cons, decide_True by done. by rewrite IH.
Qed.

Lemma count_fanin_mono ctx c o ins pf key :
  is_Some (pf !! key) -> is_Some (fold_left (count_fanin ctx c o) ins pf !! key).
Proof.
  intros Hs. rewrite count_fanin_fold. destruct (filter _ ins); [done |].
  destruct (decide ((c, o.1.1) = key)) as [<-|Hne].
  - rewrite lookup_insert_eq. eauto.
  - by rewrite lookup_insert_ne.
Qed.

Lemma seed_output_mono ctx c is_io ins s o key :
  is_Some (port_fanin s !! key) ->
  is_Some (port_fanin (seed_output ctx c is_io ins s o) !! key).
Proof.
  intros Hs. rewrite seed_output_fanin. destruct (_ =? 0); [| done].
  by apply count_fanin_mono.
Qed.

Lemma seed_cell_mono ctx s kc key :
  is_Some (port_fanin s !! key) -> is_Some (port_fanin (seed_cell ctx s kc) !! key).
Proof.
  intros Hs. unfold seed_cell.
  apply fold_left_invariant with (P := fun s' => is_Some (port_fanin s' !! key)); [| done].
  intros s1 o _. apply seed_output_mono.
Qed.

(** The seeding loop gives an entry to every unclocked net-bound output
    with an arc from a net-bound input. *)
Lemma seed_fanin_complete ctx c ci o :
  (c, ci) ∈ cells ctx -> o ∈ output_ports (ports ci) ->
  clocked ctx c (port_name o.1.2) = false ->
  filter (fun i => is_Some (getCellDelay ctx c i (port_name o.1.2)))
         (input_ports (ports ci)) <> [] ->
  is_Some (port_fanin (seed ctx) !! (c, o.1.1)).
Proof.
  intros Hci Ho Hclk Hne.
  apply list_elem_of_split in Hci as (cs1 & cs2 & Hcs).
  apply list_elem_of_split in Ho as (os1 & os2 & Hos).
  unfold seed. rewrite Hcs, fold_left_app. simpl.
  apply fold_left_invariant with (P := fun s' => is_Some (port_fanin s' !! (c, o.1.1)));
    [intros s1 kc _; apply seed_cell_mono |].
  unfold seed_cell. simpl. rewrite Hos, fold_left_app. simpl.
  apply fold_left_invariant with (P := fun s' => is_Some (port_fanin s' !! (c, o.1.1)));
    [intros s1 o' _; apply seed_output_mono |].
  rewrite seed_output_fanin, count_fanin_fold.
  unfold clocked in Hclk. apply negb_false_iff in Hclk. rewrite Hclk.
  destruct (filter _ (input_ports (ports ci))); [done |].
  rewrite lookup_insert_eq. eauto.
Qed.

(** The state in which the work-queue loop starts. *)
Lemma kahn_inv_init ctx :
  wf_context ctx ->
  kahn_inv ctx ∅ {| k_order := topographical_order (seed ctx);
                    k_fanin := port_fanin (seed ctx);
                    k_queue := topographical_order (seed ctx) |}.
Proof.
  intros Hwf. rewrite seed_order. split; simpl.
  - intros c p v Hv. destruct (seed_fanin_spec _ _ _ _ Hwf Hv) as [-> _].
    f_equal. f_equal. symmetry. apply filter_all. intros x. apply not_elem_of_empty.
  - intros c p n i (pi & Hin & Hout & Hn) Hclk Hi _.
    apply cell_ports_elem in Hin as (ci & _ & Hin & Hci).
    destruct (cell_ports_wf _ _ _ Hwf Hci) as [Hports (_ & Hnames & _)].
    rewrite Forall_forall in Hnames. pose proof (Hnames _ Hin) as Hname. simpl in Hname.
    apply (seed_fanin_complete ctx c ci (p, pi, n) Hci); simpl.
    + by apply elem_of_output_ports.
    + by rewrite Hname.
    + rewrite Hname. unfold arc_inputs in Hi. rewrite Hports in Hi.
      intros Hnil. rewrite Hnil in Hi. by apply elem_of_nil in Hi.
  - intros c i p Hin. by apply not_elem_of_empty in Hin.
  - intros j B Hj HB. apply lookup_lt_Some in HB. lia.
  - exists []. by rewrite app_nil_r.
  - by apply seed_nets_NoDup.
  - intros c p v n Hv Hout.
    destruct (seed_fanin_spec _ _ _ _ Hwf Hv) as [_ (ci & o & Hci & Ho & <- & Hs)].
    destruct (out_net_output _ _ _ _ _ Hwf Hci Hout) as (pi & Ho').
    destruct o as [[k pi'] n']. simpl in *.
    pose proof Ho as (Hk & _)%elem_of_output_ports.
    pose proof Ho' as (Hk' & _)%elem_of_output_ports.
    pose proof (ports_key_unique _ _ _ _ _ _ Hwf Hci Hk Hk') as ->.
    pose proof Ho as (_ & Hn1 & _)%elem_of_output_ports.
    pose proof Ho' as (_ & Hn2 & _)%elem_of_output_ports.
    assert (n' = n) as -> by congruence.
    by apply (unseeded_not_seed ctx c ci (k, pi, n) Hwf Hci).
Qed.

(** ** The invariant of the work-queue loop *)

Lemma filter_ext_in {A : Type} (P Q : A -> Prop)
  `{forall x, Decision (P x)} `{forall x, Decision (Q x)} (l : list A) :
  (forall x, x ∈ l -> (P x <-> Q x)) -> filter P l = filter Q l.
Proof.
  induction l as [|x l IH]; intros Hiff; [done |].
  rewrite !filter_cons.
  assert (HPQ : P x <-> Q x) by (apply Hiff; by left).
  assert (Hl : filter P l = filter Q l) by (apply IH; intros y Hy; apply Hiff; by right).
  destruct (decide (P x)), (decide (Q x)); rewrite ?Hl; try done; tauto.
Qed.

(** Removing one element that satisfies the predicate from the count. *)
Lemma filter_pick_length {A : Type} (P Q : A -> Prop)
  `{forall x, Decision (P x)} `{forall x, Decision (Q x)} (l : list A) (a : A) :
  NoDup l -> a ∈ l -> P a -> ~ Q a -> (forall x, x <> a -> (Q x <-> P x)) ->
  length (filter P l) = S (length (filter Q l)).
Proof.
  induction l as [|x l IH]; intros Hnd Ha HP HQ Hiff; [by inversion Ha |].
  apply NoDup_cons in Hnd as [Hx Hnd]. rewrite !filter_cons.
  apply elem_of_cons in Ha as [<-|Ha].
  - rewrite decide_True by done. rewrite decide_False by done. simpl. f_equal.
    f_equal. apply filter_ext_in. intros y Hy. symmetry. apply Hiff. congruence.
  - assert (x <> a) by congruence.
    specialize (IH Hnd Ha HP HQ Hiff).
    destruct (decide (P x)) as [HPx|HPx], (decide (Q x)) as [HQx|HQx]; simpl.
    + by rewrite IH.
    + exfalso. apply HQx. by apply Hiff.
    + exfalso. apply HPx. by apply Hiff.
    + exact IH.
Qed.

Lemma cell_ports_NoDup ctx c : wf_context ctx -> NoDup (fst <$> cell_ports ctx c).
Proof.
  intros Hwf. unfold cell_ports.
  destruct (assoc c (cells ctx)) as [ci|] eqn:Hc; [| constructor].
  apply assoc_elem_of in Hc. by destruct (cell_ports_wf _ _ _ Hwf Hc) as [_ (? & _)].
Qed.

Lemma arc_inputs_NoDup ctx c p : wf_context ctx -> NoDup (arc_inputs ctx c p).
Proof.
  intros Hwf. unfold arc_inputs. apply NoDup_filter, input_ports_NoDup.
  by apply cell_ports_NoDup.
Qed.

Lemma arc_inputs_bound ctx c p (P : Z -> Prop) `{forall x, Decision (P x)} :
  wf_context ctx -> Z.of_nat (length (filter P (arc_inputs ctx c p))) < 2 ^ 32.
Proof.
  intros Hwf. pose proof (length_filter P (arc_inputs ctx c p)).
  unfold arc_inputs in *.
  pose proof (length_filter (fun i => is_Some (getCellDelay ctx c i p))
                (input_ports (cell_ports ctx c))).
  pose proof (input_ports_length (cell_ports ctx c)).
  assert (Z.of_nat (length (cell_ports ctx c)) < 2 ^ 32); [| lia].
  unfold cell_ports. destruct (assoc c (cells ctx)) as [ci|] eqn:Hc; [| simpl; lia].
  apply assoc_elem_of in Hc. by destruct (cell_ports_wf _ _ _ Hwf Hc) as [_ (_ & _ & ? & _)].
Qed.

(** The arc followed from a user is one of the arcs counted by the
    in-degree of the output it leads to. *)
Lemma user_arc_input ctx n u kp :
  wf_context ctx -> u ∈ net_users (nets ctx) n -> arc_hit ctx u kp = true ->
  port u ∈ arc_inputs ctx (cell u) kp.1.
Proof.
  intros Hwf Hu (n' & dc & _ & _ & Hd)%arc_hit_true.
  apply (wf_user _ _ _ Hwf), user_bound_inv in Hu as (pi & Hin & Hn & Ho).
  unfold arc_inputs. apply list_elem_of_filter. split; [by rewrite Hd |].
  apply elem_of_input_ports. exists pi. rewrite Hn. eauto.
Qed.

(** Following one more arc [(c, i, p)], from a user of a net of the order. *)
Lemma kahn_inv_follow ctx T k c i p n0 (j0 : nat) v :
  wf_context ctx -> kahn_inv ctx T k ->
  k_order k !! j0 = Some n0 -> (c, i) ∈ userports ctx n0 ->
  i ∈ arc_inputs ctx c p -> (c, i, p) ∉ T ->
  k_fanin k !! (c, p) = Some v ->
  u32 (v - 1)
  = Z.of_nat (length (filter (fun i' => (c, i', p) ∉ {[(c, i, p)]} ∪ T)
                             (arc_inputs ctx c p)))
  /\ (forall c' p', (c', p') <> (c, p) ->
        filter (fun i' => (c', i', p') ∉ {[(c, i, p)]} ∪ T) (arc_inputs ctx c' p')
        = filter (fun i' => (c', i', p') ∉ T) (arc_inputs ctx c' p'))
  /\ (forall c1 i1 p1, (c1, i1, p1) ∈ {[(c, i, p)]} ∪ T ->
        exists (j : nat) n, k_order k !! j = Some n /\ (c1, i1) ∈ userports ctx n).
Proof.
  intros Hwf Hinv Hj0 Hu Hi Hfresh Hv. split; [| split].
  - rewrite (inv_count _ _ _ Hinv _ _ _ Hv).
    rewrite (filter_pick_length (fun i' => (c, i', p) ∉ T)
               (fun i' => (c, i', p) ∉ {[(c, i, p)]} ∪ T) _ i
               (arc_inputs_NoDup _ _ _ Hwf) Hi Hfresh).
    + pose proof (arc_inputs_bound ctx c p
                    (fun i' => (c, i', p) ∉ {[(c, i, p)]} ∪ T) Hwf).
      rewrite u32_small; lia.
    + intros Hn. apply Hn, elem_of_union. left. by apply elem_of_singleton.
    + intros x Hx. rewrite elem_of_union, elem_of_singleton. split; [tauto |].
      intros Hn [Heq|Hin]; [inversion Heq; congruence | tauto].
  - intros c' p' Hne. apply list_filter_iff. intros x.
    rewrite elem_of_union, elem_of_singleton. split; [tauto |].
    intros Hn [Heq|Hin]; [inversion Heq; congruence | tauto].
  - intros c1 i1 p1 [Heq%elem_of_singleton|Hin]%elem_of_union.
    + inversion Heq; subst. eauto.
    + by eapply inv_followed.
Qed.

Lemma userport_elem ctx n u :
  u ∈ net_users (nets ctx) n -> (cell u, port u) ∈ userports ctx n.
Proof. intros Hu. unfold userports. apply list_elem_of_fmap. by exists u. Qed.

(** One step of the innermost loop keeps the invariant; when the step
    follows an arc, the arc joins the followed ones. *)
Lemma visit_port_follows ctx T k usr kp k' n0 (j0 : nat) :
  wf_context ctx -> kahn_inv ctx T k ->
  k_order k !! j0 = Some n0 -> usr ∈ net_users (nets ctx) n0 ->
  clocked ctx (cell usr) (port usr) = false ->
  kp ∈ cell_ports ctx (cell usr) ->
  (cell usr, port usr, kp.1) ∉ T ->
  visit_port ctx usr k kp = Ok k' ->
  exists T' app,
    kahn_inv ctx T' k'
    /\ k_order k' = k_order k ++ app /\ k_queue k' = k_queue k ++ app
    /\ (forall a, a ∈ T' -> a ∈ T \/ a = (cell usr, port usr, kp.1))
    /\ (forall a, a ∈ T -> a ∈ T')
    /\ (arc_hit ctx usr kp = true -> (cell usr, port usr, kp.1) ∈ T').
Proof.
  intros Hwf Hinv Hj0 Hu Hclk Hkp Hfresh H.
  apply visit_port_Ok in H as [[Hmiss ->]|(n & v & Hn & Hhit & Hv & Hcase)].
  { exists T, []. rewrite !app_nil_r. split; [done |]. split; [done |].
    split; [done |]. split; [intros a Ha; by left |]. split; [done |]. congruence. }
  pose proof (userport_elem _ _ _ Hu) as Hup.
  pose proof (user_arc_input _ _ _ _ Hwf Hu Hhit) as Hi.
  destruct (kahn_inv_follow _ _ _ _ _ _ _ _ _ Hwf Hinv Hj0 Hup Hi Hfresh Hv)
    as (Hcnt & Hother & Hfol).
  pose proof (arc_hit_out_net _ _ _ _ Hkp Hn Hhit) as Hout.
  exists ({[(cell usr, port usr, kp.1)]} ∪ T).
  assert (HT : forall a, a ∈ {[(cell usr, port usr, kp.1)]} ∪ T
                         -> a ∈ T \/ a = (cell usr, port usr, kp.1)).
  { intros a [Ha%elem_of_singleton|Ha]%elem_of_union; [by right | by left]. }
  assert (HT2 : forall a, a ∈ T -> a ∈ {[(cell usr, port usr, kp.1)]} ∪ T)
    by (intros a Ha; apply elem_of_union; by right).
  assert (HT3 : arc_hit ctx usr kp = true
                -> (cell usr, port usr, kp.1) ∈ {[(cell usr, port usr, kp.1)]} ∪ T)
    by (intros _; apply elem_of_union; left; by apply elem_of_singleton).
  destruct Hcase as [[Hz ->]|[Hnz ->]].
  - exists [n]. split; [| done]. split; simpl.
    + intros c p v' Hv'.
      destruct (decide ((cell usr, kp.1) = (c, p))) as [Heq|Hne].
      * rewrite <- Heq, lookup_delete_eq in Hv'. discriminate.
      * rewrite lookup_delete_ne in Hv' by done.
        rewrite Hother by congruence. by eapply inv_count.
    + intros c p n' i Hout' Hclk' Hi' Hnin.
      destruct (decide ((cell usr, kp.1) = (c, p))) as [Heq|Hne].
      * exfalso. inversion Heq; subst c p.
        assert (Hmem : i ∈ filter (fun i0 => (cell usr, i0, kp.1)
                                               ∉ {[(cell usr, port usr, kp.1)]} ∪ T)
                                  (arc_inputs ctx (cell usr) kp.1))
          by (by apply list_elem_of_filter).
        rewrite Hz in Hcnt.
        destruct (filter _ (arc_inputs ctx (cell usr) kp.1)); [by inversion Hmem |].
        simpl in Hcnt. lia.
      * rewrite lookup_delete_ne by done.
        apply (inv_entry _ _ _ Hinv c p n' i Hout' Hclk' Hi').
        intros Hin. apply Hnin, elem_of_union. by right.
    + intros c i p Hin. destruct (Hfol c i p Hin) as (j & m & Hj & Hm).
      exists j, m. split; [by apply lookup_app_l_Some | done].
    + intros j B Hj HB. apply lookup_app_Some in HB as [HB|[Hlen HB]].
      * destruct (inv_placed _ _ _ Hinv j B Hj HB)
          as [(j1 & A & Hlt1 & Hj1 & HA) (c & p & Hout' & Harcs)].
        split; [exists j1, A; split; [done |];
                split; [by apply lookup_app_l_Some | done] |].
        exists c, p. split; [done |]. intros i Hi'.
        destruct (Harcs i Hi') as (j' & m & Hlt & Hj' & Hm).
        exists j', m. split; [done |]. split; [by apply lookup_app_l_Some | done].
      * apply list_lookup_singleton_Some in HB as [Hidx <-].
        split.
        { exists j0, n0. split; [apply lookup_lt_Some in Hj0; lia |].
          split; [by apply lookup_app_l_Some |].
          pose proof Hhit as (n' & dc & Hn' & Hio & Hd)%arc_hit_true.
          exists usr, kp. rewrite Hd. eauto 10. }
        exists (cell usr), kp.1. split; [done |]. intros i' Hi'.
        assert (Hin : (cell usr, i', kp.1) ∈ {[(cell usr, port usr, kp.1)]} ∪ T).
        { destruct (decide ((cell usr, i', kp.1) ∈ {[(cell usr, port usr, kp.1)]} ∪ T))
            as [|Hnin]; [done |]. exfalso.
          assert (Hmem : i' ∈ filter (fun i0 => (cell usr, i0, kp.1)
                                                  ∉ {[(cell usr, port usr, kp.1)]} ∪ T)
                                     (arc_inputs ctx (cell usr) kp.1))
            by (by apply list_elem_of_filter).
          rewrite Hz in Hcnt.
          destruct (filter _ (arc_inputs ctx (cell usr) kp.1)); [by inversion Hmem |].
          simpl in Hcnt. lia. }
        destruct (Hfol _ _ _ Hin) as (j' & m & Hj' & Hm).
        exists j', m. split; [apply lookup_lt_Some in Hj'; lia |].
        split; [by apply lookup_app_l_Some | done].
    + destruct (inv_seeds _ _ _ Hinv) as [app Happ]. exists (app ++ [n]).
      by rewrite Happ, app_assoc.
    + apply NoDup_app. split; [by eapply inv_nodup |]. split; [| apply NoDup_singleton].
      intros x Hx Hx'. apply list_elem_of_singleton in Hx' as ->.
      by apply (inv_pending _ _ _ Hinv _ _ _ _ Hv Hout).
    + intros c p v' n' Hv' Hout' Hin.
      destruct (decide ((cell usr, kp.1) = (c, p))) as [Heq|Hne].
      * rewrite <- Heq, lookup_delete_eq in Hv'. discriminate.
      * rewrite lookup_delete_ne in Hv' by done.
        apply elem_of_app in Hin as [Hin|Hin].
        -- by apply (inv_pending _ _ _ Hinv _ _ _ _ Hv' Hout').
        -- apply list_elem_of_singleton in Hin as ->.
           apply Hne. symmetry. by eapply out_net_unique.
  - exists []. rewrite !app_nil_r. split; [| done]. split; simpl.
    + intros c p v' Hv'.
      destruct (decide ((cell usr, kp.1) = (c, p))) as [Heq|Hne].
      * rewrite <- Heq, lookup_insert_eq in Hv'. inversion Hv'; subst v'.
        inversion Heq; subst. exact Hcnt.
      * rewrite lookup_insert_ne in Hv' by done.
        rewrite Hother by congruence. by eapply inv_count.
    + intros c p n' i Hout' Hclk' Hi' Hnin.
      destruct (decide ((cell usr, kp.1) = (c, p))) as [Heq|Hne].
      * rewrite <- Heq, lookup_insert_eq. eauto.
      * rewrite lookup_insert_ne by done.
        apply (inv_entry _ _ _ Hinv c p n' i Hout' Hclk' Hi').
        intros Hin. apply Hnin, elem_of_union. by right.
    + exact Hfol.
    + by eapply inv_placed.
    + by eapply inv_seeds.
    + by eapply inv_nodup.
    + intros c p v' n' Hv' Hout'.
      destruct (decide ((cell usr, kp.1) = (c, p))) as [Heq|Hne].
      * inversion Heq; subst. by apply (inv_pending _ _ _ Hinv _ _ _ _ Hv Hout').
      * rewrite lookup_insert_ne in Hv' by done.
        by apply (inv_pending _ _ _ Hinv _ _ _ _ Hv' Hout').
Qed.

Lemma visit_port_inv ctx T k usr kp k' n0 (j0 : nat) :
  wf_context ctx -> kahn_inv ctx T k ->
  k_order k !! j0 = Some n0 -> usr ∈ net_users (nets ctx) n0 ->
  clocked ctx (cell usr) (port usr) = false ->
  kp ∈ cell_ports ctx (cell usr) ->
  (cell usr, port usr, kp.1) ∉ T ->
  visit_port ctx usr k kp = Ok k' ->
  exists T' app,
    kahn_inv ctx T' k'
    /\ k_order k' = k_order k ++ app /\ k_queue k' = k_queue k ++ app
    /\ forall a, a ∈ T' -> a ∈ T \/ a = (cell usr, port usr, kp.1).
Proof.
  intros Hwf Hinv Hj0 Hu Hclk Hkp Hfresh H.
  destruct (visit_port_follows _ _ _ _ _ _ _ _ Hwf Hinv Hj0 Hu Hclk Hkp Hfresh H)
    as (T' & app & ? & ? & ? & ? & _).
  by exists T', app.
Qed.

Lemma visit_ports_follows ctx usr n0 (j0 : nat) :
  wf_context ctx -> usr ∈ net_users (nets ctx) n0 ->
  clocked ctx (cell usr) (port usr) = false ->
  forall ps T k k',
    kahn_inv ctx T k -> k_order k !! j0 = Some n0 ->
    (forall kp, kp ∈ ps -> kp ∈ cell_ports ctx (cell usr)) ->
    NoDup (fst <$> ps) ->
    (forall kp, kp ∈ ps -> (cell usr, port usr, kp.1) ∉ T) ->
    foldM (visit_port ctx usr) ps k = Ok k' ->
    exists T' app,
      kahn_inv ctx T' k'
      /\ k_order k' = k_order k ++ app /\ k_queue k' = k_queue k ++ app
      /\ (forall a, a ∈ T' -> a ∈ T \/ a.1 = (cell usr, port usr))
      /\ (forall a, a ∈ T -> a ∈ T')
      /\ (forall kp, kp ∈ ps -> arc_hit ctx usr kp = true ->
                     (cell usr, port usr, kp.1) ∈ T').
Proof.
  intros Hwf Hu Hclk.
  induction ps as [|kp ps IH]; intros T k k' Hinv Hj0 Hps Hnd Hfresh H.
  - simpl in H. inversion H; subst. exists T, []. rewrite !app_nil_r.
    split; [done |]. split; [done |]. split; [done |].
    split; [intros a Ha; by left |]. split; [done |].
    intros kp Hkp. by apply elem_of_nil in Hkp.
  - simpl in H. inv_bind H. simpl in Hnd. apply NoDup_cons in Hnd as [Hkp Hnd].
    destruct (visit_port_follows _ _ _ _ _ _ _ _ Hwf Hinv Hj0 Hu Hclk
                (Hps kp ltac:(by left)) (Hfresh kp ltac:(by left)) Hr)
      as (T1 & app1 & Hinv1 & Ho1 & Hq1 & HT1 & Hsub1 & Hhit1).
    destruct (IH T1 r k') as (T2 & app2 & Hinv2 & Ho2 & Hq2 & HT2 & Hsub2 & Hhit2).
    + exact Hinv1.
    + rewrite Ho1. by apply lookup_app_l_Some.
    + intros kp' Hkp'. apply Hps. by right.
    + exact Hnd.
    + intros kp' Hkp' Hin. destruct (HT1 _ Hin) as [Hin'|Heq].
      * apply (Hfresh kp'); [by right | done].
      * inversion Heq as [Hk]. apply Hkp. rewrite <- Hk.
        apply list_elem_of_fmap. by exists kp'.
    + exact H.
    + exists T2, (app1 ++ app2). split; [done |].
      split; [by rewrite Ho2, Ho1, app_assoc |].
      split; [by rewrite Hq2, Hq1, app_assoc |].
      split; [| split].
      * intros a Ha. destruct (HT2 a Ha) as [Ha1|?]; [| by right].
        destruct (HT1 a Ha1) as [?| ->]; [by left | by right].
      * intros a Ha. by apply Hsub2, Hsub1.
      * intros kp' [->|Hkp']%elem_of_cons Hhit; [by apply Hsub2, Hhit1 | by apply Hhit2].
Qed.

Lemma visit_ports_inv ctx usr n0 (j0 : nat) :
  wf_context ctx -> usr ∈ net_users (nets ctx) n0 ->
  clocked ctx (cell usr) (port usr) = false ->
  forall ps T k k',
    kahn_inv ctx T k -> k_order k !! j0 = Some n0 ->
    (forall kp, kp ∈ ps -> kp ∈ cell_ports ctx (cell usr)) ->
    NoDup (fst <$> ps) ->
    (forall kp, kp ∈ ps -> (cell usr, port usr, kp.1) ∉ T) ->
    foldM (visit_port ctx usr) ps k = Ok k' ->
    exists T' app,
      kahn_inv ctx T' k'
      /\ k_order k' = k_order k ++ app /\ k_queue k' = k_queue k ++ app
      /\ forall a, a ∈ T' -> a ∈ T \/ a.1 = (cell usr, port usr).
Proof.
  intros Hwf Hu Hclk ps T k k' Hinv Hj0 Hps Hnd Hfresh H.
  destruct (visit_ports_follows ctx usr n0 j0 Hwf Hu Hclk ps T k k' Hinv Hj0 Hps Hnd
              Hfresh H) as (T' & app & ? & ? & ? & ? & _).
  by exists T', app.
Qed.

Lemma visit_user_follows ctx T k u k' n0 (j0 : nat) :
  wf_context ctx -> kahn_inv ctx T k ->
  k_order k !! j0 = Some n0 -> u ∈ net_users (nets ctx) n0 ->
  (forall a, a ∈ T -> a.1 <> userport u) ->
  visit_user ctx k u = Ok k' ->
  exists T' app,
    kahn_inv ctx T' k'
    /\ k_order k' = k_order k ++ app /\ k_queue k' = k_queue k ++ app
    /\ (forall a, a ∈ T' -> a ∈ T \/ a.1 = userport u)
    /\ (forall a, a ∈ T -> a ∈ T')
    /\ (clocked ctx (cell u) (port u) = false ->
        forall kp, kp ∈ cell_ports ctx (cell u) -> arc_hit ctx u kp = true ->
                   (cell u, port u, kp.1) ∈ T').
Proof.
  intros Hwf Hinv Hj0 Hu Hfresh H. unfold visit_user in H.
  destruct (clocked ctx (cell u) (port u)) eqn:Hclk.
  - inversion H; subst. exists T, []. rewrite !app_nil_r.
    split; [done |]. split; [done |]. split; [done |].
    split; [intros a Ha; by left |]. split; [done |]. done.
  - destruct (visit_ports_follows ctx u n0 j0 Hwf Hu Hclk (cell_ports ctx (cell u)) T k k')
      as (T' & app & Hinv' & Ho & Hq & HT & Hsub & Hhit);
      [exact Hinv | exact Hj0 | done | by apply cell_ports_NoDup | | exact H |].
    + intros kp _ Hin. by apply (Hfresh _ Hin).
    + exists T', app. split; [done |]. split; [done |]. split; [done |].
      split; [done |]. split; [done |]. intros _. exact Hhit.
Qed.

Lemma visit_user_inv ctx T k u k' n0 (j0 : nat) :
  wf_context ctx -> kahn_inv ctx T k ->
  k_order k !! j0 = Some n0 -> u ∈ net_users (nets ctx) n0 ->
  (forall a, a ∈ T -> a.1 <> userport u) ->
  visit_user ctx k u = Ok k' ->
  exists T' app,
    kahn_inv ctx T' k'
    /\ k_order k' = k_order k ++ app /\ k_queue k' = k_queue k ++ app
    /\ forall a, a ∈ T' -> a ∈ T \/ a.1 = userport u.
Proof.
  intros Hwf Hinv Hj0 Hu Hfresh H.
  destruct (visit_user_follows _ _ _ _ _ _ _ Hwf Hinv Hj0 Hu Hfresh H)
    as (T' & app & ? & ? & ? & ? & _).
  by exists T', app.
Qed.

Lemma visit_users_follows ctx n0 (j0 : nat) :
  wf_context ctx ->
  forall us T k k',
    kahn_inv ctx T k -> k_order k !! j0 = Some n0 ->
    (forall u, u ∈ us -> u ∈ net_users (nets ctx) n0) ->
    NoDup (userport <$> us) ->
    (forall u a, u ∈ us -> a ∈ T -> a.1 <> userport u) ->
    foldM (visit_user ctx) us k = Ok k' ->
    exists T' app,
      kahn_inv ctx T' k'
      /\ k_order k' = k_order k ++ app /\ k_queue k' = k_queue k ++ app
      /\ (forall a, a ∈ T' -> a ∈ T \/ a.1 ∈ userports ctx n0)
      /\ (forall a, a ∈ T -> a ∈ T')
      /\ (forall u kp, u ∈ us -> clocked ctx (cell u) (port u) = false ->
                       kp ∈ cell_ports ctx (cell u) -> arc_hit ctx u kp = true ->
                       (cell u, port u, kp.1) ∈ T').
Proof.
  intros Hwf. induction us as [|u us IH]; intros T k k' Hinv Hj0 Hus Hnd Hfresh H.
  - simpl in H. inversion H; subst. exists T, []. rewrite !app_nil_r.
    split; [done |]. split; [done |]. split; [done |].
    split; [intros a Ha; by left |]. split; [done |].
    intros u kp Hu. by apply elem_of_nil in Hu.
  - simpl in H. inv_bind H. simpl in Hnd. apply NoDup_cons in Hnd as [Hu Hnd].
    destruct (visit_user_follows _ _ _ _ _ _ _ Hwf Hinv Hj0 (Hus u ltac:(by left))
                (fun a Ha => Hfresh u a ltac:(by left) Ha) Hr)
      as (T1 & app1 & Hinv1 & Ho1 & Hq1 & HT1 & Hsub1 & Hhit1).
    destruct (IH T1 r k') as (T2 & app2 & Hinv2 & Ho2 & Hq2 & HT2 & Hsub2 & Hhit2).
    + exact Hinv1.
    + rewrite Ho1. by apply lookup_app_l_Some.
    + intros u' Hu'. apply Hus. by right.
    + exact Hnd.
    + intros u' a Hu' Ha Heq. destruct (HT1 a Ha) as [Ha'|Heq'].
      * by apply (Hfresh u' a ltac:(by right) Ha').
      * apply Hu. rewrite <- Heq', Heq. by apply list_elem_of_fmap_2.
    + exact H.
    + exists T2, (app1 ++ app2). split; [done |].
      split; [by rewrite Ho2, Ho1, app_assoc |].
      split; [by rewrite Hq2, Hq1, app_assoc |].
      split; [| split].
      * intros a Ha. destruct (HT2 a Ha) as [Ha1|?]; [| by right].
        destruct (HT1 a Ha1) as [?|Heq]; [by left |]. right. rewrite Heq.
        apply userport_elem, Hus. by left.
      * intros a Ha. by apply Hsub2, Hsub1.
      * intros u' kp [->|Hu']%elem_of_cons Hclk Hkp Hhit.
        -- by apply Hsub2, Hhit1.
        -- by apply Hhit2.
Qed.

Lemma visit_users_inv ctx n0 (j0 : nat) :
  wf_context ctx ->
  forall us T k k',
    kahn_inv ctx T k -> k_order k !! j0 = Some n0 ->
    (forall u, u ∈ us -> u ∈ net_users (nets ctx) n0) ->
    NoDup (userport <$> us) ->
    (forall u a, u ∈ us -> a ∈ T -> a.1 <> userport u) ->
    foldM (visit_user ctx) us k = Ok k' ->
    exists T' app,
      kahn_inv ctx T' k'
      /\ k_order k' = k_order k ++ app /\ k_queue k' = k_queue k ++ app
      /\ forall a, a ∈ T' -> a ∈ T \/ a.1 ∈ userports ctx n0.
Proof.
  intros Hwf us T k k' Hinv Hj0 Hus Hnd Hfresh H.
  destruct (visit_users_follows ctx n0 j0 Hwf us T k k' Hinv Hj0 Hus Hnd Hfresh H)
    as (T' & app & ? & ? & ? & ? & _).
  by exists T', app.
Qed.

Lemma kahn_inv_queue ctx T k q :
  kahn_inv ctx T k ->
  kahn_inv ctx T {| k_order := k_order k; k_fanin := k_fanin k; k_queue := q |}.
Proof. intros [? ? ? ? ? ? ?]. by split. Qed.

(** The invariant holds when the work-queue loop ends, and every arc that
    leaves an unclocked user of a net of the order has been followed. *)
Lemma drain_follows ctx :
  wf_context ctx ->
  forall fuel k k' T visited,
    k_order k = visited ++ k_queue k -> kahn_inv ctx T k ->
    (forall a, a ∈ T -> exists n, n ∈ visited /\ a.1 ∈ userports ctx n) ->
    (forall a, followed_by ctx visited a -> a ∈ T) ->
    drain fuel ctx k = Ok k' ->
    exists T', kahn_inv ctx T' k'
               /\ forall a, followed_by ctx (k_order k') a -> a ∈ T'.
Proof.
  intros Hwf.
  induction fuel as [|fuel IH]; intros k k' T visited Hord Hinv HT HF H; simpl in H.
  - destruct (k_queue k); [| discriminate]. inversion H; subst.
    rewrite app_nil_r in Hord. rewrite Hord. eauto.
  - destruct (k_queue k) as [|n0 q] eqn:Hq.
    { inversion H; subst. rewrite app_nil_r in Hord. rewrite Hord. eauto. }
    inv_bind H.
    destruct (visit_users_follows ctx n0 (length visited) Hwf (net_users (nets ctx) n0) T
                {| k_order := k_order k; k_fanin := k_fanin k; k_queue := q |} r)
      as (T1 & app & Hinv1 & Ho1 & Hq1 & HT1 & Hsub1 & Hhit1).
    + by apply kahn_inv_queue.
    + simpl. rewrite Hord. by apply list_lookup_middle.
    + done.
    + by apply wf_users_NoDup.
    + intros u a Hu Ha Heq. destruct (HT a Ha) as (n & Hn & Han).
      rewrite Heq in Han.
      assert (n = n0) as ->
        by (eapply userport_net_unique; [done | exact Han | by apply userport_elem]).
      pose proof (inv_nodup _ _ _ Hinv) as Hnd. rewrite Hord in Hnd.
      apply NoDup_app in Hnd as (_ & Hdisj & _). apply (Hdisj n0 Hn). by left.
    + exact Hr.
    + simpl in Ho1, Hq1. apply (IH r k' T1 (visited ++ [n0])); [| done | | | done].
      * rewrite Ho1, Hq1, Hord, <- !app_assoc. done.
      * intros a Ha. destruct (HT1 a Ha) as [Ha'|Ha'].
        -- destruct (HT a Ha') as (n & Hn & Han). exists n. split; [| done].
           apply elem_of_app. by left.
        -- exists n0. split; [| done]. apply elem_of_app. right. by left.
      * intros a (m & u & kp & [Hm|Hm]%elem_of_app & Hu & Hclk & Hkp & Hhit & ->).
        -- apply Hsub1, HF. exists m, u, kp. done.
        -- apply list_elem_of_singleton in Hm as ->. by apply Hhit1.
Qed.



Lemma linearize_follows ctx k :
  wf_context ctx -> linearize ctx = Ok k ->
  exists T, kahn_inv ctx T k /\ forall a, followed_by ctx (k_order k) a -> a ∈ T.
Proof.
  intros Hwf H. unfold linearize in H.
  eapply (drain_follows ctx Hwf _
            {| k_order := topographical_order (seed ctx);
               k_fanin := port_fanin (seed ctx);
               k_queue := topographical_order (seed ctx) |} k ∅ []);
    [done | by apply kahn_inv_init | | | exact H].
  - intros a Ha. by apply not_elem_of_empty in Ha.
  - intros a (m & _ & _ & Hm & _). by apply elem_of_nil in Hm.
Qed.

(** ** The linearizer completes on well-formed netlists *)

(** An arc followed from an unclocked user leads to an unclocked output. *)
Lemma unclocked_arc_target ctx usr n0 kp :
  wf_context ctx -> usr ∈ net_users (nets ctx) n0 ->
  clocked ctx (cell usr) (port usr) = false ->
  kp ∈ cell_ports ctx (cell usr) -> arc_hit ctx usr kp = true ->
  clocked ctx (cell usr) kp.1 = false.
Proof.
  intros Hwf Hu Hclk Hkp (n & dc & Hn & Ho & Hd)%arc_hit_true.
  destruct (clocked ctx (cell usr) kp.1) eqn:Hc; [| done]. exfalso.
  apply cell_ports_elem in Hkp as (ci & _ & Hkp & Hci).
  destruct (cell_ports_wf _ _ _ Hwf Hci) as [Hports (_ & Hnames & _ & Hseeds)].
  rewrite Forall_forall in Hnames. pose proof (Hnames _ Hkp) as Hname.
  unfold seeds_have_no_arc in Hseeds. rewrite Forall_forall in Hseeds.
  destruct kp as [k pi]. simpl in *.
  assert (Hout : (k, pi, n) ∈ output_ports (ports ci)) by (by apply elem_of_output_ports).
  assert (Hs : seeded ctx (cell usr, ci) (k, pi, n) = true).
  { unfold seeded. simpl. by rewrite Hname, Hc. }
  specialize (Hseeds _ Hout Hs). rewrite Forall_forall in Hseeds. simpl in Hseeds.
  apply (wf_user _ _ _ Hwf), user_bound_inv in Hu as (pi' & Hin & Hnet & Hnout).
  rewrite Hports in Hin.
  assert (Hi : port usr ∈ input_ports (ports ci)).
  { apply elem_of_input_ports. exists pi'. rewrite Hnet. eauto. }
  rewrite (Hseeds _ Hi) in Hd; [done | by right].
Qed.

Lemma visit_port_total ctx T k usr kp n0 :
  wf_context ctx -> kahn_inv ctx T k ->
  usr ∈ net_users (nets ctx) n0 -> clocked ctx (cell usr) (port usr) = false ->
  kp ∈ cell_ports ctx (cell usr) -> (cell usr, port usr, kp.1) ∉ T ->
  exists k', visit_port ctx usr k kp = Ok k'.
Proof.
  intros Hwf Hinv Hu Hclk Hkp Hfresh.
  destruct (arc_hit ctx usr kp) eqn:Hhit.
  - pose proof Hhit as (n & dc & Hn & Ho & Hd)%arc_hit_true.
    destruct (inv_entry _ _ _ Hinv (cell usr) kp.1 n (port usr)) as [v Hv].
    + by eapply arc_hit_out_net.
    + by eapply unclocked_arc_target.
    + by eapply user_arc_input.
    + exact Hfresh.
    + unfold visit_port. rewrite Hn, Ho, Hd, Hv. destruct (_ =? 0); eauto.
  - exists k. unfold visit_port.
    destruct (port_net kp.2) as [n|] eqn:Hn; [| done].
    destruct (is_out kp.2) eqn:Ho; [| done].
    destruct (getCellDelay _ _ _ _) as [dc|] eqn:Hd; [| done].
    assert (arc_hit ctx usr kp = true) by (apply arc_hit_true; eauto). congruence.
Qed.

Lemma visit_ports_total ctx usr n0 (j0 : nat) :
  wf_context ctx -> usr ∈ net_users (nets ctx) n0 ->
  clocked ctx (cell usr) (port usr) = false ->
  forall ps T k,
    kahn_inv ctx T k -> k_order k !! j0 = Some n0 ->
    (forall kp, kp ∈ ps -> kp ∈ cell_ports ctx (cell usr)) ->
    NoDup (fst <$> ps) ->
    (forall kp, kp ∈ ps -> (cell usr, port usr, kp.1) ∉ T) ->
    exists k', foldM (visit_port ctx usr) ps k = Ok k'.
Proof.
  intros Hwf Hu Hclk. induction ps as [|kp ps IH]; intros T k Hinv Hj0 Hps Hnd Hfresh.
  - simpl. eauto.
  - simpl. simpl in Hnd. apply NoDup_cons in Hnd as [Hkp Hnd].
    destruct (visit_port_total _ _ _ _ _ _ Hwf Hinv Hu Hclk
                (Hps kp ltac:(by left)) (Hfresh kp ltac:(by left))) as [k1 Hk1].
    rewrite Hk1. simpl.
    destruct (visit_port_inv _ _ _ _ _ _ _ _ Hwf Hinv Hj0 Hu Hclk
                (Hps kp ltac:(by left)) (Hfresh kp ltac:(by left)) Hk1)
      as (T1 & app1 & Hinv1 & Ho1 & _ & HT1).
    apply (IH T1 k1 Hinv1).
    + rewrite Ho1. by apply lookup_app_l_Some.
    + intros kp' Hkp'. apply Hps. by right.
    + exact Hnd.
    + intros kp' Hkp' Hin. destruct (HT1 _ Hin) as [Hin'|Heq].
      * apply (Hfresh kp'); [by right | done].
      * inversion Heq as [Hk]. apply Hkp. rewrite <- Hk.
        apply list_elem_of_fmap. by exists kp'.
Qed.

Lemma visit_users_total ctx n0 (j0 : nat) :
  wf_context ctx ->
  forall us T k,
    kahn_inv ctx T k -> k_order k !! j0 = Some n0 ->
    (forall u, u ∈ us -> u ∈ net_users (nets ctx) n0) ->
    NoDup (userport <$> us) ->
    (forall u a, u ∈ us -> a ∈ T -> a.1 <> userport u) ->
    exists k', foldM (visit_user ctx) us k = Ok k'.
Proof.
  intros Hwf. induction us as [|u us IH]; intros T k Hinv Hj0 Hus Hnd Hfresh.
  - simpl. eauto.
  - simpl. simpl in Hnd. apply NoDup_cons in Hnd as [Hu Hnd].
    assert (Hstep : exists k1, visit_user ctx k u = Ok k1).
    { unfold visit_user. destruct (clocked ctx (cell u) (port u)) eqn:Hclk; [eauto |].
      eapply (visit_ports_total ctx u n0 j0 Hwf (Hus u ltac:(by left)) Hclk);
        [exact Hinv | exact Hj0 | done | by apply cell_ports_NoDup |].
      intros kp _ Hin. by apply (Hfresh u _ ltac:(by left) Hin). }
    destruct Hstep as [k1 Hk1]. rewrite Hk1. simpl.
    destruct (visit_user_inv _ _ _ _ _ _ _ Hwf Hinv Hj0 (Hus u ltac:(by left))
                (fun a Ha => Hfresh u a ltac:(by left) Ha) Hk1)
      as (T1 & app1 & Hinv1 & Ho1 & _ & HT1).
    apply (IH T1 k1 Hinv1).
    + rewrite Ho1. by apply lookup_app_l_Some.
    + intros u' Hu'. apply Hus. by right.
    + exact Hnd.
    + intros u' a Hu' Ha Heq. destruct (HT1 a Ha) as [Ha'|Heq'].
      * by apply (Hfresh u' a ltac:(by right) Ha').
      * apply Hu. rewrite <- Heq', Heq. by apply list_elem_of_fmap_2.
Qed.

(** The work-queue loop ends normally. *)
Lemma drain_total ctx :
  wf_context ctx ->
  forall fuel k T visited,
    (drain_fuel k <= fuel)%nat ->
    k_order k = visited ++ k_queue k -> kahn_inv ctx T k ->
    (forall a, a ∈ T -> exists n, n ∈ visited /\ a.1 ∈ userports ctx n) ->
    exists k', drain fuel ctx k = Ok k'.
Proof.
  intros Hwf. induction fuel as [|fuel IH]; intros k T visited Hfuel Hord Hinv HT; simpl.
  - destruct (k_queue k) as [|n0 q] eqn:Hq; [eauto |].
    unfold drain_fuel in Hfuel. rewrite Hq in Hfuel. simpl in Hfuel. lia.
  - destruct (k_queue k) as [|n0 q] eqn:Hq; [eauto |].
    assert (Hfresh : forall u a, u ∈ net_users (nets ctx) n0 -> a ∈ T -> a.1 <> userport u).
    { intros u a Hu Ha Heq. destruct (HT a Ha) as (n & Hn & Han).
      rewrite Heq in Han.
      assert (n = n0) as ->
        by (eapply userport_net_unique; [done | exact Han | by apply userport_elem]).
      pose proof (inv_nodup _ _ _ Hinv) as Hnd. rewrite Hord in Hnd.
      apply NoDup_app in Hnd as (_ & Hdisj & _). apply (Hdisj n0 Hn). by left. }
    assert (Hj0 : k_order k !! length visited = Some n0)
      by (rewrite Hord; by apply list_lookup_middle).
    destruct (visit_users_total ctx n0 (length visited) Hwf (net_users (nets ctx) n0) T
                {| k_order := k_order k; k_fanin := k_fanin k; k_queue := q |})
      as [k1 Hk1]; [by apply kahn_inv_queue | done | done | by apply wf_users_NoDup | done |].
    rewrite Hk1. simpl.
    destruct (visit_users_inv ctx n0 (length visited) Hwf (net_users (nets ctx) n0) T
                {| k_order := k_order k; k_fanin := k_fanin k; k_queue := q |} k1)
      as (T1 & app & Hinv1 & Ho1 & Hq1 & HT1);
      [by apply kahn_inv_queue | done | done | by apply wf_users_NoDup | done | done |].
    simpl in Ho1, Hq1. apply (IH k1 T1 (visited ++ [n0])); [| | done |].
    + assert (drain_fuel k1
              = drain_fuel {| k_order := k_order k; k_fanin := k_fanin k; k_queue := q |}).
      { revert Hk1. apply foldM_invariant
          with (P := fun s => drain_fuel s
                       = drain_fuel {| k_order := k_order k; k_fanin := k_fanin k;
                                       k_queue := q |}); [| done].
        intros s1 x s2 _ <-. apply visit_user_fuel. }
      unfold drain_fuel in *. rewrite Hq in Hfuel. simpl in *. lia.
    + rewrite Ho1, Hq1, Hord, <- !app_assoc. done.
    + intros a Ha. destruct (HT1 a Ha) as [Ha'|Ha'].
      * destruct (HT a Ha') as (n & Hn & Han). exists n. split; [| done].
        apply elem_of_app. by left.
      * exists n0. split; [| done]. apply elem_of_app. right. by left.
Qed.

(** On a well-formed netlist no assertion of the linearizer fails. *)
Lemma linearize_total ctx : wf_context ctx -> exists k, linearize ctx = Ok k.
Proof.
  intros Hwf. unfold linearize.
  eapply (drain_total ctx Hwf _ _ ∅ []); [done | done | by apply kahn_inv_init |].
  intros a Ha. by apply not_elem_of_empty in Ha.
Qed.

(** ** C2: leftover in-degrees *)

(** C2, refuted as stated: in the netlist [feedback] the cells 11 and 13 form
    a combinational loop; the work-queue empties with the in-degree 1 left on
    both of their outputs, and the linearizer returns the order [100] without
    the nets 101 and 102; [walk_paths] then completes and returns the target
    period as minimum slack, the register input on net 101 being skipped. *)
Lemma C2_cycle_silently_truncated :
  let ctx := Examples.feedback in
  wf_context ctx
  /\ comb_edge ctx 101 102 /\ comb_edge ctx 102 101
  /\ (exists k, linearize ctx = Ok k
        /\ k_order k = [100]
        /\ k_fanin k !! (11, 5) = Some 1 /\ k_fanin k !! (13, 5) = Some 1)
  /\ exists ctx' t', walk_paths ctx (mkTiming ctx true true None None) = Ok (ctx', t')
       /\ min_slack t' = 10.
Proof.
  split; [wf_example |]. split; [| split; [| split]].
  - exists (Examples.usr 13 4 0), (Examples.port_out 5 102).
    split; [elem_of_list |]. split; [run |]. split; [elem_of_list |].
    split; [run |]. split; [run |]. vm_compute. by eexists.
  - exists (Examples.usr 11 6 0), (Examples.port_out 5 101).
    split; [elem_of_list |]. split; [run |]. split; [elem_of_list |].
    split; [run |]. split; [run |]. vm_compute. by eexists.
  - eexists. split; [run |]. split; [run |]. split; run.
  - eexists _, _. split; run.
Qed.

(** C2, amended.  On a well-formed netlist, with or without a
    combinational loop, the linearizer completes; in general its one abnormal
    outcome is the failed assertion that an in-degree entry exists.
    In-degree entries left when the work-queue empties are not examined: the
    order reached is returned; each of its nets was seeded or is bound to an
    output whose entry was erased, so the net of an output with an entry left
    is absent from the order when that output is its only driver and it was
    not seeded. *)
Theorem C2_leftover_in_degree_not_reported ctx :
  (wf_context ctx -> exists k, linearize ctx = Ok k)
  /\ (forall e, linearize ctx = Err e -> e = AssertionFailure)
  /\ forall k, linearize ctx = Ok k ->
       k_queue k = []
       /\ order_justified ctx k
       /\ forall c p v n,
            k_fanin k !! (c, p) = Some v ->
            out_net ctx c p n ->
            (forall c' p', out_net ctx c' p' n -> (c', p') = (c, p)) ->
            n ∉ topographical_order (seed ctx) ->
            n ∉ k_order k.
Proof.
  split; [apply linearize_total |]. split.
  - intros e He. destruct (linearize_outcome ctx) as [(k & Hk & _)|Hf]; congruence.
  - intros k Hk. split.
    + destruct (linearize_outcome ctx) as [(k' & Hk' & Hq)|Hf]; congruence.
    + pose proof (linearize_justified _ _ Hk) as Hj. split; [exact Hj |].
      intros c p v n Hv Hout Huniq Hseed Hin.
      destruct (proj1 Hj n Hin) as [?|(c' & p' & Hout' & _ & Hnone)]; [done |].
      apply Huniq in Hout'. inversion Hout'; subst. congruence.
Qed.

(** The theorem at the netlist [feedback]: the in-degree 1 is left on the
    output 11.O, and its net 101 is not in the order. *)
Lemma C2_leftover_witness :
  exists k, linearize Examples.feedback = Ok k
    /\ k_fanin k !! (11, 5) = Some 1
    /\ 101 ∉ k_order k.
Proof.
  eexists. split; [run |]. split; [run |].
  assert (Hout : out_net Examples.feedback 11 5 101).
  { exists (Examples.port_out 5 101).2. split; [elem_of_list |]. split; run. }
  refine (proj2 (proj2 (proj2 (proj2 (C2_leftover_in_degree_not_reported
                                        Examples.feedback)) _ _))
            11 5 1 101 _ Hout _ _); [run | run | |].
  - intros c' p' Hout'.
    apply (out_net_unique Examples.feedback 11 5 c' p' 101); [wf_example | exact Hout | exact Hout'].
  - vm_compute. intros Hin. apply list_elem_of_In in Hin. simpl in Hin. lia.
Defined.

(** ** C8: the order respects combinational dependencies *)







(** ** The forward loop completes *)

Lemma emplace_mono n d nd m : is_Some (nd !! m) -> is_Some (emplace n d nd !! m).
Proof.
  unfold emplace. intros Hm. destruct (nd !! n) eqn:Hn; [done |].
  destruct (decide (n = m)) as [<-|Hne]; [by rewrite lookup_insert_eq |].
  by rewrite lookup_insert_ne.
Qed.

Lemma emplace_entry n d nd : is_Some (emplace n d nd !! n).
Proof.
  unfold emplace. destruct (nd !! n) eqn:Hn; [by rewrite Hn |].
  by rewrite lookup_insert_eq.
Qed.

Lemma emplace_path_lengths n d nd :
  max_path_length d = 0 -> path_lengths_le 0 nd -> path_lengths_le 0 (emplace n d nd).
Proof.
  intros Hd Hnd m d' [H|[_ ->]]%emplace_lookup; [by eapply Hnd | lia].
Qed.

(** The seeding loop creates the working record of every seed. *)
Lemma seed_data ctx :
  (forall n, n ∈ topographical_order (seed ctx) -> is_Some (net_data (seed ctx) !! n))
  /\ path_lengths_le 0 (net_data (seed ctx)).
Proof.
  unfold seed.
  apply fold_left_invariant
    with (P := fun s => (forall n, n ∈ topographical_order s -> is_Some (net_data s !! n))
                        /\ path_lengths_le 0 (net_data s)).
  - intros s kc _ Hs. unfold seed_cell. apply fold_left_invariant; [| exact Hs].
    intros s1 o _ [He Hl]. unfold seed_output.
    destruct (getPortClock ctx kc.1 (port_name o.1.2) =? 0).
    + destruct (cell_type kc.2 =? id_sb_io ctx); simpl; [| done].
      split; [| by apply emplace_path_lengths].
      intros n [Hn|Hn]%elem_of_app; [by apply emplace_mono, He |].
      apply list_elem_of_singleton in Hn as ->. apply emplace_entry.
    + simpl. split; [| by apply emplace_path_lengths].
      intros n [Hn|Hn]%elem_of_app; [by apply emplace_mono, He |].
      apply list_elem_of_singleton in Hn as ->. apply emplace_entry.
  - simpl. split; [intros n Hn; by apply elem_of_nil in Hn |].
    intros m d. by rewrite lookup_empty.
Qed.

Lemma forward_port_mono ctx net usr a l nd kp m :
  is_Some (nd !! m) -> is_Some (forward_port ctx net usr a l nd kp !! m).
Proof.
  intros Hm. unfold forward_port.
  destruct (port_net kp.2) as [n|]; [| done]. destruct (is_out kp.2); [| done].
  destruct (getCellDelay _ _ _ _); [| done].
  destruct (decide (n = m)) as [<-|Hne]; [by rewrite lookup_insert_eq |].
  by rewrite lookup_insert_ne.
Qed.

Lemma forward_port_entry ctx net usr a l nd kp B :
  arc_hit ctx usr kp = true -> port_net kp.2 = Some B ->
  is_Some (forward_port ctx net usr a l nd kp !! B).
Proof.
  intros (n & dc & Hn & Ho & Hd)%arc_hit_true HB. unfold forward_port.
  rewrite HB, Ho, Hd. by rewrite lookup_insert_eq.
Qed.

Lemma forward_port_path_lengths ctx net usr a l nd kp j :
  0 <= l <= j -> path_lengths_le j nd ->
  path_lengths_le j (forward_port ctx net usr a l nd kp).
Proof.
  intros Hl Hnd. unfold forward_port.
  destruct (port_net kp.2) as [n|]; [| done]. destruct (is_out kp.2); [| done].
  destruct (getCellDelay _ _ _ _); [| done].
  intros m d. destruct (decide (n = m)) as [<-|Hne].
  - rewrite lookup_insert_eq. intros [= <-].
    assert (0 <= max_path_length (default TimingData0 (nd !! n)) <= j) as H0.
    { destruct (nd !! n) as [d0|] eqn:Hn; simpl; [by eapply Hnd | lia]. }
    destruct (budget_override ctx net usr); simpl; lia.
  - rewrite lookup_insert_ne by done. apply Hnd.
Qed.

Lemma forward_user_mono ctx net a l nd usr m :
  is_Some (nd !! m) -> is_Some (forward_user ctx net a l nd usr !! m).
Proof.
  intros Hm. unfold forward_user. destruct (clocked _ _ _); [done |].
  apply fold_left_invariant with (P := fun s => is_Some (s !! m)); [| done].
  intros s1 kp _. apply forward_port_mono.
Qed.

Lemma forward_user_path_lengths ctx net a l nd usr j :
  0 <= l <= j -> path_lengths_le j nd ->
  path_lengths_le j (forward_user ctx net a l nd usr).
Proof.
  intros Hl Hnd. unfold forward_user. destruct (clocked _ _ _); [done |].
  apply fold_left_invariant; [| done].
  intros s1 kp _. by apply forward_port_path_lengths.
Qed.

Lemma forward_user_entry ctx net a l nd usr kp B :
  clocked ctx (cell usr) (port usr) = false ->
  kp ∈ cell_ports ctx (cell usr) ->
  arc_hit ctx usr kp = true -> port_net kp.2 = Some B ->
  is_Some (forward_user ctx net a l nd usr !! B).
Proof.
  intros Hclk Hkp Hhit HB. unfold forward_user. rewrite Hclk.
  apply list_elem_of_split in Hkp as (ps1 & ps2 & ->).
  rewrite fold_left_app. simpl.
  apply fold_left_invariant with (P := fun s => is_Some (s !! B));
    [intros s1 kp' _; apply forward_port_mono |].
  by apply forward_port_entry.
Qed.

Lemma comb_edge_hit ctx A B :
  comb_edge ctx A B <->
  exists u kp, u ∈ net_users (nets ctx) A
               /\ clocked ctx (cell u) (port u) = false
               /\ kp ∈ cell_ports ctx (cell u)
               /\ arc_hit ctx u kp = true /\ port_net kp.2 = Some B.
Proof.
  split.
  - intros (u & kp & Hu & Hclk & Hkp & Ho & Hn & [dc Hd]). exists u, kp.
    repeat (split; [done |]). split; [| done]. apply arc_hit_true. eauto.
  - intros (u & kp & Hu & Hclk & Hkp & (n & dc & Hn & Ho & Hd)%arc_hit_true & HB).
    exists u, kp. rewrite Hd. eauto 10.
Qed.

(** One step of the forward loop keeps the records, creates those of the
    nets computed from the net, and lengthens paths by at most one. *)
Lemma forward_net_entries ctx nd net nd' j :
  j + 1 < 2 ^ 32 -> path_lengths_le j nd ->
  forward_net ctx nd net = Ok nd' ->
  (forall m, is_Some (nd !! m) -> is_Some (nd' !! m))
  /\ path_lengths_le (j + 1) nd'
  /\ fed_by ctx nd' net.
Proof.
  intros Hj Hnd. unfold forward_net.
  destruct (nd !! net) as [d|] eqn:Hd; [| done]. intros [= <-].
  pose proof (Hnd _ _ Hd) as Hd0.
  assert (Hl : 0 <= u32 (max_path_length d + 1) <= j + 1)
    by (rewrite u32_small; lia).
  set (nd1 := <[net := set_min_remaining_budget d (target_period ctx)]> nd).
  assert (Hnd1 : path_lengths_le (j + 1) nd1).
  { intros m d'. unfold nd1. destruct (decide (net = m)) as [<-|Hne].
    - rewrite lookup_insert_eq. intros [= <-]. simpl. lia.
    - rewrite lookup_insert_ne by done. intros Hm. apply Hnd in Hm. lia. }
  assert (Hmono1 : forall m, is_Some (nd !! m) -> is_Some (nd1 !! m)).
  { intros m Hm. unfold nd1. destruct (decide (net = m)) as [<-|Hne];
      [by rewrite lookup_insert_eq | by rewrite lookup_insert_ne]. }
  split; [| split].
  - intros m Hm.
    apply fold_left_invariant with (P := fun s => is_Some (s !! m)); [| by apply Hmono1].
    intros s1 u _. apply forward_user_mono.
  - apply fold_left_invariant; [| done].
    intros s1 u _. by apply forward_user_path_lengths.
  - intros B (u & kp & Hu & Hclk & Hkp & Hhit & HB)%comb_edge_hit.
    apply list_elem_of_split in Hu as (us1 & us2 & ->).
    rewrite fold_left_app. simpl.
    apply fold_left_invariant with (P := fun s => is_Some (s !! B));
      [intros s1 u' _; apply forward_user_mono |].
    by apply (forward_user_entry _ _ _ _ _ _ kp).
Qed.


(** ** The backward loop completes *)











(** ** [walk_paths] completes on well-formed netlists *)





Lemma user_bound_set_nets ctx ns n u b :
  user_bound (set_nets ctx ns) n (set_budget u b) = user_bound ctx n u.
Proof. done. Qed.



(** ** C5: the global minimum slack *)



(** ** C6: a pinned connection *)



(** ** C7: repeated budgeting *)



(** ** C10: a clocked sink tightens its own net *)



(** * Further properties of the code *)

(** ** The backward loop only lowers budgets *)

Lemma tightened_refl u : tightened u u.
Proof. split; [apply same_port_refl | lia]. Qed.

Lemma tightened_trans u1 u2 u3 : tightened u1 u2 -> tightened u2 u3 -> tightened u1 u3.
Proof.
  intros [H1 H2] [H3 H4]. split; [by eapply same_port_trans | lia].
Qed.

Lemma tightened_set_budget u x : tightened u (set_budget u (Z.min (budget u) x)).
Proof. split; [apply same_port_set_budget | simpl; lia]. Qed.

Lemma Forall2_tightened_refl us : Forall2 tightened us us.
Proof. induction us; constructor; [apply tightened_refl | done]. Qed.

Lemma nets_tightened_refl ns : nets_tightened ns ns.
Proof.
  intros n. destruct (ns !! n); constructor.
  split; [done |]. split; [done | apply Forall2_tightened_refl].
Qed.

Lemma nets_tightened_trans ns1 ns2 ns3 :
  nets_tightened ns1 ns2 -> nets_tightened ns2 ns3 -> nets_tightened ns1 ns3.
Proof.
  intros H12 H23 n. specialize (H12 n). specialize (H23 n).
  destruct H12 as [n1 n2 (Hn & Hd & Hu)|]; inversion H23 as [? n3 (Hn' & Hd' & Hu')|];
    subst; constructor.
  split; [congruence |]. split; [congruence |].
  clear -Hu Hu'. revert Hu'. generalize (users n3).
  induction Hu as [|u1 u2 l1 l2 H12 _ IH]; intros l3 H; inversion H; subst; constructor.
  - by eapply tightened_trans.
  - by apply IH.
Qed.

Lemma nets_tightened_store ns n us :
  Forall2 tightened (net_users ns n) us -> nets_tightened ns (store_users ns n us).
Proof.
  intros HF m. unfold store_users, net_users in *.
  destruct (ns !! n) as [ni|] eqn:Hni; [| apply nets_tightened_refl].
  destruct (decide (m = n)) as [->|Hne].
  - rewrite lookup_insert_eq, Hni. constructor. done.
  - rewrite lookup_insert_ne by done. apply nets_tightened_refl.
Qed.

Lemma backward_port_tightened ctx net l ub kp ub' :
  backward_port ctx net l ub kp = Ok ub' -> tightened ub.1 ub'.1.
Proof.
  unfold backward_port. intros H.
  destruct (port_net kp.2); [| inversion H; apply tightened_refl].
  destruct (is_out kp.2); [| inversion H; apply tightened_refl].
  destruct (getCellDelay _ _ _ _); [| inversion H; apply tightened_refl].
  inv_bind H. inv_bind H. inv_bind H. destruct r1 as [u' nd'].
  apply distribute_Ok in Hr1 as (d & _ & -> & _).
  inversion H; subst. apply tightened_set_budget.
Qed.

Lemma backward_user_tightened ctx net l b usr usr' b' :
  backward_user ctx net l b usr = Ok (usr', b') -> tightened usr usr'.
Proof.
  unfold backward_user. intros H. destruct (clocked _ _ _).
  - inv_bind H. inv_bind H. inv_bind H. destruct r1 as [u' nd'].
    apply distribute_Ok in Hr1 as (d & _ & -> & _).
    inversion H; subst. apply tightened_set_budget.
  - change usr with (usr, b).1. change usr' with (usr', b').1.
    revert H. apply foldM_invariant with (P := fun ub => tightened (usr, b).1 ub.1).
    + intros s1 x s2 _ Hs1 Hstep. eapply tightened_trans; [exact Hs1 |].
      by eapply backward_port_tightened.
    + apply tightened_refl.
Qed.

Lemma backward_net_tightened ctx nb net nb' :
  backward_net ctx nb net = Ok nb' -> nets_tightened nb.1 nb'.1.
Proof.
  unfold backward_net. intros H. inv_bind H. inv_bind H. destruct r0 as [us b'].
  inversion H; subst. simpl. apply nets_tightened_store.
  eapply mapM_state_Forall2; [| exact Hr0].
  intros s0 x x' s1. apply backward_user_tightened.
Qed.

Lemma backward_tightened ctx order nb nb' :
  backward ctx order nb = Ok nb' -> nets_tightened nb.1 nb'.1.
Proof.
  unfold backward.
  apply foldM_invariant with (P := fun s => nets_tightened nb.1 s.1);
    [| apply nets_tightened_refl].
  intros s1 x s2 _ Hs1 Hstep. eapply nets_tightened_trans; [exact Hs1 |].
  by eapply backward_net_tightened.
Qed.

(** X1.  [walk_paths] changes nothing of the netlist but budgets, which it only
    lowers; of the [Timing] it changes the minimum slack, which it only
    lowers, and the histogram. *)
Theorem X1_walk_paths_only_lowers_budgets ctx t ctx' t' :
  walk_paths ctx t = Ok (ctx', t') ->
  ctx' = set_nets ctx (nets ctx')
  /\ nets_tightened (nets ctx) (nets ctx')
  /\ net_delays t' = net_delays t /\ update t' = update t
  /\ current_path t' = current_path t /\ crit_path t' = crit_path t
  /\ min_slack t' <= min_slack t.
Proof.
  intros H. apply walk_paths_Ok in H as (k & nd & nb & _ & _ & Hb & -> & ->).
  split; [reflexivity |]. split; [by apply backward_tightened in Hb |].
  repeat (split; [reflexivity |]). simpl.
  destruct nb as [ns' b']. unfold backward in Hb.
  assert (Hle : backward_le {| b_data := nd; b_min_slack := min_slack t;
                               b_histogram := slack_histogram t |} b').
  { change b' with (ns', b').2.
    revert Hb. apply foldM_invariant
      with (P := fun s : gmap Z NetInfo * Backward =>
                   backward_le {| b_data := nd; b_min_slack := min_slack t;
                                  b_histogram := slack_histogram t |} s.2);
      [| apply backward_le_refl].
    intros [ns1 b1] x [ns2 b2] _ Hs1 Hstep. simpl in *.
    eapply backward_le_trans; [exact Hs1 |].
    by apply backward_net_min_slack in Hstep as [? _]. }
  by destruct Hle as [_ Hle].
Qed.

(** The theorem at the pipeline with stored budgets 100 and 1. *)
Lemma X1_walk_paths_only_lowers_budgets_witness :
  exists ctx' t',
    walk_paths (Examples.pipeline 4 0 100 1 1 false 10)
               (mkTiming (Examples.pipeline 4 0 100 1 1 false 10) true false None None)
    = Ok (ctx', t')
    /\ nets_tightened (nets (Examples.pipeline 4 0 100 1 1 false 10)) (nets ctx')
    /\ budget_at ctx' 100 0 = Some 6 /\ budget_at ctx' 101 0 = Some 1.
Proof.
  eexists _, _. split; [vm_compute; reflexivity |].
  split; [| split; vm_compute; reflexivity].
  refine (proj1 (proj2 (X1_walk_paths_only_lowers_budgets
                          (Examples.pipeline 4 0 100 1 1 false 10)
                          (mkTiming (Examples.pipeline 4 0 100 1 1 false 10)
                                    true false None None) _ _ _)));
    vm_compute; reflexivity.
Defined.

(** ** Connections the backward loop does not reach *)

Lemma backward_ports_no_arc ctx net l usr b ps :
  (forall kp, kp ∈ ps -> arc_hit ctx usr kp = false) ->
  foldM (backward_port ctx net l) ps (usr, b) = Ok (usr, b).
Proof.
  induction ps as [|kp ps IH]; intros Hmiss; simpl; [done |].
  rewrite backward_port_miss by (apply Hmiss; by left). simpl.
  apply IH. intros kp' Hkp'. apply Hmiss. by right.
Qed.

Lemma has_arc_false ctx usr kp :
  has_arc ctx usr = false -> kp ∈ cell_ports ctx (cell usr) -> arc_hit ctx usr kp = false.
Proof.
  unfold has_arc. intros H Hkp. apply not_true_is_false. intros Hhit.
  assert (existsb (arc_hit ctx usr) (cell_ports ctx (cell usr)) = true); [| congruence].
  apply existsb_exists. exists kp. split; [by apply list_elem_of_In | done].
Qed.

Lemma backward_user_no_arc ctx net l b usr :
  clocked ctx (cell usr) (port usr) = false -> has_arc ctx usr = false ->
  backward_user ctx net l b usr = Ok (usr, b).
Proof.
  intros Hclk Harc. unfold backward_user. rewrite Hclk.
  apply backward_ports_no_arc. intros kp. by apply has_arc_false.
Qed.

Lemma backward_net_untouched ctx ns b m ns' b' n i usr :
  backward_net ctx (ns, b) m = Ok (ns', b') ->
  net_users ns n !! i = Some usr ->
  m <> n \/ (clocked ctx (cell usr) (port usr) = false /\ has_arc ctx usr = false) ->
  net_users ns' n !! i = Some usr.
Proof.
  intros H Hi Hcase. unfold backward_net in H. inv_bind H. inv_bind H.
  destruct r0 as [us b1]. inversion H; subst. simpl in Hr0.
  destruct (decide (m = n)) as [->|Hne].
  - destruct Hcase as [? | [Hclk Harc]]; [done |].
    destruct (mapM_state_lookup (fun _ _ => True) (backward_user ctx n _)
                (fun _ => I) (fun _ _ _ _ _ => I) (fun _ _ _ _ _ => I)
                _ _ _ _ _ _ Hr0 Hi)
      as (s0 & s1 & x' & _ & Hf & _ & Hl).
    rewrite backward_user_no_arc in Hf by done. inversion Hf; subst.
    rewrite net_users_store_eq; [done |].
    unfold net_users in Hi. destruct (ns !! n); [eauto | destruct i; discriminate].
  - by rewrite net_users_store_ne.
Qed.

Lemma backward_untouched ctx n i usr l :
  n ∉ l \/ (clocked ctx (cell usr) (port usr) = false /\ has_arc ctx usr = false) ->
  forall ns b ns' b',
    foldM (backward_net ctx) l (ns, b) = Ok (ns', b') ->
    net_users ns n !! i = Some usr -> net_users ns' n !! i = Some usr.
Proof.
  induction l as [|m l IH]; intros Hcase ns b ns' b' H Hi; simpl in H.
  - by inversion H; subst.
  - inv_bind H. destruct r as [ns1 b1]. eapply IH; [| exact H |].
    + destruct Hcase as [Hn | ?]; [left | by right].
      intros Hin. apply Hn. by right.
    + eapply backward_net_untouched; [exact Hr | exact Hi |].
      destruct Hcase as [Hn | ?]; [left | by right].
      intros ->. apply Hn. by left.
Qed.

(** X2.  A connection keeps its budget through [walk_paths] when its net is
    not in the linear order, or when its sink is not clocked and has no
    combinational arc to a net-bound output of its cell. *)
Theorem X2_unreached_connection_keeps_budget ctx t ctx' t' k n i usr :
  walk_paths ctx t = Ok (ctx', t') ->
  linearize ctx = Ok k ->
  net_users (nets ctx) n !! i = Some usr ->
  n ∉ k_order k
  \/ (clocked ctx (cell usr) (port usr) = false /\ has_arc ctx usr = false) ->
  net_users (nets ctx') n !! i = Some usr.
Proof.
  intros H Hk Hi Hcase.
  apply walk_paths_Ok in H as (k' & nd & nb & Hk' & _ & Hb & -> & _).
  rewrite Hk in Hk'. inversion Hk'; subst k'. destruct nb as [ns' b'].
  unfold backward in Hb. simpl.
  eapply (backward_untouched ctx n i usr (rev (k_order k))); [| exact Hb | exact Hi].
  destruct Hcase as [Hn | ?]; [left | by right].
  intros Hin. apply Hn. by apply elem_of_rev.
Qed.

(** The theorem at the sink 14.I of [pinned], which has no arc. *)
Lemma X2_unreached_connection_witness :
  exists ctx' t',
    walk_paths Examples.pinned (mkTiming Examples.pinned true true None None)
    = Ok (ctx', t')
    /\ net_users (nets ctx') 101 !! 1%nat = Some (Examples.usr 14 4 0).
Proof.
  eexists _, _. split; [vm_compute; reflexivity |].
  refine (X2_unreached_connection_keeps_budget
            Examples.pinned (mkTiming Examples.pinned true true None None) _ _
            {| k_order := [100; 101]; k_fanin := ∅; k_queue := [] |}
            101 1%nat (Examples.usr 14 4 0) _ _ _ _).
  - vm_compute; reflexivity.
  - vm_compute; reflexivity.
  - vm_compute; reflexivity.
  - right. split; vm_compute; reflexivity.
Defined.

(** ** The samples of the slack histogram *)








(** ** The forward loop: arrival times bound every path *)
















Lemma forward_path_lengths ctx l :
  forall j nd nd',
    0 <= j -> j + Z.of_nat (length l) < 2 ^ 32 -> path_lengths_le j nd ->
    foldM (forward_net ctx) l nd = Ok nd' ->
    path_lengths_le (j + Z.of_nat (length l)) nd'.
Proof.
  induction l as [|n l IH]; intros j nd nd' Hj Hlen Hpl H; simpl in H.
  - inversion H; subst. simpl. by rewrite Z.add_0_r.
  - inv_bind H. simpl length in *.
    destruct (forward_net_entries ctx nd n r j ltac:(lia) Hpl Hr) as (_ & Hpl1 & _).
    replace (j + Z.of_nat (S (length l))) with (j + 1 + Z.of_nat (length l)) by lia.
    eapply IH; [| | exact Hpl1 | exact H]; lia.
Qed.





(** ** The records left by the forward loop *)

Lemma seed_remaining ctx m : remaining (net_data (seed ctx)) m = 0.
Proof.
  unfold seed.
  apply fold_left_invariant with (P := fun s => remaining (net_data s) m = 0);
    [| unfold remaining; simpl; by rewrite lookup_empty].
  intros s kc _ Hs. unfold seed_cell. apply fold_left_invariant; [| exact Hs].
  intros s1 o _ H1. unfold seed_output.
  assert (Hemp : forall d, min_remaining_budget d = 0 ->
                           remaining (emplace o.2 d (net_data s1)) m = 0).
  { intros d Hd. unfold remaining, emplace in *.
    destruct (net_data s1 !! o.2) eqn:Ho; [done |].
    destruct (decide (o.2 = m)) as [<-|Hne];
      [by rewrite lookup_insert_eq | by rewrite lookup_insert_ne]. }
  destruct (getPortClock ctx kc.1 (port_name o.1.2) =? 0).
  - destruct (cell_type kc.2 =? id_sb_io ctx); simpl; [by apply Hemp | done].
  - simpl. by apply Hemp.
Qed.

Lemma forward_port_remaining ctx net usr ua l nd kp m :
  remaining (forward_port ctx net usr ua l nd kp) m = remaining nd m.
Proof.
  unfold forward_port, remaining.
  destruct (port_net kp.2) as [n|]; [| done]. destruct (is_out kp.2); [| done].
  destruct (getCellDelay _ _ _ _); [| done].
  destruct (decide (n = m)) as [<-|Hne].
  - rewrite lookup_insert_eq. by destruct (budget_override ctx net usr).
  - by rewrite lookup_insert_ne.
Qed.

Lemma forward_user_remaining ctx net a l nd usr m :
  remaining (forward_user ctx net a l nd usr) m = remaining nd m.
Proof.
  unfold forward_user. destruct (clocked _ _ _); [done |].
  apply fold_left_invariant with (P := fun s => remaining s m = remaining nd m); [| done].
  intros s1 kp _ <-. apply forward_port_remaining.
Qed.

Lemma forward_net_remaining ctx nd net nd' m :
  forward_net ctx nd net = Ok nd' ->
  is_Some (nd' !! net)
  /\ remaining nd' m = if decide (m = net) then target_period ctx else remaining nd m.
Proof.
  unfold forward_net. destruct (nd !! net) as [d|] eqn:Hd; [| done]. intros [= <-].
  split.
  - apply fold_left_invariant with (P := fun s => is_Some (s !! net));
      [intros s1 u _; apply forward_user_mono | by rewrite lookup_insert_eq].
  - apply fold_left_invariant
      with (P := fun s => remaining s m
                          = if decide (m = net) then target_period ctx else remaining nd m).
    + intros s1 u _ <-. apply forward_user_remaining.
    + unfold remaining. destruct (decide (m = net)) as [->|Hne].
      * by rewrite lookup_insert_eq.
      * by rewrite lookup_insert_ne.
Qed.

Lemma forward_net_mono ctx nd net nd' m :
  forward_net ctx nd net = Ok nd' -> is_Some (nd !! m) -> is_Some (nd' !! m).
Proof.
  unfold forward_net. destruct (nd !! net) as [d|] eqn:Hd; [| done]. intros [= <-] Hm.
  apply fold_left_invariant with (P := fun s => is_Some (s !! m));
    [intros s1 u _; apply forward_user_mono |].
  destruct (decide (net = m)) as [<-|Hne];
    [by rewrite lookup_insert_eq | by rewrite lookup_insert_ne].
Qed.

Lemma forward_remaining ctx l :
  forall nd nd' m,
    foldM (forward_net ctx) l nd = Ok nd' ->
    (forall n, n ∈ l -> is_Some (nd' !! n))
    /\ remaining nd' m = if bool_decide (m ∈ l) then target_period ctx else remaining nd m.
Proof.
  induction l as [|n l IH]; intros nd nd' m H; simpl in H.
  - inversion H; subst. split; [intros n Hn; by apply elem_of_nil in Hn |].
    rewrite bool_decide_eq_false_2; [done | apply not_elem_of_nil].
  - inv_bind H. destruct (forward_net_remaining _ _ _ _ m Hr) as [Hn Hm].
    destruct (IH _ _ m H) as [Hall Hrest]. split.
    + intros n' [->|Hn']%elem_of_cons; [| by apply Hall].
      revert Hn H. apply (foldM_invariant (fun s => is_Some (s !! n))).
      intros s1 x s2 _ Hs1 Hstep. by eapply forward_net_mono.
    + rewrite Hrest, Hm. destruct (decide (m ∈ l)) as [Hin|Hnin].
      * rewrite !bool_decide_eq_true_2; [done | by right | done].
      * rewrite (bool_decide_eq_false_2 (m ∈ l)) by done.
        destruct (decide (m = n)) as [->|Hne].
        -- rewrite bool_decide_eq_true_2; [done | by left].
        -- rewrite bool_decide_eq_false_2; [done |].
           intros [->|?]%elem_of_cons; done.
Qed.

(** X5.  What the forward loop leaves in the working records, for an order
    of fewer than [2^31 - 1] nets: every net of the order has a record;
    every recorded path length is between 0 and the number of nets, so that
    the divisor [max_path_length + 1] of the backward loop is at least 1;
    and [min_remaining_budget] is the target period for the nets of the
    order and 0 for the other nets that have a record. *)
Theorem X5_forward_records ctx order nd :
  Z.of_nat (length order) < 2 ^ 31 - 1 ->
  forward ctx order (net_data (seed ctx)) = Ok nd ->
  (forall n, n ∈ order -> is_Some (nd !! n))
  /\ forall m d,
       nd !! m = Some d ->
       0 <= max_path_length d <= Z.of_nat (length order)
       /\ 1 <= s32 (u32 (max_path_length d + 1)) <= Z.of_nat (length order) + 1
       /\ min_remaining_budget d
          = if bool_decide (m ∈ order) then target_period ctx else 0.
Proof.
  intros Hlen Hnd. unfold forward in Hnd.
  assert (H31 : 2 ^ 31 < 2 ^ 32) by done.
  split; [intros n; by apply (forward_remaining ctx order _ _ n Hnd) |].
  intros m d Hd.
  destruct (seed_data ctx) as [_ Hpl0].
  pose proof (forward_path_lengths ctx order 0 _ _ ltac:(lia) ltac:(lia) Hpl0 Hnd m d Hd)
    as Hpl.
  destruct (forward_remaining ctx order _ _ m Hnd) as [_ Hrem].
  rewrite seed_remaining in Hrem. unfold remaining in Hrem. rewrite Hd in Hrem.
  split; [lia |]. split; [| exact Hrem].
  rewrite u32_small by lia. unfold s32.
  destruct (max_path_length d + 1 <? 2 ^ 31) eqn:Hlt; [lia |].
  apply Z.ltb_ge in Hlt. lia.
Qed.

(** The theorem at the pipeline. *)
Lemma X5_forward_records_witness :
  exists nd,
    forward (Examples.pipeline 4 0 100 100 1 false 10) [100; 101]
            (net_data (seed (Examples.pipeline 4 0 100 100 1 false 10))) = Ok nd
    /\ is_Some (nd !! 101).
Proof.
  eexists. split; [vm_compute; reflexivity |].
  refine (proj1 (X5_forward_records (Examples.pipeline 4 0 100 100 1 false 10)
                   [100; 101] _ _ _) 101 _).
  - vm_compute; reflexivity.
  - vm_compute; reflexivity.
  - elem_of_list.
Defined.

(** ** The minimum slack bounds every path *)




(** ** What the seeding loop records *)

(** Every record comes from a seeded output. *)
Lemma seed_records_sound ctx n d :
  net_data (seed ctx) !! n = Some d ->
  exists kc o, kc ∈ cells ctx /\ o ∈ output_ports (ports kc.2) /\ o.2 = n
               /\ seeded ctx kc o = true /\ d = seed_record ctx kc.1 o.
Proof.
  unfold seed.
  apply (fold_left_invariant
           (fun s => net_data s !! n = Some d ->
                     exists kc o, kc ∈ cells ctx /\ o ∈ output_ports (ports kc.2)
                                  /\ o.2 = n /\ seeded ctx kc o = true
                                  /\ d = seed_record ctx kc.1 o));
    [| simpl; by rewrite lookup_empty].
  intros s kc Hkc Hs. unfold seed_cell. apply fold_left_invariant; [| exact Hs].
  intros s1 o Ho H1. unfold seed_output, seeded, clocked, seed_record in *.
  destruct (getPortClock ctx kc.1 (port_name o.1.2) =? 0) eqn:Hclk.
  - destruct (cell_type kc.2 =? id_sb_io ctx) eqn:Hio; simpl; [| exact H1].
    intros [H|[-> ->]]%emplace_lookup; [by apply H1 |].
    exists kc, o. rewrite Hclk, Hio. done.
  - simpl. intros [H|[-> ->]]%emplace_lookup; [by apply H1 |].
    exists kc, o. rewrite Hclk. done.
Qed.

(** X7.  The seeding loop on a well-formed netlist, for the net-bound output
    [o] of cell [c]: its net is in the initial order exactly when the output
    is clocked or the cell is an I/O cell; the net then gets the record of
    its clock-to-output delay (0 for an unclocked I/O output), and no record
    otherwise; and an output that is not seeded gets an in-degree entry
    exactly when some net-bound input has a combinational arc to it, the
    entry being the number of such inputs. *)
Theorem X7_seeding ctx c ci o :
  wf_context ctx -> (c, ci) ∈ cells ctx -> o ∈ output_ports (ports ci) ->
  (o.2 ∈ topographical_order (seed ctx) <-> seeded ctx (c, ci) o = true)
  /\ net_data (seed ctx) !! o.2
     = (if seeded ctx (c, ci) o then Some (seed_record ctx c o) else None)
  /\ port_fanin (seed ctx) !! (c, o.1.1)
     = (if seeded ctx (c, ci) o then None
        else match arc_inputs ctx c o.1.1 with
             | [] => None
             | ins => Some (Z.of_nat (length ins))
             end).
Proof.
  intros Hwf Hci Ho.
  assert (Hsame : forall kc' o', kc' ∈ cells ctx -> o' ∈ output_ports (ports kc'.2) ->
                    o'.2 = o.2 -> kc' = (c, ci) /\ o' = o).
  { intros [c' ci'] [[k' pi'] n'] Hci' Ho' Heq. destruct o as [[k pi] n].
    simpl in *. subst n'.
    assert (H1 : (c, k, n) ∈ bound_outputs ctx)
      by (apply elem_of_bound_outputs; eauto).
    assert (H2 : (c', k', n) ∈ bound_outputs ctx)
      by (apply elem_of_bound_outputs; eauto).
    pose proof Hwf as (_ & _ & Hnd & _).
    pose proof (NoDup_fmap_eq snd _ _ _ Hnd H1 H2 eq_refl) as [= <- <-].
    pose proof (cells_key_unique _ _ _ _ Hwf Hci Hci') as <-.
    apply elem_of_output_ports in Ho as (Ho & _).
    apply elem_of_output_ports in Ho' as (Ho' & _).
    by pose proof (ports_key_unique _ _ _ _ _ _ Hwf Hci Ho Ho') as <-. }
  assert (Hin : o.2 ∈ topographical_order (seed ctx) <-> seeded ctx (c, ci) o = true).
  { rewrite seed_order. split.
    - intros (kc' & o' & Hkc' & Ho' & Hs & Heq)%elem_of_seed_nets.
      by destruct (Hsame _ _ Hkc' Ho' Heq) as [-> ->].
    - intros Hs. apply elem_of_seed_nets. exists (c, ci), o. done. }
  split; [exact Hin |]. split.
  - destruct (net_data (seed ctx) !! o.2) as [d|] eqn:Hd.
    + apply seed_records_sound in Hd as (kc' & o' & Hkc' & Ho' & Heq & Hs & ->).
      destruct (Hsame _ _ Hkc' Ho' Heq) as [-> ->]. by rewrite Hs.
    + destruct (seeded ctx (c, ci) o) eqn:Hs; [| done].
      destruct (seed_data ctx) as [Hsome _].
      destruct (Hsome o.2) as [d' Hd']; [by apply Hin | congruence].
  - destruct (cell_ports_wf _ _ _ Hwf Hci) as [Hports (Hpnd & Hnames & Hlen & Hseeds)].
    destruct o as [[k pi] n]. simpl in *.
    pose proof Ho as (Hkp & _ & _)%elem_of_output_ports.
    rewrite Forall_forall in Hnames. pose proof (Hnames _ Hkp) as Hname. simpl in Hname.
    destruct (port_fanin (seed ctx) !! (c, k)) as [v|] eqn:Hv.
    + destruct (seed_fanin_spec _ _ _ _ Hwf Hv) as (-> & ci' & o' & Hci' & Ho' & Hk & Hs').
      pose proof (cells_key_unique _ _ _ _ Hwf Hci Hci') as <-.
      destruct o' as [[k' pi'] n']. simpl in Hk. subst k'.
      pose proof Ho' as (Hkp' & _ & _)%elem_of_output_ports.
      pose proof (ports_key_unique _ _ _ _ _ _ Hwf Hci Hkp Hkp') as <-.
      assert (Hss : seeded ctx (c, ci) (k, pi, n) = seeded ctx (c, ci) (k, pi, n'))
        by done.
      rewrite Hss, Hs'.
      destruct (arc_inputs ctx c k) as [|i ins] eqn:Harc; [| done]. exfalso.
      assert (Hfan : is_Some (port_fanin (seed ctx) !! (c, k))) by (rewrite Hv; eauto).
      clear Hv. revert Hfan. unfold seed.
      assert (Hcounted : forall v, port_fanin (seed ctx) !! (c, k) = Some v ->
                                   counted ctx c k v).
      { intros v. unfold seed. apply seed_cells_counted; simpl.
        - by destruct Hwf.
        - intros kc Hkc. split; [done |]. pose proof Hwf as (_ & Hcells & _).
          rewrite Forall_forall in Hcells. by destruct (Hcells kc Hkc) as (? & _).
        - intros c' p'. rewrite lookup_empty. by intros [? ?].
        - intros c' p' v'. by rewrite lookup_empty. }
      intros [v Hv]. destruct (Hcounted v Hv) as (ci2 & o2 & Hci2 & Ho2 & Hk2 & _ & Hne & _).
      pose proof (cells_key_unique _ _ _ _ Hwf Hci Hci2) as <-.
      destruct o2 as [[k2 pi2] n2]. simpl in *. subst k2.
      pose proof Ho2 as (Hkp2 & _ & _)%elem_of_output_ports.
      pose proof (ports_key_unique _ _ _ _ _ _ Hwf Hci Hkp Hkp2) as <-.
      apply Hne. unfold arc_inputs in Harc. rewrite Hports in Harc. by rewrite Hname.
    + destruct (seeded ctx (c, ci) (k, pi, n)) eqn:Hs; [done |].
      destruct (arc_inputs ctx c k) as [|i ins] eqn:Harc; [done |]. exfalso.
      assert (Hclk : clocked ctx c (port_name pi) = false).
      { unfold seeded in Hs. simpl in Hs. by apply orb_false_elim in Hs as [? _]. }
      destruct (seed_fanin_complete ctx c ci (k, pi, n) Hci Ho Hclk) as [v Hv'];
        [| simpl in Hv'; congruence].
      simpl. rewrite Hname. unfold arc_inputs in Harc. rewrite Hports in Harc.
      by rewrite Harc.
Qed.

(** The theorem at the register output 10.Q and the buffer output 11.O of
    the pipeline. *)
Lemma X7_seeding_witness :
  let ctx := Examples.pipeline 4 0 100 100 1 false 10 in
  net_data (seed ctx) !! 100 = Some (TimingData1 0)
  /\ port_fanin (seed ctx) !! (11, 5) = Some 1.
Proof.
  intros ctx. split.
  - pose proof (proj1 (proj2 (X7_seeding ctx 10 (Examples.mk_cell 10 1 [Examples.port_out 2 100]).2
                                (2, (Examples.port_out 2 100).2, 100)
                                ltac:(wf_example) ltac:(elem_of_list) ltac:(elem_of_list))))
      as H.
    exact H.
  - pose proof (proj2 (proj2 (X7_seeding ctx 11
                                (Examples.mk_cell 11 2 [Examples.port_in 4 100;
                                                        Examples.port_out 5 101]).2
                                (5, (Examples.port_out 5 101).2, 101)
                                ltac:(wf_example) ltac:(elem_of_list) ltac:(elem_of_list))))
      as H.
    exact H.
Defined.

(** ** The period achieved *)

Lemma terminus_slacks_delays ctx nd order :
  terminus_slacks ctx nd order
  = (fun d => target_period ctx - d) <$> terminus_delays ctx nd order.
Proof.
  unfold terminus_slacks, terminus_delays.
  induction order as [|n order IH]; simpl; [done |].
  rewrite fmap_app, IH. f_equal. unfold net_slacks.
  induction (net_users (nets ctx) n) as [|u us IHu]; [done |].
  cbn [omap list_omap]. destruct (clocked ctx (cell u) (port u)); simpl; by rewrite IHu.
Qed.

Lemma fold_left_min_max (p : Z) (l : list Z) (z : Z) :
  p - fold_left Z.min ((fun d => p - d) <$> l) (p - z) = fold_left Z.max l z.
Proof.
  revert z. induction l as [|d l IH]; intros z; simpl; [lia |].
  replace (Z.min (p - z) (p - d)) with (p - Z.max z d) by lia. apply IH.
Qed.

(** The period that [walk_paths] finds achievable, when it starts from the
    minimum slack set by the constructor of [Timing]. *)
Lemma walk_paths_achieved ctx t ctx' t' k nd :
  min_slack t = target_period ctx ->
  walk_paths ctx t = Ok (ctx', t') ->
  linearize ctx = Ok k ->
  forward ctx (k_order k) (net_data (seed ctx)) = Ok nd ->
  target_period ctx - min_slack t'
  = fold_left Z.max (terminus_delays ctx nd (rev (k_order k))) 0.
Proof.
  intros Ht Hw Hk Hnd.
  apply walk_paths_Ok in Hw as (k' & nd' & nb & Hk' & Hnd' & Hb & _ & ->).
  rewrite Hk in Hk'. inversion Hk'; subst k'.
  rewrite Hnd in Hnd'. inversion Hnd'; subst nd'.
  destruct nb as [ns' b']. unfold backward in Hb.
  apply backward_min_slack in Hb as [_ Hms]; [| reflexivity]. simpl in Hms |- *.
  rewrite Hms, Ht, terminus_slacks_delays.
  replace (target_period ctx) with (target_period ctx - 0) at 2 by lia.
  apply fold_left_min_max.
Qed.



(** ** Repeated budgeting *)

(** The forward loop computes arrival times and path lengths without
    reading the target period or any [min_remaining_budget]. *)
Lemma forward_port_erase ctx net usr ua l nd kp :
  erase_budgets (forward_port ctx net usr ua l nd kp)
  = forward_port ctx net usr ua l (erase_budgets nd) kp.
Proof.
  unfold forward_port, erase_budgets.
  destruct (port_net kp.2) as [n|]; [| done]. destruct (is_out kp.2); [| done].
  destruct (getCellDelay _ _ _ _); [| done].
  rewrite fmap_insert, lookup_fmap. f_equal.
  destruct (nd !! n) as [d|]; simpl; by destruct (budget_override ctx net usr).
Qed.

Lemma forward_user_erase ctx net a l nd usr :
  erase_budgets (forward_user ctx net a l nd usr)
  = forward_user ctx net a l (erase_budgets nd) usr.
Proof.
  unfold forward_user. destruct (clocked _ _ _); [done |].
  revert nd. induction (cell_ports ctx (cell usr)) as [|kp ps IH]; intros nd; simpl; [done |].
  by rewrite IH, forward_port_erase.
Qed.

Lemma forward_users_erase ctx net a l us nd :
  erase_budgets (fold_left (forward_user ctx net a l) us nd)
  = fold_left (forward_user ctx net a l) us (erase_budgets nd).
Proof.
  revert nd. induction us as [|u us IH]; intros nd; simpl; [done |].
  by rewrite IH, forward_user_erase.
Qed.

Lemma forward_net_erase ctx p nd nd' n :
  erase_budgets nd = erase_budgets nd' ->
  erased (forward_net (set_target_period ctx p) nd n) = erased (forward_net ctx nd' n).
Proof.
  intros Heq. unfold forward_net.
  pose proof (f_equal (fun m : gmap Z TimingData => m !! n) Heq) as Hn. simpl in Hn.
  unfold erase_budgets in Hn. rewrite !lookup_fmap in Hn.
  destruct (nd !! n) as [d|], (nd' !! n) as [d'|]; simpl in Hn; try discriminate; [| done].
  simpl. f_equal.
  change (forward_user (set_target_period ctx p)) with (forward_user ctx).
  change (nets (set_target_period ctx p)) with (nets ctx).
  rewrite !forward_users_erase. unfold erase_budgets in *. rewrite !fmap_insert, Heq.
  inversion Hn as [[Ha Hl]]. unfold erase_budget, set_min_remaining_budget. simpl.
  by rewrite Ha, Hl.
Qed.

Lemma forward_erase ctx p l :
  forall nd nd',
    erase_budgets nd = erase_budgets nd' ->
    erased (foldM (forward_net (set_target_period ctx p)) l nd)
    = erased (foldM (forward_net ctx) l nd').
Proof.
  induction l as [|n l IH]; intros nd nd' Heq; simpl; [by rewrite Heq |].
  pose proof (forward_net_erase ctx p nd nd' n Heq) as Hstep.
  destruct (forward_net (set_target_period ctx p) nd n) as [x|e],
           (forward_net ctx nd' n) as [x'|e']; simpl in *; try discriminate.
  - apply IH. by inversion Hstep.
  - done.
Qed.

Lemma terminus_delays_erase ctx p nd nd' l :
  erase_budgets nd = erase_budgets nd' ->
  terminus_delays (set_target_period ctx p) nd l = terminus_delays ctx nd' l.
Proof.
  intros Heq. unfold terminus_delays.
  assert (Harr : forall n, arrival nd n = arrival nd' n).
  { intros n. pose proof (f_equal (fun m : gmap Z TimingData => m !! n) Heq) as Hn.
    simpl in Hn. unfold erase_budgets in Hn. rewrite !lookup_fmap in Hn. unfold arrival.
    destruct (nd !! n) as [d|], (nd' !! n) as [d'|]; simpl in *; try discriminate; [| done].
    by inversion Hn. }
  induction l as [|n l IH]; [done |]. cbn [flat_map]. rewrite IH. f_equal.
  change (nets (set_target_period ctx p)) with (nets ctx).
  induction (net_users (nets ctx) n) as [|u us IHu]; [done |].
  cbn [omap list_omap]. rewrite IHu, Harr. done.
Qed.

(** What [assign_budget] returns, in terms of [walk_paths] on the netlist
    with its budgets reset. *)
Lemma assign_budget_Ok ctx ctx' :
  assign_budget ctx = Ok ctx' ->
  exists ns1 t1,
    walk_paths (set_nets ctx (clear_budgets (nets ctx)))
               (mkTiming ctx (0 <? slack_redist_iter ctx) true None None)
    = Ok (set_nets ctx ns1, t1)
    /\ clear_budgets ns1 = clear_budgets (nets ctx)
    /\ ctx' = if auto_freq ctx && (0 <? slack_redist_iter ctx)
              then set_target_period (set_nets ctx ns1) (target_period ctx - min_slack t1)
              else set_nets ctx ns1.
Proof.
  unfold assign_budget, Timing_assign_budget. intros H.
  apply bind_Ok in H as ([c1 t1] & Hw & H).
  pose proof (walk_paths_clear _ _ _ _ Hw) as [_ Hclear]. simpl in Hclear.
  rewrite clear_budgets_idemp in Hclear.
  pose proof Hw as (k & nd & nb & _ & _ & _ & Hc1 & _)%walk_paths_Ok.
  subst c1. simpl in *.
  exists nb.1, t1. split; [exact Hw |]. split; [exact Hclear |].
  destruct (auto_freq ctx && (0 <? slack_redist_iter ctx)); by inversion H.
Qed.





Lemma linearize_period ctx p : linearize (set_target_period ctx p) = linearize ctx.
Proof.
  unfold linearize. change (seed (set_target_period ctx p)) with (seed ctx).
  generalize (drain_fuel {| k_order := topographical_order (seed ctx);
                            k_fanin := port_fanin (seed ctx);
                            k_queue := topographical_order (seed ctx) |}).
  generalize {| k_order := topographical_order (seed ctx);
                k_fanin := port_fanin (seed ctx);
                k_queue := topographical_order (seed ctx) |}.
  intros k fuel. revert k. induction fuel as [|fuel IH]; intros k; simpl; [done |].
  destruct (k_queue k) as [|net q]; [done |].
  change (visit_user (set_target_period ctx p)) with (visit_user ctx).
  destruct (foldM _ _ _); simpl; [apply IH | done].
Qed.

(** The netlist on which the second pass runs. *)
Lemma reset_retargeted ctx ns1 p :
  clear_budgets ns1 = clear_budgets (nets ctx) ->
  set_nets (set_target_period (set_nets ctx ns1) p)
           (clear_budgets (nets (set_target_period (set_nets ctx ns1) p)))
  = set_target_period (set_nets ctx (clear_budgets (nets ctx))) p.
Proof. intros H. unfold set_nets, set_target_period. simpl. by rewrite H. Qed.

Lemma reset_again ctx ns1 :
  clear_budgets ns1 = clear_budgets (nets ctx) ->
  set_nets (set_nets ctx ns1) (clear_budgets (nets (set_nets ctx ns1)))
  = set_nets ctx (clear_budgets (nets ctx)).
Proof. intros H. unfold set_nets. simpl. by rewrite H. Qed.

(** X10.  From its second invocation on, [assign_budget] is stable: the
    second pass keeps the target period left by the first, and a third pass
    reproduces the context of the second, budgets included. *)
Theorem X10_budgeting_stable_after_two_passes ctx ctx1 ctx2 :
  assign_budget ctx = Ok ctx1 -> assign_budget ctx1 = Ok ctx2 ->
  target_period ctx2 = target_period ctx1 /\ assign_budget ctx2 = Ok ctx2.
Proof.
  intros H1 H2.
  apply assign_budget_Ok in H1 as (ns1 & t1 & Hw1 & Hc1 & ->).
  destruct (auto_freq ctx && (0 <? slack_redist_iter ctx)) eqn:Hre.
  - apply assign_budget_Ok in H2 as (ns2 & t2 & Hw2 & Hc2 & ->).
    simpl in Hw2, Hc2 |- *. rewrite Hre in *. rewrite Hc1 in Hw2, Hc2.
    set (p1 := target_period ctx - min_slack t1) in *.
    set (ctx0 := set_nets ctx (clear_budgets (nets ctx))) in *.
    assert (Hw2' : walk_paths (set_target_period ctx0 p1)
                     (mkTiming (set_target_period ctx0 p1)
                               (0 <? slack_redist_iter ctx) true None None)
                   = Ok (set_nets (set_target_period ctx0 p1) ns2, t2)) by exact Hw2.
    pose proof Hw1 as (k & nd & _ & Hk & Hnd & _)%walk_paths_Ok.
    pose proof Hw2' as (k' & nd' & _ & Hk' & Hnd' & _)%walk_paths_Ok.
    rewrite linearize_period in Hk'.
    rewrite Hk in Hk'. inversion Hk'; subst k'.
    change (seed (set_target_period ctx0 p1)) with (seed ctx0) in Hnd'.
    assert (Her : erase_budgets nd' = erase_budgets nd).
    { pose proof (forward_erase ctx0 p1 (k_order k) _ _
                    (eq_refl (erase_budgets (net_data (seed ctx0))))) as He.
      unfold forward in Hnd, Hnd'. rewrite Hnd, Hnd' in He. by inversion He. }
    assert (Hp1 : p1 = fold_left Z.max (terminus_delays ctx0 nd (rev (k_order k))) 0)
      by (apply (walk_paths_achieved ctx0 (mkTiming ctx _ _ _ _) _ _ _ _
                   eq_refl Hw1 Hk Hnd)).
    assert (Hp2 : p1 - min_slack t2
                  = fold_left Z.max (terminus_delays ctx0 nd (rev (k_order k))) 0).
    { rewrite <- (terminus_delays_erase ctx0 p1 nd' nd _ Her).
      apply (walk_paths_achieved (set_target_period ctx0 p1)
               (mkTiming (set_target_period ctx0 p1) _ _ _ _) _ _ _ _
               eq_refl Hw2'); [by rewrite linearize_period | exact Hnd']. }
    assert (Hsame : p1 - min_slack t2 = p1) by congruence.
    split; [exact Hsame |].
    unfold assign_budget, Timing_assign_budget. simpl. rewrite Hc2, Hsame.
    change (walk_paths (set_target_period ctx0 p1)
              (mkTiming (set_target_period ctx0 p1)
                        (0 <? slack_redist_iter ctx) true None None)
            ≫= (fun '(ctx3, timing3) =>
                  if auto_freq ctx3 && (0 <? slack_redist_iter ctx3)
                  then Ok (set_target_period ctx3 (target_period ctx3 - min_slack timing3))
                  else Ok ctx3)
            = Ok (set_target_period
                    (set_nets (set_target_period (set_nets ctx ns1) p1) ns2) p1)).
    rewrite Hw2'. simpl. rewrite Hre, Hsame. reflexivity.
  - apply assign_budget_Ok in H2 as (ns2 & t2 & Hw2 & Hc2 & ->).
    simpl in Hw2, Hc2 |- *. rewrite Hre in *. rewrite Hc1 in Hw2, Hc2.
    split; [reflexivity |].
    unfold assign_budget, Timing_assign_budget. simpl. rewrite Hc2.
    change (walk_paths (set_nets ctx (clear_budgets (nets ctx)))
              (mkTiming ctx (0 <? slack_redist_iter ctx) true None None)
            ≫= (fun '(ctx3, timing3) =>
                  if auto_freq ctx3 && (0 <? slack_redist_iter ctx3)
                  then Ok (set_target_period ctx3 (target_period ctx3 - min_slack timing3))
                  else Ok ctx3)
            = Ok (set_nets (set_nets ctx ns1) ns2)).
    change (walk_paths (set_nets ctx (clear_budgets (nets ctx)))
              (mkTiming ctx (0 <? slack_redist_iter ctx) true None None)
            = Ok (set_nets ctx ns2, t2)) in Hw2.
    rewrite Hw2. simpl. rewrite Hre. reflexivity.
Qed.

(** The theorem at the pipeline with route delay 15 and retargeting: the
    first pass moves the period from 10 to 17, where it stays. *)
Lemma X10_budgeting_stable_witness :
  exists ctx1 ctx2,
    assign_budget (Examples.pipeline 15 0 0 0 1 true 10) = Ok ctx1
    /\ assign_budget ctx1 = Ok ctx2
    /\ target_period ctx1 = 17
    /\ target_period ctx2 = target_period ctx1 /\ assign_budget ctx2 = Ok ctx2.
Proof.
  eexists _, _. split; [vm_compute; reflexivity |]. split; [vm_compute; reflexivity |].
  split; [vm_compute; reflexivity |].
  refine (X10_budgeting_stable_after_two_passes
            (Examples.pipeline 15 0 0 0 1 true 10) _ _ _ _); vm_compute; reflexivity.
Defined.

(** ** Rendering the histogram *)

Lemma sorted_head_le (k0 : Z) (l : list Z) k :
  StronglySorted Z.lt (k0 :: l) -> k ∈ k0 :: l -> k0 <= k.
Proof.
  intros Hs [->|Hk]%elem_of_cons; [lia |].
  apply StronglySorted_inv in Hs as [_ Hall]. rewrite Forall_forall in Hall.
  specialize (Hall k Hk). lia.
Qed.

Lemma sorted_le_last (l : list Z) k x :
  StronglySorted Z.lt l -> k ∈ l -> last l = Some x -> k <= x.
Proof.
  induction l as [|y l IH]; intros Hs Hk Hx; [by apply elem_of_nil in Hk |].
  destruct l as [|z l].
  - apply list_elem_of_singleton in Hk as ->. simpl in Hx. inversion Hx. lia.
  - change (last (y :: z :: l)) with (last (z :: l)) in Hx.
    apply elem_of_cons in Hk as [->|Hk].
    + pose proof Hs as [_ Hall]%StronglySorted_inv. rewrite Forall_forall in Hall.
      assert (x ∈ z :: l) by (by apply last_Some_elem_of).
      specialize (Hall x H). lia.
    + apply IH; [by apply StronglySorted_inv in Hs as [? _] | done | done].
Qed.

Lemma spread_bounds (h : DelayFrequency) k c :
  StronglySorted Z.lt (fst <$> h) -> (k, c) ∈ h ->
  0 <= k - default 0 (fst <$> head h) <= spread h.
Proof.
  intros Hs Hk. unfold spread.
  assert (Hkeys : k ∈ fst <$> h) by (apply list_elem_of_fmap; by exists (k, c)).
  destruct h as [|[k0 c0] h]; [by apply elem_of_nil in Hk |].
  destruct (last ((k0, c0) :: h)) as [[kl cl]|] eqn:Hl; [| by apply last_None in Hl].
  simpl.
  pose proof (sorted_head_le k0 _ k Hs Hkeys).
  assert (Hl' : last (((k0, c0) :: h).*1) = Some kl) by (by rewrite fmap_last, Hl).
  pose proof (sorted_le_last _ k kl Hs Hkeys Hl'). lia.
Qed.

Lemma fill_bin_length m bs acc i acc' :
  fill_bin m bs acc i = Ok acc' -> length acc'.1 = length acc.1.
Proof.
  unfold fill_bin. destruct (bs =? 0); [done |].
  destruct (acc.1 !! _); [| done]. intros [= <-]. simpl. apply length_insert.
Qed.

(** With a bin width of zero the first sample divides by zero. *)
Lemma fill_narrow m h acc : h <> [] -> foldM (fill_bin m 0) h acc = Err DivisionByZero.
Proof. destruct h as [|i h]; [done |]. intros _. reflexivity. Qed.

(** With a positive bin width, the loop can only fail by indexing past the
    bins. *)
Lemma fill_outcome m bs h :
  bs <> 0 ->
  forall acc,
    (exists acc', foldM (fill_bin m bs) h acc = Ok acc' /\ length acc'.1 = length acc.1)
    \/ foldM (fill_bin m bs) h acc = Err IndexOutOfBounds.
Proof.
  intros Hbs. induction h as [|i h IH]; intros acc; simpl; [left; eauto |].
  destruct (fill_bin m bs acc i) as [acc1|e] eqn:Hstep; simpl.
  - destruct (IH acc1) as [(acc' & Hrun & Hlen) | Herr]; [left | by right].
    exists acc'. split; [done |]. rewrite Hlen. by eapply fill_bin_length.
  - right. unfold fill_bin in Hstep. apply Z.eqb_neq in Hbs. rewrite Hbs in Hstep.
    destruct (acc.1 !! _); [done | by inversion Hstep].
Qed.

Lemma total_nonneg (l : list Z) : Forall (fun x => 0 <= x) l -> 0 <= total l.
Proof. induction 1; simpl; lia. Qed.

Lemma total_lookup (l : list Z) i x :
  Forall (fun x => 0 <= x) l -> l !! i = Some x -> 0 <= x <= total l.
Proof.
  intros Hall. revert i. induction Hall as [|y l Hy Hall IH]; intros i Hi;
    [destruct i; discriminate |].
  pose proof (total_nonneg l Hall). destruct i as [|i]; simpl in *.
  - inversion Hi; subst. lia.
  - specialize (IH i Hi). lia.
Qed.

Lemma total_insert (l : list Z) i x y :
  l !! i = Some x -> total (<[i := y]> l) = total l - x + y.
Proof.
  revert i. induction l as [|z l IH]; intros i Hi; [destruct i; discriminate |].
  destruct i as [|i]; simpl in *.
  - inversion Hi; subst. lia.
  - rewrite (IH i Hi). lia.
Qed.

Lemma fill_bin_step m bs (acc : list Z * Z) k c bin :
  bs <> 0 -> 0 <= k - m < 2 ^ 32 -> 0 <= bin + c < 2 ^ 32 ->
  acc.1 !! Z.to_nat ((k - m) / bs) = Some bin ->
  fill_bin m bs acc (k, c)
  = Ok (<[Z.to_nat ((k - m) / bs) := bin + c]> acc.1, Z.max acc.2 (bin + c)).
Proof.
  intros Hbs Hk Hc Hbin. unfold fill_bin. apply Z.eqb_neq in Hbs. rewrite Hbs.
  cbn [fst snd]. rewrite (u32_small (k - m)) by done. rewrite Hbin.
  by rewrite (u32_small (bin + c)).
Qed.

(** The loop over the samples, when every index is within the bins and
    the counts do not wrap around. *)
Lemma fill_ok m bs h :
  0 < bs ->
  forall acc,
    Forall (fun kc : Z * Z => 0 <= kc.1 - m < 2 ^ 32
                              /\ ((kc.1 - m) / bs < Z.of_nat (length acc.1))
                              /\ 1 <= kc.2) h ->
    Forall (fun x => 0 <= x <= acc.2) acc.1 ->
    total acc.1 + total (snd <$> h) < 2 ^ 32 ->
    exists acc',
      foldM (fill_bin m bs) h acc = Ok acc'
      /\ length acc'.1 = length acc.1
      /\ Forall (fun x => 0 <= x <= acc'.2) acc'.1
      /\ total acc'.1 = total acc.1 + total (snd <$> h)
      /\ acc.2 <= acc'.2 /\ (h <> [] -> 1 <= acc'.2).
Proof.
  intros Hbs. induction h as [|[k c] h IH]; intros acc Hh Hpos0 Htot; cbn [foldM].
  - exists acc. simpl. repeat split; try done. lia.
  - assert (Hpos : Forall (fun x => 0 <= x) acc.1)
      by (eapply Forall_impl; [exact Hpos0 | simpl; intros; lia]).
    apply Forall_cons in Hh as [(Hk & Hidx & Hc) Hh]. cbn [fst snd] in Hk, Hidx, Hc.
    assert (Hlt : (Z.to_nat ((k - m) / bs) < length acc.1)%nat).
    { assert (0 <= (k - m) / bs) by (apply Z.div_pos; lia). lia. }
    destruct (lookup_lt_is_Some_2 _ _ Hlt) as [bin Hbin].
    pose proof (total_lookup _ _ _ Hpos Hbin) as Hb.
    assert (Hth : 0 <= total (snd <$> h)).
    { apply total_nonneg, Forall_fmap. eapply Forall_impl; [exact Hh |].
      intros [k' c'] (_ & _ & ?); simpl in *; lia. }
    cbn [fmap list_fmap total foldr snd] in Htot. fold (total (snd <$> h)) in Htot.
    rewrite (fill_bin_step m bs acc k c bin) by (done || lia). simpl.
    destruct (IH (<[Z.to_nat ((k - m) / bs) := bin + c]> acc.1, Z.max acc.2 (bin + c)))
      as (acc' & Hrun & Hlen & Hpos' & Htot' & Hmf' & _).
    + cbn [fst]. rewrite length_insert. exact Hh.
    + cbn [fst snd]. apply Forall_insert; [| lia].
      eapply Forall_impl; [exact Hpos0 | simpl; intros; lia].
    + cbn [fst]. rewrite (total_insert _ _ _ _ Hbin). lia.
    + cbn [fst snd] in Hlen, Htot', Hmf'. rewrite length_insert in Hlen.
      rewrite (total_insert _ _ _ _ Hbin) in Htot'.
      exists acc'. split; [exact Hrun |]. split; [exact Hlen |]. split; [done |].
      change (list_fmap (Z * Z)%type Z snd h) with (snd <$> h).
      split; [lia |]. split; [lia |]. intros _. lia.
Qed.

Lemma total_replicate n : total (replicate n 0) = 0.
Proof. induction n; simpl; lia. Qed.

Lemma spread_nonneg (h : DelayFrequency) :
  StronglySorted Z.lt (fst <$> h) -> 0 <= spread h.
Proof.
  intros Hs. destruct h as [|[k0 c0] h']; [done |].
  pose proof (spread_bounds ((k0, c0) :: h') k0 c0 Hs ltac:(by left)) as H.
  simpl in H. lia.
Qed.

(** X11.  The outcome of rendering a non-empty histogram with increasing
    keys, positive counts, a spread [s] that fits an [unsigned] and fewer than
    [2^32] samples: division by zero when [s < 20]; an index past the 21
    bins when [s / (s / 20) > 20]; and otherwise 21 bars of at most 60 stars
    each and a legend of at least 1, the counts of the bins adding up to the
    number of samples. *)
Theorem X11_histogram_rendering_outcome h :
  h <> [] -> well_formed_histogram h ->
  spread h < 2 ^ 32 -> total (snd <$> h) < 2 ^ 32 ->
  (spread h < 20 -> render_histogram h = Err DivisionByZero)
  /\ (20 <= spread h -> 20 < spread h / (spread h / 20) ->
      render_histogram h = Err IndexOutOfBounds)
  /\ (20 <= spread h -> spread h / (spread h / 20) <= 20 ->
      exists bins max_freq r,
        foldM (fill_bin (default 0 (fst <$> head h)) (spread h / 20)) h
              (replicate 21 0, 0) = Ok (bins, max_freq)
        /\ total bins = total (snd <$> h)
        /\ render_histogram h = Ok r
        /\ length (bars r) = 21%nat
        /\ 1 <= legend r
        /\ Forall (fun b : Z * Z * Z => 0 <= b.2 <= 60) (bars r)).
Proof.
  intros Hne [Hsorted Hcounts] Hfit Htotal.
  pose proof (spread_nonneg h Hsorted) as Hs0.
  assert (Hbs : render_histogram h
                = '(bins', max_freq) ← foldM (fill_bin (default 0 (fst <$> head h))
                                                      (spread h / 20)) h
                                              (replicate 21 0, 0);
                  (if Z.min 60 max_freq =? 0 then Err DivisionByZero
                   else Ok {| legend := max_freq / Z.min 60 max_freq;
                              bars := imap (bar (default 0 (fst <$> head h))
                                                (spread h / 20)
                                                (Z.min 60 max_freq) max_freq) bins' |})).
  { unfold render_histogram. fold (spread h). unfold num_bins.
    rewrite (u32_small (spread h)) by lia. reflexivity. }
  rewrite Hbs. clear Hbs. split; [| split].
  - intros Hlt. rewrite Z.div_small by lia. by rewrite fill_narrow.
  - intros Hge Hidx.
    assert (Hbs : spread h / 20 <> 0).
    { assert (1 <= spread h / 20) by (apply Z.div_le_lower_bound; lia). lia. }
    destruct (last h) as [[kl cl]|] eqn:Hlast; [| by apply last_None in Hlast].
    apply last_Some in Hlast as [h' ->]. rewrite foldM_app.
    destruct (fill_outcome (default 0 (fst <$> head (h' ++ [(kl, cl)])))
                (spread (h' ++ [(kl, cl)]) / 20) h' Hbs (replicate 21 0, 0))
      as [(acc1 & -> & Hlen) | ->]; [| done].
    simpl. unfold fill_bin. apply Z.eqb_neq in Hbs. rewrite Hbs. cbn [fst snd].
    assert (Hkl : kl - default 0 (fst <$> head (h' ++ [(kl, cl)]))
                  = spread (h' ++ [(kl, cl)])).
    { unfold spread. by rewrite last_snoc. }
    rewrite Hkl, u32_small by lia.
    rewrite lookup_ge_None_2; [done |].
    rewrite Hlen. simpl. lia.
  - intros Hge Hidx.
    assert (Hbs : 0 < spread h / 20).
    { assert (1 <= spread h / 20) by (apply Z.div_le_lower_bound; lia). lia. }
    destruct (fill_ok (default 0 (fst <$> head h)) (spread h / 20) h Hbs
                (replicate 21 0, 0))
      as ([bins mf] & Hrun & Hlen & Hbound & Htot & _ & Hmf).
    + apply Forall_forall. intros [k c] Hkc. cbn [fst snd].
      pose proof (spread_bounds h k c Hsorted Hkc) as Hk.
      rewrite Forall_forall in Hcounts. specialize (Hcounts _ Hkc). simpl in Hcounts.
      split; [lia |]. split; [| done].
      assert ((k - default 0 (fst <$> head h)) / (spread h / 20)
              <= spread h / (spread h / 20)) by (apply Z.div_le_mono; lia).
      simpl. lia.
    + cbn [fst snd]. apply Forall_replicate. lia.
    + cbn [fst]. rewrite total_replicate. lia.
    + cbn [fst snd] in *. rewrite total_replicate in Htot. specialize (Hmf Hne).
      rewrite Hrun. simpl.
      destruct (Z.min 60 mf =? 0) eqn:Hz; [apply Z.eqb_eq in Hz; lia |].
      eexists bins, mf, _. split; [reflexivity |]. split; [lia |].
      split; [reflexivity |]. simpl. split; [by rewrite length_imap |].
      split.
      * apply Z.div_le_lower_bound; lia.
      * apply Forall_forall. intros b Hb.
        apply list_elem_of_lookup in Hb as [i Hi].
        rewrite list_lookup_imap in Hi.
        destruct (bins !! i) as [bin|] eqn:Hbin; [| done]. simpl in Hi.
        inversion Hi; subst b. unfold bar. cbn [snd].
        rewrite Forall_forall in Hbound.
        specialize (Hbound bin ltac:(by eapply list_elem_of_lookup_2)).
        assert (Hu : 0 <= u32 (bin * Z.min 60 mf) <= bin * Z.min 60 mf).
        { unfold u32. split; [apply Z.mod_pos_bound; lia |].
          apply Z.mod_le; [nia | lia]. }
        split; [apply Z.div_pos; lia |].
        apply Z.div_le_upper_bound; [lia |]. nia.
Qed.

(** The theorem at the samples 0 and 20, 20: one bin of width 1 per
    picosecond. *)
Lemma X11_histogram_rendering_witness :
  exists r, render_histogram [(0, 1); (20, 2)] = Ok r /\ length (bars r) = 21%nat.
Proof.
  destruct (X11_histogram_rendering_outcome [(0, 1); (20, 2)])
    as (_ & _ & H).
  - done.
  - split; [repeat constructor; lia | repeat constructor; simpl; lia].
  - vm_compute; reflexivity.
  - vm_compute; reflexivity.
  - destruct H as (bins & mf & r & _ & _ & Hr & Hlen & _).
    + vm_compute; discriminate.
    + vm_compute; discriminate.
    + exists r. by split.
Defined.

(** ** The histogram of a design whose slacks are close to each other *)







(** ** The recursive walk *)

Section preserved.

(** A relation between the state before and after that every elementary
    step of the walk keeps is kept by the walk. *)
Variable R : Walk -> Walk -> Prop.
Hypothesis R_refl : forall w, R w w.
Hypothesis R_trans : forall w1 w2 w3, R w1 w2 -> R w2 w3 -> R w1 w3.
Hypothesis R_push : forall w net i, R w (push_path w net i).
Hypothesis R_pop : forall w, R w (pop_path w).
Hypothesis R_lower : forall w net i b, R w (lower_budget w net i b).
Hypothesis R_end : forall ctx w slack,
  R w (set_timing w (end_of_path ctx (w_timing w) slack)).

Lemma follow_user_port_preserves fn ctx :
  (forall w net pl s v w', fn w net pl s = Ok (v, w') -> R w w') ->
  forall w user pl s v w',
    follow_user_port fn ctx w user pl s = Ok (v, w') -> R w w'.
Proof.
  intros Hfn w user pl s v w'. unfold follow_user_port.
  destruct (pl =? 0); [done |].
  destruct (clocked ctx (cell user) (port user)).
  - intros [= _ <-]. apply R_end.
  - change w with (s ÷ pl, w).2 at 2. change w' with (v, w').2.
    apply foldM_invariant with (P := fun vw : Z * Walk => R w vw.2); [| apply R_refl].
    intros [v1 w1] kp [v2 w2] _ H1. simpl in *.
    destruct (is_out kp.2); [| by intros [= <- <-]].
    destruct (getCellDelay _ _ _ _); [| by intros [= <- <-]].
    destruct (port_net kp.2) as [n|]; [| by intros [= <- <-]].
    intros H. apply bind_Ok in H as ([pb w3] & Hcall & H). inversion H; subst.
    eapply R_trans; [exact H1 |]. by eapply Hfn.
Qed.

Lemma follow_net_user_preserves fup ctx net pl s :
  (forall w u pl' s' v w', fup w u pl' s' = Ok (v, w') -> R w w') ->
  forall bw i bw', follow_net_user fup ctx net pl s bw i = Ok bw' -> R bw.2 bw'.2.
Proof.
  intros Hfup [b w] i [b' w']. unfold follow_net_user. simpl.
  destruct (net_users (w_nets w) net !! i) as [usr|]; [| intros [= _ <-]; apply R_refl].
  destruct (getBudgetOverride _ _ _ _) as [ov|]; intros H;
    apply bind_Ok in H as ([v w3] & Hcall & H); inversion H; subst.
  - eapply R_trans; [apply R_push |]. eapply R_trans; [apply R_lower |].
    eapply R_trans; [by eapply Hfup | apply R_pop].
  - eapply R_trans; [apply R_push |]. eapply R_trans; [by eapply Hfup |].
    eapply R_trans; [apply R_lower | apply R_pop].
Qed.

Lemma follow_net_preserves fuel ctx :
  forall w net pl s v w', follow_net fuel ctx w net pl s = Ok (v, w') -> R w w'.
Proof.
  induction fuel as [|fuel IH]; intros w net pl s v w'; simpl; [done |].
  destruct (pl + 1 =? 0); [done |].
  change w with (s ÷ (pl + 1), w).2 at 3. change w' with (v, w').2.
  apply foldM_invariant with (P := fun bw : Z * Walk => R w bw.2); [| apply R_refl].
  intros bw i bw' _ H1 Hstep. eapply R_trans; [exact H1 |].
  eapply follow_net_user_preserves; [| exact Hstep].
  by apply follow_user_port_preserves.
Qed.

End preserved.

Lemma walk_le_refl w : walk_le w w.
Proof. unfold walk_le. split; [apply nets_tightened_refl |]. repeat split; done || lia. Qed.

Lemma walk_le_trans w1 w2 w3 : walk_le w1 w2 -> walk_le w2 w3 -> walk_le w1 w3.
Proof.
  intros (H1 & H2 & H3 & H4 & H5 & H6) (H1' & H2' & H3' & H4' & H5' & H6').
  split; [by eapply nets_tightened_trans |].
  split; [intros Hu; rewrite H2', H2; [done | done | congruence] |].
  split; [congruence |]. split; [congruence |]. split; [tauto | lia].
Qed.

Lemma walk_le_push w net i : walk_le w (push_path w net i).
Proof.
  unfold push_path. destruct (crit_path (w_timing w)) eqn:Hc; [| apply walk_le_refl].
  unfold walk_le. simpl. split; [apply nets_tightened_refl |].
  rewrite Hc. repeat split; done || lia.
Qed.

Lemma walk_le_pop w : walk_le w (pop_path w).
Proof.
  unfold pop_path. destruct (crit_path (w_timing w)) eqn:Hc; [| apply walk_le_refl].
  unfold walk_le. simpl. split; [apply nets_tightened_refl |].
  rewrite Hc. repeat split; done || lia.
Qed.

Lemma Forall2_tightened_alter us i b :
  Forall2 tightened us (alter (fun u => set_budget u (Z.min (budget u) b)) i us).
Proof.
  revert i. induction us as [|u us IH]; intros i; [constructor |].
  destruct i as [|i]; simpl; constructor.
  - apply tightened_set_budget.
  - apply Forall2_tightened_refl.
  - apply tightened_refl.
  - apply IH.
Qed.

Lemma walk_le_lower w net i b : walk_le w (lower_budget w net i b).
Proof.
  unfold lower_budget. destruct (update (w_timing w)) eqn:Hu; [| apply walk_le_refl].
  destruct (w_nets w !! net) as [ni|] eqn:Hni; [| apply walk_le_refl].
  unfold walk_le. simpl. split.
  - intros m. destruct (decide (m = net)) as [->|Hne].
    + rewrite lookup_insert_eq, Hni. constructor. simpl.
      split; [done |]. split; [done |]. apply Forall2_tightened_alter.
    + rewrite lookup_insert_ne by done. apply nets_tightened_refl.
  - rewrite Hu. repeat split; done || lia.
Qed.

Lemma walk_le_end ctx w slack :
  walk_le w (set_timing w (end_of_path ctx (w_timing w) slack)).
Proof.
  unfold walk_le, end_of_path. simpl. split; [apply nets_tightened_refl |].
  split; [done |].
  destruct (slack <? min_slack (w_timing w)) eqn:Hlt; simpl.
  - apply Z.ltb_lt in Hlt. repeat split; try done; try lia.
    + intros [p Hp]. destruct (crit_path (w_timing w)); [eauto | done].
    + intros [p Hp]. rewrite Hp. simpl. eauto.
  - repeat split; done || lia.
Qed.

Lemma follow_net_walk_le fuel ctx w net pl s v w' :
  follow_net fuel ctx w net pl s = Ok (v, w') -> walk_le w w'.
Proof.
  apply (follow_net_preserves walk_le walk_le_refl walk_le_trans walk_le_push
           walk_le_pop walk_le_lower walk_le_end).
Qed.

Lemma path_kept_weaken w w' : path_kept true w w' -> path_kept false w w'.
Proof.
  intros (H1 & H2 & [H3 | [H3 H4]]); split; [done | | done |]; split; try done.
  - by left.
  - right. split; [done |]. intros p0 Hp0. destruct (H4 p0 Hp0) as (q & _ & Hq).
    exists q. done.
Qed.

Lemma path_kept_refl b w : path_kept b w w.
Proof. split; [done |]. split; [done |]. by left. Qed.

Lemma path_kept_trans b w1 w2 w3 :
  path_kept b w1 w2 -> path_kept b w2 w3 -> path_kept b w1 w3.
Proof.
  intros (Hp & Hn & Hc) (Hp' & Hn' & Hc').
  split; [congruence |]. split; [tauto |].
  destruct Hc as [[Hm Hcp] | [Hm Hcap]], Hc' as [[Hm' Hcp'] | [Hm' Hcap']].
  - left. split; congruence.
  - right. split; [lia |]. intros p0 Hp0. rewrite <- Hcp in Hp0.
    destruct (Hcap' p0 Hp0) as (q & Hq & Hcrit). exists q. by rewrite <- Hp.
  - right. split; [lia |]. intros p0 Hp0.
    destruct (Hcap p0 Hp0) as (q & Hq & Hcrit). exists q. by rewrite Hcp'.
  - right. split; [lia |]. intros p0 Hp0.
    destruct (Hcap p0 Hp0) as (q & Hq & Hcrit).
    destruct (Hcap' _ Hcrit) as (q' & Hq' & Hcrit'). exists q'. by rewrite <- Hp.
Qed.

Lemma path_kept_end ctx w slack :
  path_kept false w (set_timing w (end_of_path ctx (w_timing w) slack)).
Proof.
  unfold path_kept, end_of_path. simpl.
  destruct (slack <? min_slack (w_timing w)) eqn:Hlt; simpl.
  - apply Z.ltb_lt in Hlt. split; [done |].
    split; [by destruct (crit_path (w_timing w)) |].
    right. split; [done |]. intros p0 ->. exists []. by rewrite app_nil_r.
  - split; [done |]. split; [done |]. by left.
Qed.

Lemma path_kept_lower b w net i x : path_kept b w (lower_budget w net i x).
Proof.
  unfold lower_budget. destruct (update (w_timing w)); [| apply path_kept_refl].
  destruct (w_nets w !! net); [| apply path_kept_refl].
  split; [done |]. split; [done |]. by left.
Qed.

(** A call between [push_back] and [pop_back] that keeps the path. *)
Lemma path_kept_push_pop w net i w2 w3 :
  path_kept false (push_path w net i) w2 -> w_timing w3 = w_timing w2 ->
  path_kept true w (pop_path w3).
Proof.
  intros (Hp & Hn & Hc) Ht. unfold push_path, pop_path in *. rewrite Ht.
  destruct (crit_path (w_timing w)) as [p0|] eqn:Hcrit; simpl in *.
  - rewrite Hcrit in *.
    destruct (crit_path (w_timing w2)) as [p2|] eqn:Hcrit2;
      [| by destruct Hn as [Hn _]; specialize (Hn eq_refl)].
    unfold path_kept. simpl. rewrite Hcrit2, Hcrit, Hp, removelast_last.
    split; [done |]. split; [done |].
    destruct Hc as [[Hm Hcp] | [Hm Hcap]]; [by left | right].
    split; [done |]. intros p0' [= <-].
    destruct (Hcap p0 eq_refl) as (q & _ & Hq). exists ((net, i) :: q).
    split; [done |]. by rewrite Hq, <- app_assoc.
  - destruct (crit_path (w_timing w2)) as [p2|] eqn:Hcrit2;
      [by destruct Hn as [_ Hn]; specialize (Hn Hcrit) |].
    unfold path_kept. rewrite Ht, Hcrit2, Hcrit.
    split; [done |]. split; [done |].
    destruct Hc as [[Hm Hcp] | [Hm Hcap]]; [by left | right].
    split; [done |]. intros p0. done.
Qed.

Lemma lower_budget_timing w net i b : w_timing (lower_budget w net i b) = w_timing w.
Proof.
  unfold lower_budget. destruct (update (w_timing w)); [| done].
  by destruct (w_nets w !! net).
Qed.

Lemma follow_user_port_path_kept fn ctx :
  (forall w net pl s v w', fn w net pl s = Ok (v, w') -> path_kept true w w') ->
  forall w user pl s v w',
    follow_user_port fn ctx w user pl s = Ok (v, w') -> path_kept false w w'.
Proof.
  intros Hfn w user pl s v w'. unfold follow_user_port.
  destruct (pl =? 0); [done |].
  destruct (clocked ctx (cell user) (port user)).
  - intros [= _ <-]. apply path_kept_end.
  - change w with (s ÷ pl, w).2 at 2. change w' with (v, w').2.
    apply foldM_invariant with (P := fun vw : Z * Walk => path_kept false w vw.2);
      [| apply path_kept_refl].
    intros [v1 w1] kp [v2 w2] _ H1. simpl in *.
    destruct (is_out kp.2); [| by intros [= <- <-]].
    destruct (getCellDelay _ _ _ _); [| by intros [= <- <-]].
    destruct (port_net kp.2) as [n|]; [| by intros [= <- <-]].
    intros H. apply bind_Ok in H as ([pb w3] & Hcall & H). inversion H; subst.
    eapply path_kept_trans; [exact H1 |]. apply path_kept_weaken. by eapply Hfn.
Qed.

Lemma follow_net_user_path_kept fup ctx net pl s :
  (forall w u pl' s' v w', fup w u pl' s' = Ok (v, w') -> path_kept false w w') ->
  forall bw i bw',
    follow_net_user fup ctx net pl s bw i = Ok bw' -> path_kept true bw.2 bw'.2.
Proof.
  intros Hfup [b w] i [b' w']. unfold follow_net_user. simpl.
  destruct (net_users (w_nets w) net !! i) as [usr|];
    [| intros [= _ <-]; apply path_kept_refl].
  destruct (getBudgetOverride _ _ _ _) as [ov|]; intros H;
    apply bind_Ok in H as ([v w3] & Hcall & H); inversion H; subst.
  - apply (path_kept_push_pop w net i w3 w3); [| done].
    eapply path_kept_trans; [apply path_kept_lower |]. by eapply Hfup.
  - apply (path_kept_push_pop w net i w3); [by eapply Hfup |].
    apply lower_budget_timing.
Qed.

Lemma follow_net_path_kept fuel ctx :
  forall w net pl s v w',
    follow_net fuel ctx w net pl s = Ok (v, w') -> path_kept true w w'.
Proof.
  induction fuel as [|fuel IH]; intros w net pl s v w'; simpl; [done |].
  destruct (pl + 1 =? 0); [done |].
  change w with (s ÷ (pl + 1), w).2 at 3. change w' with (v, w').2.
  apply foldM_invariant with (P := fun bw : Z * Walk => path_kept true w bw.2);
    [| apply path_kept_refl].
  intros bw i bw' _ H1 Hstep. eapply path_kept_trans; [exact H1 |].
  eapply follow_net_user_path_kept; [| exact Hstep].
  by apply follow_user_port_path_kept.
Qed.

(** X13.  When [follow_net] returns, it has changed nothing of the netlist
    but budgets, which it has only lowered and, without [update], not
    changed at all; the flags are the same, [current_path] is restored, and
    the minimum slack has not increased. *)
Theorem X13_recursive_walk_frame fuel ctx w net path_length slack v w' :
  follow_net fuel ctx w net path_length slack = Ok (v, w') ->
  nets_tightened (w_nets w) (w_nets w')
  /\ (update (w_timing w) = false -> w_nets w' = w_nets w)
  /\ net_delays (w_timing w') = net_delays (w_timing w)
  /\ update (w_timing w') = update (w_timing w)
  /\ current_path (w_timing w') = current_path (w_timing w)
  /\ min_slack (w_timing w') <= min_slack (w_timing w).
Proof.
  intros H.
  pose proof (follow_net_walk_le _ _ _ _ _ _ _ _ H) as (H1 & H2 & H3 & H4 & _ & H6).
  pose proof (follow_net_path_kept _ _ _ _ _ _ _ _ H) as (H7 & _).
  done.
Qed.

(** The theorem at the pipeline, without [update]: the budgets 100 stay. *)
Lemma X13_recursive_walk_frame_witness :
  let ctx := Examples.pipeline 4 0 100 100 1 false 10 in
  exists v w',
    follow_net 5 ctx {| w_nets := nets ctx;
                        w_timing := mkTiming ctx true false (Some []) None |}
               100 0 10 = Ok (v, w')
    /\ w_nets w' = nets ctx /\ min_slack (w_timing w') = 4.
Proof.
  intros ctx. eexists _, _. split; [vm_compute; reflexivity |].
  split; [| vm_compute; reflexivity].
  refine (proj1 (proj2 (X13_recursive_walk_frame 5 ctx
                          {| w_nets := nets ctx;
                             w_timing := mkTiming ctx true false (Some []) None |}
                          100 0 10 _ _ _)) _); vm_compute; reflexivity.
Defined.

(** X14.  When a critical path is requested and [follow_net] returns, either
    the minimum slack and the stored critical path are as before, or the
    minimum slack is lower and the stored critical path is [current_path]
    extended by at least one connection. *)
Theorem X14_recursive_walk_captures_path fuel ctx w net path_length slack v w' p0 :
  follow_net fuel ctx w net path_length slack = Ok (v, w') ->
  crit_path (w_timing w) = Some p0 ->
  (min_slack (w_timing w') = min_slack (w_timing w)
   /\ crit_path (w_timing w') = Some p0)
  \/ (min_slack (w_timing w') < min_slack (w_timing w)
      /\ exists q, q <> []
           /\ crit_path (w_timing w') = Some (current_path (w_timing w) ++ q)).
Proof.
  intros H Hp0.
  destruct (follow_net_path_kept _ _ _ _ _ _ _ _ H) as (_ & _ & [[Hm Hc] | [Hm Hcap]]).
  - left. split; [done | congruence].
  - right. split; [done |]. destruct (Hcap p0 Hp0) as (q & Hq & Hcrit).
    exists q. split; [by apply Hq | done].
Qed.

(** The theorem at the pipeline, where the path through 11.I and 12.D is
    captured. *)
Lemma X14_recursive_walk_captures_witness :
  let ctx := Examples.pipeline 4 0 100 100 1 false 10 in
  let w := {| w_nets := nets ctx;
              w_timing := mkTiming ctx true true (Some []) None |} in
  exists v w',
    follow_net 5 ctx w 100 0 10 = Ok (v, w')
    /\ ((min_slack (w_timing w') = min_slack (w_timing w)
         /\ crit_path (w_timing w') = Some [])
        \/ (min_slack (w_timing w') < min_slack (w_timing w)
            /\ exists q, q <> []
                 /\ crit_path (w_timing w') = Some (current_path (w_timing w) ++ q))).
Proof.
  intros ctx w. eexists _, _. split; [vm_compute; reflexivity |].
  refine (X14_recursive_walk_captures_path 5 ctx w 100 0 10 _ _ [] _ _);
    vm_compute; reflexivity.
Defined.

(** Two loop bodies that agree on the states a loop can reach give the
    same loop. *)
Lemma foldM_agree {S B : Type} (P : S -> Prop) (f g : S -> B -> result S) (l : list B) :
  (forall s x, P s -> f s x = g s x) ->
  (forall s x s', P s -> g s x = Ok s' -> P s') ->
  forall s, P s -> foldM f l s = foldM g l s.
Proof.
  intros Hfg Hkeep. induction l as [|x l IH]; intros s Hs; simpl; [done |].
  rewrite (Hfg s x Hs). destruct (g s x) as [s'|e] eqn:Hstep; simpl; [| done].
  apply IH. by eapply Hkeep.
Qed.

(** A loop fails when the body fails at one of its elements in every state
    the loop can reach. *)
Lemma foldM_fails {S B : Type} (P : S -> Prop) (f : S -> B -> result S) (l : list B) x :
  x ∈ l ->
  (forall s, P s -> exists e, f s x = Err e) ->
  (forall s y s', P s -> f s y = Ok s' -> P s') ->
  forall s, P s -> exists e, foldM f l s = Err e.
Proof.
  intros Hx Hfail Hkeep. induction l as [|y l IH]; intros s Hs;
    [by apply elem_of_nil in Hx |].
  simpl. destruct (f s y) as [s'|e] eqn:Hstep; simpl; [| eauto].
  apply elem_of_cons in Hx as [->|Hx].
  - destruct (Hfail s Hs) as [e He]. congruence.
  - apply IH; [done |]. by eapply Hkeep.
Qed.

Lemma follow_user_port_walk_le fn ctx :
  (forall w net pl s v w', fn w net pl s = Ok (v, w') -> walk_le w w') ->
  forall w user pl s v w',
    follow_user_port fn ctx w user pl s = Ok (v, w') -> walk_le w w'.
Proof.
  apply (follow_user_port_preserves walk_le walk_le_refl walk_le_trans walk_le_end).
Qed.

Lemma follow_net_user_walk_le fup ctx net pl s :
  (forall w u pl' s' v w', fup w u pl' s' = Ok (v, w') -> walk_le w w') ->
  forall bw i bw', follow_net_user fup ctx net pl s bw i = Ok bw' -> walk_le bw.2 bw'.2.
Proof.
  apply (follow_net_user_preserves walk_le walk_le_refl walk_le_trans walk_le_push
           walk_le_pop walk_le_lower).
Qed.

Lemma walk_le_net_delays w w' :
  walk_le w w' -> net_delays (w_timing w) = false -> net_delays (w_timing w') = false.
Proof. intros (_ & _ & H & _). congruence. Qed.

Lemma follow_user_port_route fn fn' ctx f :
  (forall w net pl s, net_delays (w_timing w) = false ->
                      fn' w net pl s = fn w net pl s) ->
  (forall w net pl s v w', fn w net pl s = Ok (v, w') -> walk_le w w') ->
  forall w user pl s,
    net_delays (w_timing w) = false ->
    follow_user_port fn' (set_route_delay ctx f) w user pl s
    = follow_user_port fn ctx w user pl s.
Proof.
  intros Hfn Hle w user pl s Hw. unfold follow_user_port.
  destruct (pl =? 0); [done |].
  change (clocked (set_route_delay ctx f)) with (clocked ctx).
  destruct (clocked ctx (cell user) (port user)); [done |].
  change (cell_ports (set_route_delay ctx f)) with (cell_ports ctx).
  apply (foldM_agree (fun vw : Z * Walk => net_delays (w_timing vw.2) = false));
    [| | done].
  - intros [v1 w1] kp H1. simpl in *.
    destruct (is_out kp.2); [| done]. destruct (getCellDelay ctx _ _ _); [| done].
    destruct (port_net kp.2); [| done]. by rewrite Hfn.
  - intros [v1 w1] kp [v2 w2] H1. simpl in *.
    destruct (is_out kp.2); [| by intros [= <- <-]].
    destruct (getCellDelay ctx _ _ _); [| by intros [= <- <-]].
    destruct (port_net kp.2); [| by intros [= <- <-]].
    intros H. apply bind_Ok in H as ([pb w3] & Hcall & H). inversion H; subst.
    eapply walk_le_net_delays; [by eapply Hle | done].
Qed.

Lemma follow_net_route fuel ctx f :
  forall w net pl s,
    net_delays (w_timing w) = false ->
    follow_net fuel (set_route_delay ctx f) w net pl s = follow_net fuel ctx w net pl s.
Proof.
  induction fuel as [|fuel IH]; intros w net pl s Hw; simpl; [done |].
  destruct (pl + 1 =? 0); [done |].
  apply (foldM_agree (fun bw : Z * Walk => net_delays (w_timing bw.2) = false));
    [| | done].
  - intros [b w1] i H1. unfold follow_net_user. simpl in *.
    destruct (net_users (w_nets w1) net !! i) as [usr|]; [| done].
    rewrite H1.
    assert (Hpush : net_delays (w_timing (push_path w1 net i)) = false)
      by (eapply walk_le_net_delays; [apply walk_le_push | done]).
    destruct (getBudgetOverride ctx net (cell usr) (port usr)) as [ov|].
    + rewrite (follow_user_port_route (follow_net fuel ctx)
                 (follow_net fuel (set_route_delay ctx f)) ctx f); [done | | |].
      * intros. by apply IH.
      * intros. by eapply follow_net_walk_le.
      * eapply walk_le_net_delays; [apply walk_le_lower | done].
    + rewrite (follow_user_port_route (follow_net fuel ctx)
                 (follow_net fuel (set_route_delay ctx f)) ctx f); [done | | | done].
      * intros. by apply IH.
      * intros. by eapply follow_net_walk_le.
  - intros bw i bw' H1 Hstep. eapply walk_le_net_delays; [| exact H1].
    eapply follow_net_user_walk_le; [| exact Hstep].
    apply follow_user_port_walk_le. intros. by eapply follow_net_walk_le.
Qed.

(** X15.  Without [net_delays], [follow_net] does not read the route delays:
    it gives the same result for every route delay function. *)
Theorem X15_recursive_walk_ignores_route_delays fuel ctx f w net path_length slack :
  net_delays (w_timing w) = false ->
  follow_net fuel (set_route_delay ctx f) w net path_length slack
  = follow_net fuel ctx w net path_length slack.
Proof. apply follow_net_route. Qed.

(** The theorem at the pipeline with route delay 4 and with none: both give
    the budgets 4 and 4. *)
Lemma X15_recursive_walk_route_witness :
  let ctx := Examples.pipeline 4 0 100 100 0 false 10 in
  let w := {| w_nets := nets ctx;
              w_timing := mkTiming ctx false true None None |} in
  exists v w',
    follow_net 5 (set_route_delay ctx (fun _ _ _ => 0)) w 100 0 10 = Ok (v, w')
    /\ follow_net 5 ctx w 100 0 10 = Ok (v, w')
    /\ budget <$> net_users (w_nets w') 100 = [4]
    /\ budget <$> net_users (w_nets w') 101 = [4].
Proof.
  intros ctx w. eexists _, _. split; [vm_compute; reflexivity |].
  split; [| split; vm_compute; reflexivity].
  etrans; [symmetry; apply (X15_recursive_walk_ignores_route_delays
                               5 ctx (fun _ _ _ => 0) w 100 0 10); reflexivity |].
  vm_compute; reflexivity.
Defined.

(** X16.  At path length 0, as for a net driven by a clocked output,
    [follow_net] never returns a value when some user of the net has a
    budget override: [follow_user_port] is then called with path length 0
    and divides by it. *)
Theorem X16_recursive_walk_divides_by_zero fuel ctx w net slack i usr D :
  net_users (w_nets w) net !! i = Some usr ->
  getBudgetOverride ctx net (cell usr) (port usr) = Some D ->
  exists e, follow_net fuel ctx w net 0 slack = Err e.
Proof.
  intros Hi Hov. destruct fuel as [|fuel]; simpl; [eauto |].
  apply (foldM_fails
           (fun bw : Z * Walk =>
              exists usr', net_users (w_nets bw.2) net !! i = Some usr'
                           /\ same_port usr usr') _ _ i).
  - apply elem_of_seq. apply lookup_lt_Some in Hi. lia.
  - intros [b w1] (usr' & Hi' & Hc & Hp). unfold follow_net_user. simpl in *.
    rewrite Hi'. rewrite <- Hc, <- Hp, Hov. simpl. eauto.
  - intros bw j bw' (usr' & Hi' & Hsp) Hstep.
    assert (Hle : walk_le bw.2 bw'.2).
    { eapply follow_net_user_walk_le; [| exact Hstep].
      apply follow_user_port_walk_le. intros. by eapply follow_net_walk_le. }
    destruct Hle as (Hnets & _). specialize (Hnets net). unfold net_users in *.
    destruct (w_nets bw.2 !! net) as [ni|]; [| destruct i; discriminate].
    inversion Hnets as [? ni' (_ & _ & Hus) |]; subst.
    destruct (Forall2_lookup_l _ _ _ _ _ Hus Hi') as (usr'' & Hi'' & Hsp' & _).
    exists usr''. split; [done |]. by eapply same_port_trans.
  - simpl. exists usr. split; [done | apply same_port_refl].
Qed.

(** The theorem at the net of the register output 10.Q of [pinned]. *)
Lemma X16_recursive_walk_divides_witness :
  exists e,
    follow_net 5 Examples.pinned
      {| w_nets := nets Examples.pinned;
         w_timing := mkTiming Examples.pinned true true None None |} 100 0 20
    = Err e.
Proof.
  refine (X16_recursive_walk_divides_by_zero 5 Examples.pinned
            {| w_nets := nets Examples.pinned;
               w_timing := mkTiming Examples.pinned true true None None |}
            100 20 0%nat (Examples.usr 11 4 0) 5 _ _); vm_compute; reflexivity.
Defined.

(** ** The backward loop computes its candidates without reading budgets *)

Lemma lowered_same_port c u u' : same_port u u' -> same_port (lowered c u) (lowered c u').
Proof. intros [Hc Hp]. destruct c; by split. Qed.

Lemma lowered_compose c1 c2 :
  exists c, forall u, lowered c2 (lowered c1 u) = lowered c u.
Proof.
  destruct c1 as [x|], c2 as [y|].
  - exists (Some (Z.min x y)). intros u. unfold lowered, set_budget. simpl.
    f_equal. lia.
  - by exists (Some x).
  - by exists (Some y).
  - by exists None.
Qed.

Lemma lowered_idemp c u : lowered c (lowered c u) = lowered c u.
Proof. destruct c as [x|]; [| done]. unfold lowered, set_budget. simpl. f_equal. lia. Qed.

Lemma backward_port_two ctx net l ua ub ba bb kp ua' ba' :
  same_port ua ub -> b_data ba = b_data bb ->
  backward_port ctx net l (ua, ba) kp = Ok (ua', ba') ->
  exists c bb',
    ua' = lowered c ua
    /\ backward_port ctx net l (ub, bb) kp = Ok (lowered c ub, bb')
    /\ b_data ba' = b_data bb' /\ (ba = bb -> ba' = bb').
Proof.
  intros Hsp Hd. pose proof Hsp as [Hc Hp]. unfold backward_port. simpl.
  rewrite <- Hc, <- Hp, <- Hd, <- (same_port_realized _ _ _ _ Hsp),
    <- (same_port_override _ _ _ _ Hsp).
  destruct (port_net kp.2) as [n|]; [| intros [= <- <-]; by exists None, bb].
  destruct (is_out kp.2); [| intros [= <- <-]; by exists None, bb].
  destruct (getCellDelay _ _ _ _); [| intros [= <- <-]; by exists None, bb].
  intros H. apply bind_Ok in H as (dn & Hdn & H). apply bind_Ok in H as (share & Hs & H).
  apply bind_Ok in H as ([u' nd'] & Hdist & H). inversion H; subst.
  apply distribute_Ok in Hdist as (d & Hdnet & -> & ->).
  exists (Some (realized_delay ctx net ua + share)). eexists.
  split; [done |]. rewrite Hdn. simpl. rewrite Hs. simpl.
  unfold distribute, data_at. rewrite Hdnet. simpl.
  split; [reflexivity |]. split; [reflexivity |]. by intros ->.
Qed.

Lemma backward_ports_two ctx net l :
  forall ps ua ub ba bb ua' ba',
    same_port ua ub -> b_data ba = b_data bb ->
    foldM (backward_port ctx net l) ps (ua, ba) = Ok (ua', ba') ->
    exists c bb',
      ua' = lowered c ua
      /\ foldM (backward_port ctx net l) ps (ub, bb) = Ok (lowered c ub, bb')
      /\ b_data ba' = b_data bb' /\ (ba = bb -> ba' = bb').
Proof.
  induction ps as [|kp ps IH]; intros ua ub ba bb ua' ba' Hsp Hd H; simpl in H.
  - inversion H; subst. by exists None, bb.
  - apply bind_Ok in H as ([u1 b1] & Hstep & H).
    destruct (backward_port_two _ _ _ _ _ _ _ _ _ _ Hsp Hd Hstep)
      as (c1 & bb1 & -> & Hstep' & Hd1 & He1).
    destruct (IH _ (lowered c1 ub) _ bb1 _ _ (lowered_same_port c1 _ _ Hsp) Hd1 H)
      as (c2 & bb2 & -> & Hrest & Hd2 & He2).
    destruct (lowered_compose c1 c2) as [c Hc].
    exists c, bb2. simpl. rewrite Hstep'. simpl. rewrite Hrest, !Hc.
    split; [done |]. split; [done |]. split; [done |]. auto.
Qed.

Lemma backward_user_two ctx net l ua ub ba bb ua' ba' :
  same_port ua ub -> b_data ba = b_data bb ->
  backward_user ctx net l ba ua = Ok (ua', ba') ->
  exists c bb',
    ua' = lowered c ua
    /\ backward_user ctx net l bb ub = Ok (lowered c ub, bb')
    /\ b_data ba' = b_data bb' /\ (ba = bb -> ba' = bb').
Proof.
  intros Hsp Hd. pose proof Hsp as [Hc Hp]. unfold backward_user.
  rewrite <- Hc, <- Hp, <- Hd, <- (same_port_realized _ _ _ _ Hsp),
    <- (same_port_override _ _ _ _ Hsp).
  destruct (clocked ctx (cell ua) (port ua)).
  - intros H. apply bind_Ok in H as (d & Hdn & H). apply bind_Ok in H as (share & Hs & H).
    apply bind_Ok in H as ([u' nd'] & Hdist & H). inversion H; subst.
    apply distribute_Ok in Hdist as (d' & Hdnet & -> & ->).
    exists (Some (realized_delay ctx net ua + share)). eexists.
    split; [done |]. rewrite Hdn. simpl. rewrite Hs. simpl.
    unfold distribute, data_at. rewrite Hdnet. simpl.
  split; [reflexivity |]. split; [reflexivity |]. by intros ->.
  - by apply backward_ports_two.
Qed.

Lemma backward_users_two ctx net l :
  forall usa usb ba bb usa' ba',
    Forall2 same_port usa usb -> b_data ba = b_data bb ->
    mapM_state (backward_user ctx net l) ba usa = Ok (usa', ba') ->
    exists cs bb',
      length cs = length usa
      /\ usa' = zip_with lowered cs usa
      /\ mapM_state (backward_user ctx net l) bb usb = Ok (zip_with lowered cs usb, bb')
      /\ b_data ba' = b_data bb' /\ (ba = bb -> ba' = bb').
Proof.
  intros usa usb ba bb usa' ba' HF. revert ba bb usa' ba'.
  induction HF as [|ua ub usa usb Hsp _ IH]; intros ba bb usa' ba' Hd H; simpl in H.
  - inversion H; subst. by exists [], bb.
  - apply bind_Ok in H as ([u1 b1] & Hstep & H).
    apply bind_Ok in H as ([us1 b2] & Hrest & H). inversion H; subst.
    destruct (backward_user_two _ _ _ _ _ _ _ _ _ Hsp Hd Hstep)
      as (c & bb1 & -> & Hstep' & Hd1 & He1).
    destruct (IH _ _ _ _ Hd1 Hrest) as (cs & bb2 & Hlen & -> & Hrest' & Hd2 & He2).
    exists (c :: cs), bb2. simpl. rewrite Hstep'. simpl. rewrite Hrest'. simpl.
    split; [by rewrite Hlen |]. split; [done |]. split; [done |]. split; [done |]. auto.
Qed.

Lemma zip_with_lowered_None us :
  zip_with lowered (replicate (length us) None) us = us.
Proof. induction us as [|u us IH]; simpl; [done | by rewrite IH]. Qed.

Lemma zip_with_lowered_compose (cs1 cs2 : list (option Z)) :
  length cs1 = length cs2 ->
  exists cs, length cs = length cs1
             /\ forall us, zip_with lowered cs2 (zip_with lowered cs1 us)
                           = zip_with lowered cs us.
Proof.
  revert cs2. induction cs1 as [|c1 cs1 IH]; intros [|c2 cs2] Hlen; try discriminate.
  - exists []. done.
  - destruct (IH cs2 ltac:(by inversion Hlen)) as (cs & Hl & Hcs).
    destruct (lowered_compose c1 c2) as [c Hc].
    exists (c :: cs). split; [simpl; by rewrite Hl |].
    intros [|u us]; simpl; [done |]. by rewrite Hc, Hcs.
Qed.

Lemma backward_net_two ctx nsa nsb ba bb m nsa' ba' :
  clear_budgets nsa = clear_budgets nsb -> b_data ba = b_data bb ->
  backward_net ctx (nsa, ba) m = Ok (nsa', ba') ->
  exists nsb' bb',
    backward_net ctx (nsb, bb) m = Ok (nsb', bb')
    /\ b_data ba' = b_data bb' /\ (ba = bb -> ba' = bb')
    /\ lowered_alike nsa nsb nsa' nsb'.
Proof.
  intros Hclear Hd H. unfold backward_net in *. simpl in *.
  apply bind_Ok in H as (d & Hdn & H). apply bind_Ok in H as ([us b1] & Hus & H).
  inversion H; subst.
  destruct (backward_users_two _ _ _ _ _ _ bb _ _ (clear_budgets_users _ _ m Hclear) Hd Hus)
    as (cs & bb' & Hlen & -> & Hus' & Hd' & He').
  rewrite <- Hd, Hdn. simpl. rewrite Hus'. simpl. eexists _, _.
  split; [reflexivity |]. split; [done |]. split; [done |].
  intros n. pose proof (f_equal (fun ns => ns !! m) Hclear) as Hm. simpl in Hm.
  unfold clear_budgets in Hm. rewrite !lookup_fmap in Hm.
  destruct (decide (n = m)) as [->|Hne].
  - exists cs. split; [done |]. unfold store_users, net_users, relowered.
    destruct (nsa !! m) as [nia|] eqn:Ha, (nsb !! m) as [nib|] eqn:Hb;
      simpl in Hm; try discriminate.
    + by rewrite !lookup_insert_eq.
    + by rewrite Ha, Hb.
  - exists (replicate (length (net_users nsa n)) None). rewrite length_replicate.
    split; [done |]. unfold store_users.
    pose proof (Forall2_length _ _ _ (clear_budgets_users _ _ n Hclear)) as Hl.
    assert (Hid : forall ns, ns !! n = relowered (replicate (length (net_users ns n)) None)
                                         <$> ns !! n).
    { intros ns. unfold net_users, relowered. destruct (ns !! n) as [ni|]; [| done].
      simpl. rewrite zip_with_lowered_None. by destruct ni. }
    split.
    + destruct (nsa !! m); [rewrite lookup_insert_ne by done |]; apply Hid.
    + rewrite Hl. destruct (nsb !! m); [rewrite lookup_insert_ne by done |]; apply Hid.
Qed.

Lemma lowered_alike_refl nsa nsb :
  clear_budgets nsa = clear_budgets nsb -> lowered_alike nsa nsb nsa nsb.
Proof.
  intros Hclear n. exists (replicate (length (net_users nsa n)) None).
  rewrite length_replicate. split; [done |].
  pose proof (Forall2_length _ _ _ (clear_budgets_users _ _ n Hclear)) as Hl.
  assert (Hid : forall ns, ns !! n = relowered (replicate (length (net_users ns n)) None)
                                       <$> ns !! n).
  { intros ns. unfold net_users, relowered. destruct (ns !! n) as [ni|]; [| done].
    simpl. rewrite zip_with_lowered_None. by destruct ni. }
  split; [apply Hid | rewrite Hl; apply Hid].
Qed.

Lemma lowered_alike_trans nsa nsb nsa1 nsb1 nsa2 nsb2 :
  lowered_alike nsa nsb nsa1 nsb1 -> lowered_alike nsa1 nsb1 nsa2 nsb2 ->
  lowered_alike nsa nsb nsa2 nsb2.
Proof.
  intros H1 H2 n. destruct (H1 n) as (cs1 & Hl1 & Ha1 & Hb1).
  destruct (H2 n) as (cs2 & Hl2 & Ha2 & Hb2).
  assert (Hlen : length cs1 = length cs2).
  { rewrite Hl2. unfold net_users in *. rewrite Ha1.
    destruct (nsa !! n) as [ni|]; simpl in *; [| done].
    rewrite length_zip_with. lia. }
  destruct (zip_with_lowered_compose cs1 cs2 Hlen) as (cs & Hl & Hcs).
  exists cs. split; [congruence |].
  rewrite Ha2, Hb2, Ha1, Hb1, <- !option_fmap_compose.
  split; apply option_fmap_ext; intros ni; unfold compose, relowered; simpl;
    by rewrite Hcs.
Qed.

Lemma backward_two ctx :
  forall l nsa nsb ba bb nsa' ba',
    clear_budgets nsa = clear_budgets nsb -> b_data ba = b_data bb ->
    foldM (backward_net ctx) l (nsa, ba) = Ok (nsa', ba') ->
    exists nsb' bb',
      foldM (backward_net ctx) l (nsb, bb) = Ok (nsb', bb')
      /\ b_data ba' = b_data bb' /\ (ba = bb -> ba' = bb')
      /\ lowered_alike nsa nsb nsa' nsb'.
Proof.
  induction l as [|m l IH]; intros nsa nsb ba bb nsa' ba' Hclear Hd H; simpl in H.
  - inversion H; subst. exists nsb, bb. simpl.
    split; [done |]. split; [done |]. split; [done |]. by apply lowered_alike_refl.
  - apply bind_Ok in H as ([ns1 b1] & Hstep & H).
    destruct (backward_net_two _ _ _ _ _ _ _ _ Hclear Hd Hstep)
      as (nsb1 & bb1 & Hstep' & Hd1 & He1 & Hal1).
    pose proof (backward_net_clear _ _ _ _ Hstep) as Hc1.
    pose proof (backward_net_clear _ _ _ _ Hstep') as Hc1'. simpl in Hc1, Hc1'.
    destruct (IH ns1 nsb1 b1 bb1 _ _ ltac:(congruence) Hd1 H)
      as (nsb2 & bb2 & Hrest & Hd2 & He2 & Hal2).
    exists nsb2, bb2. simpl. rewrite Hstep'. simpl.
    split; [done |]. split; [done |]. split; [auto |].
    by eapply lowered_alike_trans.
Qed.

Lemma zip_with_lowered_idemp cs :
  forall us, zip_with lowered cs (zip_with lowered cs us) = zip_with lowered cs us.
Proof.
  induction cs as [|c cs IH]; intros [|u us]; simpl; try done.
  by rewrite lowered_idemp, IH.
Qed.

(** The walk on its own result, from any other [Timing]: the context is
    kept, and the slacks are those of the first walk when it starts from the
    same [min_slack] and histogram. *)
Lemma walk_paths_keeps ctx t ctx' t' t2 :
  walk_paths ctx t = Ok (ctx', t') ->
  exists b1 b2,
    t' = set_results t b1
    /\ walk_paths ctx' t2 = Ok (ctx', set_results t2 b2)
    /\ (min_slack t2 = min_slack t -> slack_histogram t2 = slack_histogram t -> b2 = b1).
Proof.
  intros H. pose proof (walk_paths_clear _ _ _ _ H) as [_ Hclear].
  apply walk_paths_Ok in H as (k & nd & [ns1 b1] & Hk & Hf & Hb & -> & ->).
  simpl in *. unfold walk_paths.
  rewrite linearize_same_shape by done. rewrite Hk. simpl.
  change (seed (set_nets ctx ns1)) with (seed ctx).
  rewrite forward_same_shape by done. rewrite Hf. simpl.
  change (backward (set_nets ctx ns1)) with (backward ctx).
  unfold backward in *.
  destruct (backward_two _ _ _ ns1
              {| b_data := nd; b_min_slack := min_slack t;
                 b_histogram := slack_histogram t |}
              {| b_data := nd; b_min_slack := min_slack t2;
                 b_histogram := slack_histogram t2 |} _ _ (eq_sym Hclear) eq_refl Hb)
    as (ns2 & b2 & Hb2 & _ & He & Hal).
  exists b1, b2. rewrite Hb2. simpl. split; [done |].
  assert (ns2 = ns1) as ->.
  { apply map_eq. intros n. destruct (Hal n) as (cs & _ & Ha & ->).
    rewrite Ha, <- option_fmap_compose. apply option_fmap_ext.
    intros ni. unfold compose, relowered. simpl. by rewrite zip_with_lowered_idemp. }
  split; [done |]. intros Hm Hh. symmetry. apply He. by rewrite Hm, Hh.
Qed.

(** Running the walk again on its own result changes nothing. *)
Lemma walk_paths_again ctx t ctx' t' :
  walk_paths ctx t = Ok (ctx', t') -> walk_paths ctx' t = Ok (ctx', t').
Proof.
  intros H. destruct (walk_paths_keeps _ _ _ _ t H) as (b1 & b2 & -> & H2 & He).
  by rewrite (He eq_refl eq_refl) in H2.
Qed.

(** A histogram that was not requested is not created. *)
Lemma backward_no_histogram ctx l ns b ns' b' :
  foldM (backward_net ctx) l (ns, b) = Ok (ns', b') ->
  b_histogram b = None -> b_histogram b' = None.
Proof.
  intros H Hb. revert H. change b' with (ns', b').2.
  apply foldM_invariant with (P := fun s => b_histogram s.2 = None); [| done].
  intros [ns1 b1] m [ns2 b2] _ H1 Hstep. simpl in *.
  unfold backward_net in Hstep. simpl in Hstep.
  apply bind_Ok in Hstep as (d & _ & Hstep).
  apply bind_Ok in Hstep as ([us b3] & Hus & Hstep). inversion Hstep; subst.
  revert H1.
  apply (mapM_state_rel (fun x y => b_histogram x = None -> b_histogram y = None)
           (backward_user ctx m (s32 (u32 (max_path_length d + 1))))
           (fun _ H => H) (fun _ _ _ H1 H2 H => H2 (H1 H))) with (2 := Hus).
  intros s0 u u' s1. unfold backward_user.
  destruct (clocked ctx (cell u) (port u)).
  - intros H Hn. apply bind_Ok in H as (d' & _ & H). apply bind_Ok in H as (sh & _ & H).
    apply bind_Ok in H as ([u2 nd2] & _ & H). inversion H; subst. simpl.
    by rewrite Hn.
  - intros H Hn. revert H. change s1 with (u', s1).2.
    apply foldM_invariant with (P := fun s => b_histogram s.2 = None); [| done].
    intros [u1 c1] kp [u2 c2] _ H2 Hp. simpl in *.
    unfold backward_port in Hp. simpl in Hp.
    destruct (port_net kp.2); [| by inversion Hp; subst].
    destruct (is_out kp.2); [| by inversion Hp; subst].
    destruct (getCellDelay _ _ _ _); [| by inversion Hp; subst].
    apply bind_Ok in Hp as (d' & _ & H). apply bind_Ok in H as (sh & _ & H).
    apply bind_Ok in H as ([u3 nd3] & _ & H). by inversion H; subst.
Qed.

(** X17.  [timing_analysis] is idempotent: run on the context it returned,
    it returns that context again, budgets included, with the same report. *)
Theorem X17_analysis_is_idempotent ctx print_histogram print_path ctx' a :
  timing_analysis ctx print_histogram print_path = Ok (ctx', a) ->
  timing_analysis ctx' print_histogram print_path = Ok (ctx', a).
Proof.
  intros H. pose proof H as H0. unfold timing_analysis in H.
  apply bind_Ok in H as ([c1 t1] & Hw & H).
  apply bind_Ok in H as (hist & Hh & H). inversion H; subst c1. clear H.
  pose proof (walk_paths_again _ _ _ _ Hw) as Hw2.
  pose proof (walk_paths_clear _ _ _ _ Hw) as [Hc _].
  unfold timing_analysis at 1. rewrite Hc.
  change (mkTiming (set_nets ctx (nets ctx')) true false)
    with (mkTiming ctx true false).
  rewrite <- Hc, Hw2. unfold timing_analysis in H0. rewrite Hw in H0.
  rewrite H3. exact H0.
Qed.

Lemma X17_analysis_is_idempotent_witness :
  exists ctx' a,
    timing_analysis (Examples.pipeline 4 0 100 100 1 false 10) false true = Ok (ctx', a)
    /\ timing_analysis ctx' false true = Ok (ctx', a).
Proof.
  eexists _, _. split; [vm_compute; reflexivity |].
  refine (X17_analysis_is_idempotent
            (Examples.pipeline 4 0 100 100 1 false 10) false true _ _ _).
  vm_compute; reflexivity.
Defined.

(** X18.  When [assign_budget] does not retarget the period, an analysis
    that follows it changes neither budgets nor anything else of the
    context; without the histogram it always completes. *)
Theorem X18_analysis_keeps_assigned_budgets ctx ctx1 :
  assign_budget ctx = Ok ctx1 ->
  auto_freq ctx && (0 <? slack_redist_iter ctx) = false ->
  (forall print_histogram print_path c a,
      timing_analysis ctx1 print_histogram print_path = Ok (c, a) -> c = ctx1)
  /\ (forall print_path, exists a, timing_analysis ctx1 false print_path = Ok (ctx1, a)).
Proof.
  intros H Hno. apply assign_budget_Ok in H as (ns1 & t1 & Hw & Hclear & ->).
  rewrite Hno.
  assert (Hkeep : forall t2, exists b2,
             walk_paths (set_nets ctx ns1) t2 = Ok (set_nets ctx ns1, set_results t2 b2)).
  { intros t2. destruct (walk_paths_keeps _ _ _ _ t2 Hw) as (b1 & b2 & _ & H2 & _).
    by exists b2. }
  split.
  - intros ph pp c a H. unfold timing_analysis in H.
    apply bind_Ok in H as ([c1 t2] & Hw2 & H).
    destruct (Hkeep (mkTiming (set_nets ctx ns1) true false
                       (if pp then Some [] else None) (if ph then Some [] else None)))
      as [b2 Hb2].
    rewrite Hb2 in Hw2. inversion Hw2; subst.
    apply bind_Ok in H as (hist & _ & H). by inversion H.
  - intros pp. unfold timing_analysis.
    destruct (Hkeep (mkTiming (set_nets ctx ns1) true false
                       (if pp then Some [] else None) None)) as [b2 Hb2].
    rewrite Hb2. simpl.
    assert (Hnone : b_histogram b2 = None).
    { apply walk_paths_Ok in Hb2 as (k & nd & [ns2 b3] & _ & _ & Hb & _ & Hres).
      apply (f_equal slack_histogram) in Hres. simpl in Hres. rewrite Hres.
      unfold backward in Hb. by eapply backward_no_histogram. }
    rewrite Hnone. simpl. eauto.
Qed.

Lemma X18_analysis_keeps_witness :
  exists ctx1,
    assign_budget (Examples.pipeline 4 0 0 0 0 true 10) = Ok ctx1
    /\ (forall print_histogram print_path c a,
          timing_analysis ctx1 print_histogram print_path = Ok (c, a) -> c = ctx1)
    /\ (forall print_path, exists a, timing_analysis ctx1 false print_path = Ok (ctx1, a)).
Proof.
  eexists. split; [vm_compute; reflexivity |].
  refine (X18_analysis_keeps_assigned_budgets (Examples.pipeline 4 0 0 0 0 true 10) _ _ _);
    vm_compute; reflexivity.
Defined.

(** ** Budgets when timing is met *)











(** ** The budget of a clocked sink *)








(** ** The nets that the linearizer reaches *)

Lemma out_net_fun ctx c p n n' :
  wf_context ctx -> out_net ctx c p n -> out_net ctx c p n' -> n = n'.
Proof.
  intros Hwf (pi & Hin & _ & Hn) (pi' & Hin' & _ & Hn').
  apply cell_ports_elem in Hin as (ci & Hc & Hin & Hci).
  apply cell_ports_elem in Hin' as (ci' & Hc' & Hin' & _).
  rewrite Hc in Hc'. inversion Hc'; subst ci'.
  pose proof (ports_key_unique _ _ _ _ _ _ Hwf Hci Hin Hin') as <-. congruence.
Qed.

Lemma seed_fanin_positive ctx : wf_context ctx -> fanin_positive (port_fanin (seed ctx)).
Proof.
  intros Hwf [c p] v Hv. pose proof Hwf as (Hnd & Hcells & _).
  assert (Hc : counted ctx c p v).
  { revert Hv. unfold seed. apply seed_cells_counted; simpl.
    - exact Hnd.
    - intros kc Hkc. split; [done |]. rewrite Forall_forall in Hcells.
      by destruct (Hcells kc Hkc) as (? & _).
    - intros c' p'. rewrite lookup_empty. by intros [? ?].
    - intros c' p' v'. by rewrite lookup_empty. }
  destruct Hc as (ci & o & Hci & Ho & <- & Hclk & Hne & ->).
  destruct (cell_ports_wf _ _ _ Hwf Hci) as [_ (_ & _ & Hlen & _)]. simpl in Hlen.
  set (ins := filter _ _) in *.
  assert (Hle : (length ins <= length (ports ci))%nat).
  { unfold ins.
    pose proof (length_filter (fun i => is_Some (getCellDelay ctx c i (port_name o.1.2)))
                  (input_ports (ports ci))).
    pose proof (input_ports_length (ports ci)). lia. }
  rewrite u32_small by lia. destruct ins; [done | simpl; lia].
Qed.

Lemma visit_port_positive ctx usr k kp k' :
  fanin_positive (k_fanin k) -> visit_port ctx usr k kp = Ok k' ->
  fanin_positive (k_fanin k').
Proof.
  intros Hp [[_ ->]|(n & v & Hn & Hhit & Hv & [[_ ->]|[Hnz ->]])]%visit_port_Ok;
    [done | |]; intros cp v' Hv'; simpl in Hv'.
  - apply lookup_delete_Some in Hv' as [_ Hv']. by eapply Hp.
  - apply lookup_insert_Some in Hv' as [[_ <-]|[_ Hv']]; [done | by eapply Hp].
Qed.

Lemma visit_port_erased ctx usr k kp k' :
  wf_context ctx -> kp ∈ cell_ports ctx (cell usr) ->
  erased_placed ctx k -> visit_port ctx usr k kp = Ok k' -> erased_placed ctx k'.
Proof.
  intros Hwf Hkp He
    [[_ ->]|(n & v & Hn & Hhit & Hv & [[_ ->]|[Hnz ->]])]%visit_port_Ok;
    [done | |]; intros c p n' Hout Hs Hnone; simpl in *.
  - apply elem_of_app.
    destruct (decide ((cell usr, kp.1) = (c, p))) as [Heq|Hne].
    + right. inversion Heq; subst c p.
      pose proof (arc_hit_out_net _ _ _ _ Hkp Hn Hhit) as Hout'.
      rewrite (out_net_fun _ _ _ _ _ Hwf Hout Hout'). by left.
    + left. rewrite lookup_delete_ne in Hnone by done. by eapply He.
  - destruct (decide ((cell usr, kp.1) = (c, p))) as [Heq|Hne].
    + rewrite <- Heq, lookup_insert_eq in Hnone. discriminate.
    + rewrite lookup_insert_ne in Hnone by done. by eapply He.
Qed.

Lemma visit_user_kept ctx k usr k' :
  wf_context ctx ->
  fanin_positive (k_fanin k) /\ erased_placed ctx k ->
  visit_user ctx k usr = Ok k' ->
  fanin_positive (k_fanin k') /\ erased_placed ctx k'.
Proof.
  unfold visit_user. intros Hwf Hk. destruct (clocked _ _ _); [by intros [= <-] |].
  apply (foldM_invariant (fun s => fanin_positive (k_fanin s) /\ erased_placed ctx s));
    [| done].
  intros s1 x s2 Hx [H1 H2] Hstep. split.
  - by eapply visit_port_positive.
  - by eapply visit_port_erased.
Qed.

Lemma drain_kept ctx fuel k k' :
  wf_context ctx ->
  fanin_positive (k_fanin k) /\ erased_placed ctx k ->
  drain fuel ctx k = Ok k' ->
  fanin_positive (k_fanin k') /\ erased_placed ctx k'.
Proof.
  intros Hwf. revert k. induction fuel as [|fuel IH]; intros k Hk H; simpl in H.
  - destruct (k_queue k); [by inversion H; subst | discriminate].
  - destruct (k_queue k) as [|net q]; [by inversion H; subst |].
    inv_bind H. eapply IH; [| exact H].
    revert Hr.
    apply (foldM_invariant (fun s => fanin_positive (k_fanin s) /\ erased_placed ctx s));
      [| exact Hk].
    intros s1 x s2 _. by apply visit_user_kept.
Qed.

(** X21.  Which nets the linearizer reaches, on a well-formed netlist: the
    net of an output that has a combinational arc from some net-bound input
    is in the order as soon as each input with such an arc is an unclocked
    sink of a net of the order.  With the seeds, these are the only nets of
    the order: a net of the order that was not seeded has such an output,
    and each input with an arc to it is a sink of a net placed earlier. *)
Theorem X21_linearize_reaches ctx k :
  wf_context ctx -> linearize ctx = Ok k ->
  (forall c p n,
      out_net ctx c p n -> clocked ctx c p = false ->
      arc_inputs ctx c p <> [] ->
      (forall i, i ∈ arc_inputs ctx c p ->
                 clocked ctx c i = false
                 /\ exists m, m ∈ k_order k /\ (c, i) ∈ userports ctx m) ->
      n ∈ k_order k)
  /\ (forall n, n ∈ k_order k -> n ∉ seed_nets ctx ->
        exists c p, out_net ctx c p n /\ arc_inputs ctx c p <> []
          /\ forall i, i ∈ arc_inputs ctx c p ->
               exists m, precedes (k_order k) m n /\ (c, i) ∈ userports ctx m).
Proof.
  intros Hwf Hk.
  destruct (linearize_follows ctx k Hwf Hk) as (T & Hinv & Hlow).
  split.
  - intros c p n Hout Hclk Hne Hall.
    assert (Hkept : fanin_positive (k_fanin k) /\ erased_placed ctx k).
    { unfold linearize in Hk. eapply (drain_kept ctx _ _ k Hwf); [| exact Hk].
      split; simpl; [by apply seed_fanin_positive |].
      intros c' p' n' _ Hs Hnone. simpl in Hnone. rewrite Hnone in Hs. by destruct Hs. }
    destruct Hkept as [Hpos Hera].
    assert (Hi0 : exists i0, i0 ∈ arc_inputs ctx c p).
    { destruct (arc_inputs ctx c p) as [|i0 ins]; [done |]. exists i0. by left. }
    destruct Hi0 as [i0 Hi0].
    assert (HinT : forall i, i ∈ arc_inputs ctx c p -> (c, i, p) ∈ T).
    { intros i Hi.
      destruct (Hall i Hi) as (Hclki & m & Hm & (u & Hcp & Hu)%list_elem_of_fmap).
      inversion Hcp; subst c i.
      destruct Hout as (pi & Hpi & Ho & Hn).
      apply Hlow. exists m, u, (p, pi). split; [done |]. split; [done |].
      split; [done |]. split; [done |]. split; [| done].
      apply arc_hit_true. apply list_elem_of_filter in Hi as [[dc Hdc] _].
      exists n, dc. done. }
    assert (Hinit : is_Some (port_fanin (seed ctx) !! (c, p))).
    { apply (inv_entry _ _ _ (kahn_inv_init ctx Hwf) c p n i0 Hout Hclk Hi0).
      apply not_elem_of_empty. }
    apply (Hera c p n Hout Hinit).
    destruct (k_fanin k !! (c, p)) as [v|] eqn:Hv; [| done]. exfalso.
    apply (Hpos _ _ Hv). rewrite (inv_count _ _ _ Hinv _ _ _ Hv).
    destruct (filter _ (arc_inputs ctx c p)) as [|x l] eqn:Hf; [done |]. exfalso.
    assert (Hx : x ∈ filter (fun i => (c, i, p) ∉ T) (arc_inputs ctx c p))
      by (rewrite Hf; by left).
    apply list_elem_of_filter in Hx as [Hnin Hx]. by apply Hnin, HinT.
  - intros n [j Hj]%list_elem_of_lookup Hseed.
    destruct (inv_seeds _ _ _ Hinv) as [app Happ].
    assert (Hge : (length (seed_nets ctx) <= j)%nat).
    { destruct (decide (length (seed_nets ctx) <= j)%nat) as [|Hlt]; [done |].
      exfalso. apply Hseed. rewrite Happ, lookup_app_l in Hj by lia.
      by eapply list_elem_of_lookup_2. }
    destruct (inv_placed _ _ _ Hinv j n Hge Hj)
      as [(j1 & A & Hlt1 & Hj1 & (u & kp & Hu & Hclk & Hkp & Ho & Hn & Hd))
            (c & p & Hout & Harcs)].
    exists c, p. split; [done |]. split.
    + assert (Hhit : arc_hit ctx u kp = true)
        by (destruct Hd as [dc Hd]; apply arc_hit_true; eauto).
      pose proof (arc_hit_out_net _ _ _ _ Hkp Hn Hhit) as Hout'.
      pose proof (out_net_unique _ _ _ _ _ _ Hwf Hout Hout') as [= Hc Hp].
      pose proof (user_arc_input _ _ _ _ Hwf Hu Hhit) as Hi.
      rewrite Hc, Hp in Hi. intros Hnil. rewrite Hnil in Hi. by apply elem_of_nil in Hi.
    + intros i Hi. destruct (Harcs i Hi) as (j' & m & Hlt & Hj' & Hm).
      exists m. split; [| done]. exists j', j. done.
Qed.

(** The theorem at the pipeline, whose order is net 100, then net 101. *)
Lemma X21_linearize_reaches_witness :
  linearize (Examples.pipeline 4 0 100 100 1 false 10)
  = Ok {| k_order := [100; 101]; k_fanin := ∅; k_queue := [] |}
  /\ (forall c p n,
        out_net (Examples.pipeline 4 0 100 100 1 false 10) c p n ->
        clocked (Examples.pipeline 4 0 100 100 1 false 10) c p = false ->
        arc_inputs (Examples.pipeline 4 0 100 100 1 false 10) c p <> [] ->
        (forall i, i ∈ arc_inputs (Examples.pipeline 4 0 100 100 1 false 10) c p ->
                   clocked (Examples.pipeline 4 0 100 100 1 false 10) c i = false
                   /\ exists m, m ∈ [100; 101]
                        /\ (c, i) ∈ userports (Examples.pipeline 4 0 100 100 1 false 10) m) ->
        n ∈ [100; 101])
  /\ (forall n, n ∈ [100; 101] ->
        n ∉ seed_nets (Examples.pipeline 4 0 100 100 1 false 10) ->
        exists c p,
          out_net (Examples.pipeline 4 0 100 100 1 false 10) c p n
          /\ arc_inputs (Examples.pipeline 4 0 100 100 1 false 10) c p <> []
          /\ forall i, i ∈ arc_inputs (Examples.pipeline 4 0 100 100 1 false 10) c p ->
               exists m, precedes [100; 101] m n
                 /\ (c, i) ∈ userports (Examples.pipeline 4 0 100 100 1 false 10) m).
Proof.
  split; [vm_compute; reflexivity |].
  apply (X21_linearize_reaches (Examples.pipeline 4 0 100 100 1 false 10)
           {| k_order := [100; 101]; k_fanin := ∅; k_queue := [] |});
    [wf_example | vm_compute; reflexivity].
Defined.
